(** * siftrank: provider selection, call metrics and aggregation

    A shallow embedding of the Go sources of siftrank's comparison layer
    (package [siftrank] and package [siftrank/eval]) and of the CLI entry
    point, followed by the properties the design document states about them.

    Conventions.
    - Go's [int] and [int64] are 64-bit two's complement integers: a value is
      a [Z] inside [[min_int, max_int]] and every arithmetic operation wraps
      (module [GoInt]).
    - Go's [float64] is IEEE-754 binary64, taken from the standard library's
      executable specification [SpecFloat] at [prec = 53], [emax = 1024]
      (module [F64]).
    - Maps are stdpp [gmap]s; slices are lists, except where aliasing
      matters (module [Collector]), where a heap of backing arrays is kept.
    - A Go [error] is its message; [(T, error)] results are sums. *)

From Stdlib Require Import ZArith Lia Bool List Ascii String SpecFloat.
From Stdlib Require Import Sorting.Sorted Sorting.Permutation.
From stdpp Require Import base option list gmap strings sorting pretty.

Local Open Scope Z_scope.

(* ===================================================================== *)
(** * Part I: the embedding *)
(* ===================================================================== *)

(** ** Machine integers *)

Module GoInt.

Definition min_int : Z := - 2 ^ 63.
Definition max_int : Z := 2 ^ 63 - 1.

Definition in_range (z : Z) : Prop := min_int <= z <= max_int.

Definition in_rangeb (z : Z) : bool := (min_int <=? z) && (z <=? max_int).

(** Two's complement wrap-around of an unbounded result. *)
Definition wrap (z : Z) : Z := (z + 2 ^ 63) mod 2 ^ 64 - 2 ^ 63.

Definition add (x y : Z) : Z := wrap (x + y).
Definition sub (x y : Z) : Z := wrap (x - y).
Definition mul (x y : Z) : Z := wrap (x * y).

(** Go's [/] truncates toward zero; [min_int / -1] wraps. The divisor is
    never zero where the sources divide. *)
Definition quot (x y : Z) : Z := wrap (Z.quot x y).

(** Go's [%] has the sign of the dividend. *)
Definition rem (x y : Z) : Z := Z.rem x y.

(** [len(s)] as an [int]. *)
Definition len {A} (l : list A) : Z := Z.of_nat (length l).

End GoInt.

(** ** Panics

    A Go function either returns or panics; [outcome] keeps the two apart,
    so that "does not panic" is a statement about the embedding. *)

Inductive outcome (A : Type) : Type :=
  | Ret (a : A)
  | Panic (msg : string).
Arguments Ret {A} a.
Arguments Panic {A} msg.

Definition obind {A B} (m : outcome A) (k : A -> outcome B) : outcome B :=
  match m with
  | Ret a => k a
  | Panic msg => Panic msg
  end.

Global Instance outcome_bind : MBind outcome := fun A B k m => obind m k.
Global Instance outcome_ret : MRet outcome := fun A a => Ret a.

Definition returns {A} (m : outcome A) : Prop := exists a, m = Ret a.

(** [s[i]]: a run-time panic when the index is out of range. *)
Definition index {A} (l : list A) (i : Z) : outcome A :=
  if (0 <=? i) && (i <? GoInt.len l) then
    match l !! Z.to_nat i with
    | Some a => Ret a
    | None => Panic "index out of range"
    end
  else Panic "index out of range".

(** ** float64 *)

Module F64.

Definition prec : Z := 53.
Definition emax : Z := 1024.

Definition float64 : Type := spec_float.

Definition pzero : float64 := S754_zero false.

(** [float64(n)] for an integer [n]: rounding to nearest, ties to even. *)
Definition of_int (n : Z) : float64 := binary_normalize prec emax n 0 false.

Definition add : float64 -> float64 -> float64 := SFadd prec emax.
Definition sub : float64 -> float64 -> float64 := SFsub prec emax.
Definition mul : float64 -> float64 -> float64 := SFmul prec emax.
Definition div : float64 -> float64 -> float64 := SFdiv prec emax.

Definition ltb : float64 -> float64 -> bool := SFltb.
Definition leb : float64 -> float64 -> bool := SFleb.

(** The integer part of a finite float (truncation toward zero). *)
Definition trunc (f : float64) : option Z :=
  match f with
  | S754_zero _ => Some 0
  | S754_finite s m e =>
      let a := Z.shiftl (Zpos m) e in Some (if s then - a else a)
  | S754_infinity _ | S754_nan => None
  end.

(** [int(f)], [int64(f)]. The Go specification leaves the result open when
    the truncated value is not representable; the amd64 code the compiler
    emits yields the most negative integer then, and so does this
    function. *)
Definition to_int (f : float64) : Z :=
  match trunc f with
  | Some z => if GoInt.in_rangeb z then z else GoInt.min_int
  | None => GoInt.min_int
  end.

End F64.

(** ** Token usage (package siftrank) *)

Module TokenUsage.

Record Usage := mkUsage {
  InputTokens : Z;
  OutputTokens : Z;
  ReasoningTokens : Z
}.

(** What the Go type guarantees of a stored [Usage]: every field is an
    [int]. *)
Definition wf (u : Usage) : Prop :=
  GoInt.in_range (InputTokens u) /\
  GoInt.in_range (OutputTokens u) /\
  GoInt.in_range (ReasoningTokens u).

Definition zero : Usage := mkUsage 0 0 0.

(** [func (u Usage) TotalTokens() int] *)
Definition TotalTokens (u : Usage) : Z :=
  GoInt.add (GoInt.add (InputTokens u) (OutputTokens u)) (ReasoningTokens u).

(** [func (u *Usage) Add(other Usage)]: the receiver after the call. *)
Definition Add (u other : Usage) : Usage :=
  mkUsage (GoInt.add (InputTokens u) (InputTokens other))
          (GoInt.add (OutputTokens u) (OutputTokens other))
          (GoInt.add (ReasoningTokens u) (ReasoningTokens other)).

End TokenUsage.

(** ** Call metrics (package eval) *)

Module Metrics.

(** [time.Time] is an instant in nanoseconds. *)
Record CallMetrics := mkCallMetrics {
  ModelID : string;
  LatencyMs : Z;
  InputTokens : Z;
  OutputTokens : Z;
  PromptTokens : Z;
  Success : bool;
  ErrorType : string;
  Timestamp : Z
}.

(** The zero value [CallMetrics{}]. *)
Definition zeroCallMetrics : CallMetrics :=
  mkCallMetrics "" 0 0 0 0 false "" 0.

Global Instance CallMetrics_eq_dec : EqDecision CallMetrics.
Proof. solve_decision. Defined.

End Metrics.

(** ** Aggregation (package eval) *)

Module Aggregator.
Import Metrics.

Record ModelStats := mkModelStats {
  sModelID : string;
  CallCount : Z;
  SuccessRate : F64.float64;
  ErrorCount : Z;
  AvgLatency : Z;
  P50Latency : Z;
  P95Latency : Z;
  P99Latency : Z;
  TotalTokens : Z
}.

(** The zero value [ModelStats{}]. *)
Definition zeroModelStats : ModelStats :=
  mkModelStats "" 0 F64.pzero 0 0 0 0 0 0.

(** [sort.Slice(sorted, func(i, j) bool { return sorted[i] < sorted[j] })]
    on a copy of the input. An ascending sort of integers has one possible
    result, so the algorithm [sort.Slice] uses does not show. *)
Definition sort_int64 (values : list Z) : list Z := merge_sort Z.le values.

(** [func percentile(values []int64, p int) int64] *)
Definition percentile (values : list Z) (p : Z) : outcome Z :=
  if GoInt.len values =? 0 then Panic "percentile: empty slice"
  else
    let sorted := sort_int64 values in
    if GoInt.len sorted =? 1 then index sorted 0
    else
      let rank :=
        F64.mul (F64.div (F64.of_int p) (F64.of_int 100))
                (F64.of_int (GoInt.sub (GoInt.len sorted) 1)) in
      let lower := F64.to_int rank in
      let upper := GoInt.add lower 1 in
      if upper >=? GoInt.len sorted then
        index sorted (GoInt.sub (GoInt.len sorted) 1)
      else
        let fraction := F64.sub rank (F64.of_int lower) in
        lo ← index sorted lower;
        up ← index sorted upper;
        let result :=
          F64.add (F64.of_int lo)
                  (F64.mul fraction (F64.of_int (GoInt.sub up lo))) in
        Ret (F64.to_int result).

(** The local variables of the loop of [AggregateMetrics]. *)
Record acc := mkAcc {
  successCount : Z;
  errorCount : Z;
  totalLatency : Z;
  totalTokens : Z;
  latencies : list Z
}.

Definition acc0 : acc := mkAcc 0 0 0 0 [].

(** One iteration of [for _, m := range metrics]. *)
Definition step (a : acc) (m : CallMetrics) : acc :=
  let inputTokens :=
    if (InputTokens m =? 0) && (PromptTokens m >? 0)
    then PromptTokens m else InputTokens m in
  mkAcc (if Success m then GoInt.add (successCount a) 1 else successCount a)
        (if Success m then errorCount a else GoInt.add (errorCount a) 1)
        (GoInt.add (totalLatency a) (LatencyMs m))
        (GoInt.add (totalTokens a) (GoInt.add inputTokens (OutputTokens m)))
        (latencies a ++ [LatencyMs m]).

(** [func (sa *SessionAggregator) AggregateMetrics(metrics []CallMetrics) ModelStats] *)
Definition AggregateMetrics (metrics : list CallMetrics) : outcome ModelStats :=
  match metrics with
  | [] => Ret zeroModelStats
  | m0 :: _ =>
      let modelID := ModelID m0 in
      let callCount := GoInt.len metrics in
      let a := fold_left step metrics acc0 in
      let successRate :=
        F64.div (F64.of_int (successCount a)) (F64.of_int callCount) in
      if callCount =? 0 then Panic "integer divide by zero"
      else
        let avgLatency := GoInt.quot (totalLatency a) callCount in
        p50 ← percentile (latencies a) 50;
        p95 ← percentile (latencies a) 95;
        p99 ← percentile (latencies a) 99;
        Ret (mkModelStats modelID callCount successRate (errorCount a)
                          avgLatency p50 p95 p99 (totalTokens a))
  end.

(** The grouping loop of [AggregateByModel]:
    [grouped[m.ModelID] = append(grouped[m.ModelID], m)]. *)
Definition group_step (grouped : gmap string (list CallMetrics))
    (m : CallMetrics) : gmap string (list CallMetrics) :=
  <[ModelID m := default [] (grouped !! ModelID m) ++ [m]]> grouped.

Definition group_by_model (metrics : list CallMetrics)
    : gmap string (list CallMetrics) :=
  fold_left group_step metrics ∅.

Definition with_ModelID (modelID : string) (s : ModelStats) : ModelStats :=
  mkModelStats modelID (CallCount s) (SuccessRate s) (ErrorCount s)
               (AvgLatency s) (P50Latency s) (P95Latency s) (P99Latency s)
               (TotalTokens s).

(** The aggregation loop over the groups, in the order the map yields
    them. *)
Fixpoint aggregate_groups (groups : list (string * list CallMetrics))
    : outcome (list ModelStats) :=
  match groups with
  | [] => Ret []
  | (modelID, modelMetrics) :: rest =>
      stats ← AggregateMetrics modelMetrics;
      results ← aggregate_groups rest;
      Ret (with_ModelID modelID stats :: results)
  end.

(** Byte-wise order of the model ids, as Go's [<] on strings. *)
Definition stats_le (a b : ModelStats) : Prop :=
  String.le (sModelID a) (sModelID b).

Global Instance stats_le_dec : RelDecision stats_le.
Proof. intros a b. unfold stats_le. apply _. Defined.

(** [func (sa *SessionAggregator) AggregateByModel(metrics []CallMetrics) []ModelStats].
    Go iterates a map in an unspecified order; the final [sort.Slice] by
    model id makes the result independent of it, since the ids of the
    groups are distinct. *)
Definition AggregateByModel (metrics : list CallMetrics)
    : outcome (list ModelStats) :=
  results ← aggregate_groups (map_to_list (group_by_model metrics));
  Ret (merge_sort stats_le results).

End Aggregator.

(** ** The metrics collector (package eval)

    [GetMetrics] promises a copy, so slices are modelled with their backing
    arrays: a slice header points into a heap of arrays, [append] writes in
    place while the capacity lasts and moves to a new array when it does
    not, and two headers that share an array see each other's writes. *)

Module Collector.
Import Metrics.

(** The growth policy of [append] belongs to the Go runtime; all that is
    used of it is that the new capacity holds the new length. *)
Class GoRuntime := {
  growcap : nat -> nat -> nat;
  growcap_ge : forall old needed : nat, (needed <= growcap old needed)%nat
}.

(** A runtime that doubles the capacity, for running examples. *)
Definition doubling : GoRuntime.
Proof.
  refine {| growcap := fun old needed => Nat.max needed (2 * old) |}.
  intros old needed. apply Nat.le_max_l.
Defined.

Abbreviation loc := positive.

Record slice := mkSlice { ptr : loc; slen : nat; scap : nat }.

Abbreviation heap := (gmap loc (list CallMetrics)).

(** The backing array of a slice, and the elements the slice shows. *)
Definition array (h : heap) (s : slice) : list CallMetrics :=
  default [] (h !! ptr s).

Definition elems (h : heap) (s : slice) : list CallMetrics :=
  take (slen s) (array h s).

(** [make([]CallMetrics, len, cap)] *)
Definition make (h : heap) (len cap : nat) : heap * slice :=
  let l := fresh (dom h) in
  (<[l := replicate cap zeroCallMetrics]> h, mkSlice l len cap).

(** [append(s, x)] *)
Definition append `{GoRuntime} (h : heap) (s : slice) (x : CallMetrics)
    : heap * slice :=
  if decide (slen s < scap s)%nat then
    (<[ptr s := <[slen s := x]> (array h s)]> h,
     mkSlice (ptr s) (S (slen s)) (scap s))
  else
    let newcap := growcap (scap s) (S (slen s)) in
    let l := fresh (dom h) in
    (<[l := elems h s ++ x :: replicate (newcap - S (slen s)) zeroCallMetrics]> h,
     mkSlice l (S (slen s)) newcap).

(** [copy(dst, src)] *)
Definition copy (h : heap) (dst src : slice) : heap :=
  let n := Nat.min (slen dst) (slen src) in
  <[ptr dst := take n (elems h src) ++ drop n (array h dst)]> h.

(** The heap and the [metrics] field of the one collector in it. The
    mutex serialises the methods, which are therefore state
    transformers. *)
Record state := mkState { hp : heap; metrics : slice }.

(** [func NewMetricsCollector() *MetricsCollector] *)
Definition NewMetricsCollector (h : heap) : state :=
  let '(h', s) := make h 0 0 in mkState h' s.

(** [func (mc *MetricsCollector) RecordCall(m CallMetrics)] *)
Definition RecordCall `{GoRuntime} (st : state) (m : CallMetrics) : state :=
  let '(h', s) := append (hp st) (metrics st) m in mkState h' s.

(** [func (mc *MetricsCollector) GetMetrics() []CallMetrics] *)
Definition GetMetrics (st : state) : state * slice :=
  let '(h1, result) := make (hp st) (slen (metrics st)) (slen (metrics st)) in
  let h2 := copy h1 result (metrics st) in
  (mkState h2 (metrics st), result).

(** The loop of [GetMetricsByModel]: iteration [i] reads [mc.metrics[i]]
    from the heap as it is then. *)
Fixpoint by_model_loop `{GoRuntime} (modelID : string) (mc : slice)
    (n : nat) (i : nat) (h : heap) (result : slice) : heap * slice :=
  match n with
  | O => (h, result)
  | S n' =>
      match elems h mc !! i with
      | Some m =>
          let '(h', result') :=
            if decide (ModelID m = modelID) then append h result m
            else (h, result) in
          by_model_loop modelID mc n' (S i) h' result'
      | None => (h, result)
      end
  end.

(** [func (mc *MetricsCollector) GetMetricsByModel(modelID string) []CallMetrics] *)
Definition GetMetricsByModel `{GoRuntime} (st : state) (modelID : string)
    : state * slice :=
  let '(h1, result) := make (hp st) 0 0 in
  let '(h2, result') :=
    by_model_loop modelID (metrics st) (slen (metrics st)) 0 h1 result in
  (mkState h2 (metrics st), result').

(** [func (mc *MetricsCollector) Reset()] *)
Definition Reset (st : state) : state :=
  let '(h', s) := make (hp st) 0 0 in mkState h' s.

(** What a caller can do to a slice it holds: assign an element, append,
    or reslice within the capacity. An assignment or reslice out of range
    panics and leaves the heap as it was. *)
Inductive mutation :=
  | SetElem (i : nat) (x : CallMetrics)
  | AppendElem (x : CallMetrics)
  | Reslice (n : nat).

Definition mutate `{GoRuntime} (hs : heap * slice) (mu : mutation)
    : heap * slice :=
  let '(h, s) := hs in
  match mu with
  | SetElem i x =>
      if decide (i < slen s)%nat
      then (<[ptr s := <[i := x]> (array h s)]> h, s)
      else (h, s)
  | AppendElem x => append h s x
  | Reslice n =>
      if decide (n <= scap s)%nat
      then (h, mkSlice (ptr s) n (scap s))
      else (h, s)
  end.

Definition mutates `{GoRuntime} (h : heap) (s : slice)
    (mus : list mutation) : heap * slice :=
  fold_left mutate mus (h, s).

(** A slice is well formed in a heap when its array is allocated, has the
    slice's capacity, and the length is within it. *)
Definition wf_slice (h : heap) (s : slice) : Prop :=
  exists arr, h !! ptr s = Some arr /\ length arr = scap s /\
              (slen s <= scap s)%nat.

Definition wf (st : state) : Prop := wf_slice (hp st) (metrics st).

(** A sequence of [RecordCall]s. *)
Definition record_all `{GoRuntime} (st : state) (ms : list CallMetrics)
    : state :=
  fold_left RecordCall ms st.

End Collector.

(** ** The round-robin selector (package siftrank) *)

Module Selector.

(** What [SelectProvider] returns: [(provider, modelID, nil)] or
    [(nil, "", err)]. *)
Inductive selection (P : Type) : Type :=
  | Selected (provider : P) (modelID : string)
  | SelectError (err : string).
Arguments Selected {P} provider modelID.
Arguments SelectError {P} err.

Record roundRobinSelector (P : Type) : Type := mkSelector {
  providers : gmap string P;
  sequence : list string;
  rr_index : Z
}.
Arguments mkSelector {P} providers sequence rr_index.
Arguments providers {P} r.
Arguments sequence {P} r.
Arguments rr_index {P} r.

(** [func (rr *roundRobinSelector) SelectProvider(ctx) (eval.LLMProvider, string, error)].
    The selector after the call comes with the result; the mutex makes the
    read of [index] and its increment one step. *)
Definition SelectProvider {P} (rr : roundRobinSelector P)
    : outcome (selection P * roundRobinSelector P) :=
  if GoInt.len (sequence rr) =? 0 then
    Ret (SelectError "no models configured for comparison", rr)
  else
    modelID ← index (sequence rr)
                     (GoInt.rem (rr_index rr) (GoInt.len (sequence rr)));
    let rr' := mkSelector (providers rr) (sequence rr)
                          (GoInt.add (rr_index rr) 1) in
    match providers rr !! modelID with
    | Some provider => Ret (Selected provider modelID, rr')
    | None =>
        Ret (SelectError ("provider not found for model: " +:+ modelID), rr')
    end.

(** [n] calls in a row: the model ids selected ([None] for a call that
    returned an error) and the selector left behind. *)
Fixpoint select_n {P} (n : nat) (rr : roundRobinSelector P)
    : outcome (list (option string) * roundRobinSelector P) :=
  match n with
  | O => Ret ([], rr)
  | S n' =>
      r ← SelectProvider rr;
      let id := match fst r with
                | Selected _ modelID => Some modelID
                | SelectError _ => None
                end in
      rest ← select_n n' (snd r);
      Ret (id :: fst rest, snd rest)
  end.

(** How often a model id was selected. *)
Definition count_selected (modelID : string) (ids : list (option string))
    : nat :=
  length (filter (fun o => o = Some modelID) ids).

End Selector.

(** ** The metrics decorator (package eval) *)

Module EvalProvider.
Import Metrics.

(** The three interfaces of provider.go and the clock. Their
    implementations live in a state [W] that the decorator threads
    through; a method returns or panics. *)
Class ProviderSelector (S P W : Type) :=
  SelectProvider : S -> W -> outcome (Selector.selection P * W).

Class LLMProvider (P O W : Type) :=
  provider_Complete :
    P -> string -> option O -> W -> outcome (string * option string * W).

Class CompletionOptionsInterface (O W : Type) :=
  GetUsage : O -> W -> outcome (Z * Z * W).

Class Clock (W : Type) := time_Now : W -> Z * W.

(** [t.Sub(u)] saturates at the bounds of [time.Duration];
    [d.Milliseconds()] is [int64(d) / 1e6]. *)
Definition time_Sub (t u : Z) : Z :=
  Z.max GoInt.min_int (Z.min GoInt.max_int (t - u)).

Definition Milliseconds (d : Z) : Z := GoInt.quot d 1000000.

(** Everything [Complete] can touch: the state behind the interfaces and
    the collector. *)
Record world (W : Type) : Type := mkWorld {
  ext : W;
  coll : Collector.state
}.
Arguments mkWorld {W} ext coll.
Arguments ext {W} w.
Arguments coll {W} w.

Section Decorator.
Context `{rt : Collector.GoRuntime}.
Context {S P O W : Type}.
Context `{sel : !ProviderSelector S P W} `{prov : !LLMProvider P O W}
        `{optsI : !CompletionOptionsInterface O W} `{clk : !Clock W}.

(** The record of a selection failure. *)
Definition selection_failure (err : string) (now : Z) : CallMetrics :=
  mkCallMetrics "unknown" 0 0 0 0 false err now.

(** [if opts != nil { inputTokens, outputTokens := opts.GetUsage() ... }]:
    the token counts of the record, zero when there are no options. *)
Definition read_usage (opts : option O) (w : W) : outcome (Z * Z * W) :=
  match opts with
  | Some o => GetUsage o w
  | None => Ret (0, 0, w)
  end.

(** [func (ep *EvalProvider) Complete(ctx, prompt, opts) (string, error)]
    for the provider whose selector is [selector]. *)
Definition Complete (selector : S) (prompt : string) (opts : option O)
    (w : world W) : outcome (string * option string * world W) :=
  '(chosen, w1) ← SelectProvider selector (ext w);
  match chosen with
  | Selector.SelectError err =>
      let '(now, w2) := time_Now w1 in
      Ret ("", Some err,
           mkWorld w2 (Collector.RecordCall (coll w)
                         (selection_failure err now)))
  | Selector.Selected provider modelID =>
      let '(startTime, w2) := time_Now w1 in
      '(response, callErr, w3) ← provider_Complete provider prompt opts w2;
      let '(endTime, w4) := time_Now w3 in
      let latencyMs := Milliseconds (time_Sub endTime startTime) in
      '(inputTokens, outputTokens, w5) ← read_usage opts w4;
      let errorType := default "" callErr in
      let m := mkCallMetrics modelID latencyMs inputTokens outputTokens
                             inputTokens (bool_decide (callErr = None))
                             errorType startTime in
      Ret (response, callErr, mkWorld w5 (Collector.RecordCall (coll w) m))
  end.

End Decorator.

End EvalProvider.

(** ** The provider factory (package siftrank)

    Two versions of the factory are in the sources: factory.go, which knows
    no Anthropic provider, and its successor, which does. The constructors
    [NewOpenAIProvider] and [NewAnthropicProvider], the default logger and
    the constant [DefaultEncoding] are parameters of both. *)

Module Factory.

Inductive AuthStrategy :=
  | BearerAuth (token : string)
  | HeaderAuth (headerName headerValue : string)
  | NoAuth.

Record OpenAIConfig (L : Type) : Type := mkOpenAIConfig {
  oAuth : AuthStrategy;
  oModel : string;
  oBaseURL : string;
  oEncoding : string;
  oEffort : string;
  oLogger : L
}.
Arguments mkOpenAIConfig {L}.

Record AnthropicConfig (L : Type) : Type := mkAnthropicConfig {
  aAuth : AuthStrategy;
  aModel : string;
  aBaseURL : string;
  aEncoding : string;
  aLogger : L
}.
Arguments mkAnthropicConfig {L}.

Definition ProviderTypeOpenAI : string := "openai".
Definition ProviderTypeOpenRouter : string := "openrouter".
Definition ProviderTypeAnthropic : string := "anthropic".
Definition ProviderTypeGoogle : string := "google".
Definition ProviderTypeOllama : string := "ollama".

(** The fields the two versions of [ProviderConfig] share; [Logger] is a
    pointer that may be nil. *)
Record ProviderConfig (L : Type) : Type := mkProviderConfig {
  Type_ : string;
  APIKey : string;
  Model : string;
  BaseURL : string;
  Encoding : string;
  Effort : string;
  Logger : option L;
  CompareModels : string
}.
Arguments mkProviderConfig {L}.
Arguments Type_ {L} p.
Arguments APIKey {L} p.
Arguments Model {L} p.
Arguments BaseURL {L} p.
Arguments Encoding {L} p.
Arguments Effort {L} p.
Arguments Logger {L} p.
Arguments CompareModels {L} p.

(** factory.go declares [ProviderConfig] without [CompareModels]. *)
Record OldProviderConfig (L : Type) : Type := mkOldProviderConfig {
  oldType : string;
  oldAPIKey : string;
  oldModel : string;
  oldBaseURL : string;
  oldEncoding : string;
  oldEffort : string;
  oldLogger : option L
}.
Arguments mkOldProviderConfig {L}.
Arguments oldType {L} o.
Arguments oldAPIKey {L} o.
Arguments oldModel {L} o.
Arguments oldBaseURL {L} o.
Arguments oldEncoding {L} o.
Arguments oldEffort {L} o.
Arguments oldLogger {L} o.

(** The old configuration with the fields of a new one. *)
Definition forget {L} (cfg : ProviderConfig L) : OldProviderConfig L :=
  mkOldProviderConfig (Type_ cfg) (APIKey cfg) (Model cfg) (BaseURL cfg)
                      (Encoding cfg) (Effort cfg) (Logger cfg).

(** [(LLMProvider, error)] *)
Definition result (P : Type) : Type := (P + string)%type.

Section Constructors.
Context {L P : Type}.
Variable slog_Default : L.
Variable DefaultEncoding : string.
Variable NewOpenAIProvider : OpenAIConfig L -> result P.
Variable NewAnthropicProvider : AnthropicConfig L -> result P.

Definition or_default (encoding : string) : string :=
  if decide (encoding = "") then DefaultEncoding else encoding.

(** [newOpenAICompatibleProvider], the same in both versions. *)
Definition newOpenAICompatibleProvider
    (type apiKey model baseURL encoding effort : string) (logger : L)
    : result P :=
  if decide (apiKey = "") then
    inr (type +:+ " provider requires an API key")
  else
    NewOpenAIProvider
      (mkOpenAIConfig (BearerAuth apiKey) model baseURL
                      (or_default encoding) effort logger).

(** [newOllamaProvider], the same in both versions. *)
Definition newOllamaProvider
    (apiKey model baseURL encoding effort : string) (logger : L)
    : result P :=
  let auth := if decide (apiKey = "") then NoAuth else BearerAuth apiKey in
  if decide (baseURL = "") then
    inr "ollama provider requires a base URL"
  else
    NewOpenAIProvider
      (mkOpenAIConfig auth model baseURL (or_default encoding) effort logger).

(** [newAnthropicProvider], new version only. *)
Definition newAnthropicProvider (cfg : ProviderConfig L) (logger : L)
    : result P :=
  if decide (APIKey cfg = "") then
    inr "anthropic provider requires an API key"
  else
    NewAnthropicProvider
      (mkAnthropicConfig (HeaderAuth "x-api-key" (APIKey cfg)) (Model cfg)
                         (BaseURL cfg) (or_default (Encoding cfg)) logger).

(** [func NewProvider(cfg ProviderConfig) (LLMProvider, error)] of
    factory.go. *)
Definition OldNewProvider (cfg : OldProviderConfig L) : result P :=
  if decide (oldType cfg = "") then inr "provider type is required"
  else if decide (oldModel cfg = "") then inr "model is required"
  else
    let logger := default slog_Default (oldLogger cfg) in
    if decide (oldType cfg = ProviderTypeOpenAI
               \/ oldType cfg = ProviderTypeOpenRouter) then
      newOpenAICompatibleProvider (oldType cfg) (oldAPIKey cfg)
        (oldModel cfg) (oldBaseURL cfg) (oldEncoding cfg) (oldEffort cfg)
        logger
    else if decide (oldType cfg = ProviderTypeAnthropic) then
      inr "anthropic provider not yet implemented"
    else if decide (oldType cfg = ProviderTypeGoogle) then
      inr "google provider not yet implemented"
    else if decide (oldType cfg = ProviderTypeOllama) then
      newOllamaProvider (oldAPIKey cfg) (oldModel cfg) (oldBaseURL cfg)
        (oldEncoding cfg) (oldEffort cfg) logger
    else inr ("unknown provider type: " +:+ oldType cfg).

(** [func NewProvider(cfg ProviderConfig) (LLMProvider, error)] of the
    later version. *)
Definition NewProvider (cfg : ProviderConfig L) : result P :=
  if decide (Type_ cfg = "") then inr "provider type is required"
  else if decide (Model cfg = "") then inr "model is required"
  else
    let logger := default slog_Default (Logger cfg) in
    if decide (Type_ cfg = ProviderTypeOpenAI
               \/ Type_ cfg = ProviderTypeOpenRouter) then
      newOpenAICompatibleProvider (Type_ cfg) (APIKey cfg) (Model cfg)
        (BaseURL cfg) (Encoding cfg) (Effort cfg) logger
    else if decide (Type_ cfg = ProviderTypeAnthropic) then
      newAnthropicProvider cfg logger
    else if decide (Type_ cfg = ProviderTypeGoogle) then
      inr "google provider not yet implemented"
    else if decide (Type_ cfg = ProviderTypeOllama) then
      newOllamaProvider (APIKey cfg) (Model cfg) (BaseURL cfg)
        (Encoding cfg) (Effort cfg) logger
    else inr ("unknown provider type: " +:+ Type_ cfg).

End Constructors.

End Factory.

(** ** Building the comparison provider (package siftrank) *)

Module Compare.
Import Factory.

(** [strings.Split(s, ",")] *)
Fixpoint split_comma (s : string) : list string :=
  match s with
  | EmptyString => [EmptyString]
  | String c rest =>
      if Ascii.eqb c ","%char then EmptyString :: split_comma rest
      else match split_comma rest with
           | hd :: tl => String c hd :: tl
           | [] => [String c EmptyString]
           end
  end.

(** [strings.SplitN(s, ":", 2)]: [None] when the result has fewer than two
    parts, otherwise the two parts. *)
Fixpoint split_colon (s : string) : option (string * string) :=
  match s with
  | EmptyString => None
  | String c rest =>
      if Ascii.eqb c ":"%char then Some (EmptyString, rest)
      else match split_colon rest with
           | Some (a, b) => Some (String c a, b)
           | None => None
           end
  end.

(** [llmProviderAdapter] wraps a provider of package siftrank. *)
Record llmProviderAdapter (P : Type) : Type :=
  mkAdapter { adapted : P }.
Arguments mkAdapter {P} adapted.
Arguments adapted {P} l.

Section NewEvalProvider.
Context {L P : Type}.
Variable slog_Default : L.
Variable DefaultEncoding : string.
Variable NewOpenAIProvider : OpenAIConfig L -> result P.
Variable NewAnthropicProvider : AnthropicConfig L -> result P.
(** [strings.TrimSpace] and [os.Getenv]. *)
Variable strings_TrimSpace : string -> string.
Variable os_Getenv : string -> string.

(** The API key and base URL a provider type is given, or the error of
    the [switch]. *)
Definition credentials (providerType : string)
    : (string * string) + string :=
  if decide (providerType = ProviderTypeOpenAI) then
    inl (os_Getenv "OPENAI_API_KEY", "")
  else if decide (providerType = ProviderTypeOpenRouter) then
    inl (os_Getenv "OPENROUTER_API_KEY", "")
  else if decide (providerType = ProviderTypeOllama) then
    let baseURL := os_Getenv "OLLAMA_BASE_URL" in
    inl ("", if decide (baseURL = "") then "http://localhost:11434"
             else baseURL)
  else if decide (providerType = ProviderTypeAnthropic) then
    inl (os_Getenv "ANTHROPIC_API_KEY", "")
  else if decide (providerType = ProviderTypeGoogle) then
    inr "google provider not yet implemented"
  else inr ("unknown provider type: " +:+ providerType).

(** The loop [for _, spec := range modelSpecs] over the two variables
    [providers] and [sequence]. *)
Fixpoint build (logger : option L) (modelSpecs : list string)
    (providers : gmap string (llmProviderAdapter P))
    (sequence : list string)
    : (gmap string (llmProviderAdapter P) * list string) + string :=
  match modelSpecs with
  | [] => inl (providers, sequence)
  | spec0 :: rest =>
      let spec := strings_TrimSpace spec0 in
      if decide (spec = "") then build logger rest providers sequence
      else
        match split_colon spec with
        | None =>
            inr ("invalid model spec format: " +:+ spec
                 +:+ " (expected provider:model)")
        | Some (providerType, modelID) =>
            match credentials providerType with
            | inr err => inr err
            | inl (apiKey, baseURL) =>
                let cfg := mkProviderConfig providerType apiKey modelID
                             baseURL DefaultEncoding "" logger "" in
                match NewProvider slog_Default DefaultEncoding
                        NewOpenAIProvider NewAnthropicProvider cfg with
                | inr err =>
                    inr ("failed to create provider for " +:+ spec
                         +:+ ": " +:+ err)
                | inl provider =>
                    build logger rest
                      (<[spec := mkAdapter provider]> providers)
                      (sequence ++ [spec])
                end
            end
        end
  end.

(** [func NewEvalProvider(compareModels string, logger *slog.Logger)]:
    the selector and the collector of the provider it returns. *)
Definition NewEvalProvider (compareModels : string) (logger : option L)
    (h : Collector.heap)
    : (Selector.roundRobinSelector (llmProviderAdapter P)
       * Collector.state) + string :=
  if decide (compareModels = "") then inr "compareModels is empty"
  else
    let modelSpecs := split_comma compareModels in
    if GoInt.len modelSpecs =? 0 then
      inr "no models specified in compareModels"
    else
      match build logger modelSpecs ∅ [] with
      | inr err => inr err
      | inl (providers, sequence) =>
          if Z.of_nat (size providers) =? 0 then
            inr "no valid providers created from compareModels"
          else
            inl (Selector.mkSelector providers sequence 0,
                 Collector.NewMetricsCollector h)
      end.

End NewEvalProvider.

End Compare.

(** ** The Anthropic provider's retry loop (package siftrank)

    [Complete] loops until an attempt settles the call. What an attempt
    meets outside the program (the context, the API, the transport's
    recorded status code, the retry-after header) is an [attempt] record,
    and the loop runs against a list of them; it is total on every list,
    and answers [None] when the list ends before the loop returns. *)

Module Anthropic.
Import TokenUsage.

Definition Second : Z := 1000000000.

(** [CompletionOptions]; the [Schema] field plays no part here. *)
Record CompletionOptions := mkOptions {
  Temperature : option F64.float64;
  MaxTokens : option Z;
  OptUsage : Usage;
  ModelUsed : string;
  FinishReason : string;
  RequestID : string
}.

Definition emptyOptions : CompletionOptions :=
  mkOptions None None zero "" "" "".

Inductive block := TextBlock (text : string) | OtherBlock.

Record Message := mkMessage {
  mID : string;
  mModel : string;
  mStopReason : string;
  mInputTokens : Z;
  mOutputTokens : Z;
  mContent : list block
}.

(** The loop over [message.Content] writing text blocks to the builder. *)
Definition text_of (content : list block) : string :=
  fold_left (fun acc b => match b with
                          | TextBlock t => acc +:+ t
                          | OtherBlock => acc
                          end) content "".

(** The error of a failed API call: [context.DeadlineExceeded] itself, or
    any other error. *)
Inductive call_error :=
  | DeadlineExceeded
  | OtherError (msg : string).

Global Instance call_error_eq_dec : EqDecision call_error.
Proof. solve_decision. Defined.

Definition call_error_message (e : call_error) : string :=
  match e with
  | DeadlineExceeded => "context deadline exceeded"
  | OtherError msg => msg
  end.

Record attempt := mkAttempt {
  ctxErrAtStart : option string;
  reply : Message + call_error;
  ctxErrAfter : option string;
  statusCode : Z;
  retryAfter : Z
}.

(** The errors [Complete] returns: the context's own error, or the
    wrapped client error. *)
Inductive error :=
  | ContextError (msg : string)
  | Unrecoverable (status : Z) (cause : call_error).

(** [err.Error()]; the second case is
    [fmt.Errorf("unrecoverable error (status %d): %w", statusCode, err)]. *)
Definition Error (e : error) : string :=
  match e with
  | ContextError msg => msg
  | Unrecoverable status cause =>
      "unrecoverable error (status " +:+ pretty status +:+ "): "
      +:+ call_error_message cause
  end.

Inductive event :=
  | Request (maxTokens : Z) (temperature : option F64.float64)
  | Sleep (d : Z).

(** Modelled from the spec: [minDuration] is declared in a file of package
    siftrank that is not among the sources; the provider "retries with
    backoff", doubling the wait up to [maxBackoff], so it is the smaller
    of its two arguments. *)
Definition minDuration (a b : Z) : Z := Z.min a b.

Definition maxBackoff : Z := 30 * Second.

(** [time.Sleep(backoff); backoff = minDuration(backoff*2, maxBackoff)] *)
Definition sleep_and_double (backoff : Z) : list event * Z :=
  ([Sleep backoff], minDuration (GoInt.mul backoff 2) maxBackoff).

(** [func (p *AnthropicProvider) handleRateLimit(backoff *time.Duration, maxBackoff time.Duration)] *)
Definition handleRateLimit (retryAfter backoff : Z) : list event * Z :=
  if retryAfter >? 0 then ([Sleep retryAfter], backoff)
  else sleep_and_double backoff.

(** One iteration of the loop: it returns, or goes round again with a new
    backoff. *)
Inductive iteration_result :=
  | Returned (r : string + error) (opts : CompletionOptions)
  | Again (backoff : Z).

Definition iteration (opts : CompletionOptions) (totalUsage : Usage)
    (backoff : Z) (a : attempt) : list event * iteration_result :=
  match ctxErrAtStart a with
  | Some e => ([], Returned (inr (ContextError e)) opts)
  | None =>
      let request := Request (default 4096 (MaxTokens opts))
                             (Temperature opts) in
      match reply a with
      | inl message =>
          let callUsage :=
            mkUsage (mInputTokens message) (mOutputTokens message) 0 in
          let totalUsage' := Add totalUsage callUsage in
          let opts' := mkOptions (Temperature opts) (MaxTokens opts)
                         totalUsage' (mModel message) (mStopReason message)
                         (mID message) in
          ([request], Returned (inl (text_of (mContent message))) opts')
      | inr err =>
          match ctxErrAfter a with
          | Some e => ([request], Returned (inr (ContextError e)) opts)
          | None =>
              if decide (err = DeadlineExceeded) then
                let '(evs, b) := sleep_and_double backoff in
                (request :: evs, Again b)
              else if statusCode a =? 429 then
                let '(evs, b) := handleRateLimit (retryAfter a) backoff in
                (request :: evs, Again b)
              else if (statusCode a >=? 500) && (statusCode a <? 600) then
                let '(evs, b) := sleep_and_double backoff in
                (request :: evs, Again b)
              else if (statusCode a >=? 400) && (statusCode a <? 500) then
                ([request],
                 Returned (inr (Unrecoverable (statusCode a) err)) opts)
              else
                let '(evs, b) := sleep_and_double backoff in
                (request :: evs, Again b)
          end
      end
  end.

(** The [for] loop against the attempts of [trace]. *)
Fixpoint loop (opts : CompletionOptions) (totalUsage : Usage) (backoff : Z)
    (trace : list attempt)
    : list event * option ((string + error) * CompletionOptions) :=
  match trace with
  | [] => ([], None)
  | a :: rest =>
      match iteration opts totalUsage backoff a with
      | (evs, Returned r opts') => (evs, Some (r, opts'))
      | (evs, Again backoff') =>
          let '(evs', res) := loop opts totalUsage backoff' rest in
          (evs ++ evs', res)
      end
  end.

(** [func (p *AnthropicProvider) Complete(ctx, prompt, opts) (string, error)];
    a nil [opts] is replaced by fresh options. *)
Definition Complete (opts : option CompletionOptions) (trace : list attempt)
    : list event * option ((string + error) * CompletionOptions) :=
  loop (default emptyOptions opts) zero Second trace.

End Anthropic.

(** ** The command line entry point (cmd/siftrank)

    [run] talks to the file system, the environment and package siftrank.
    Those are an [env] of oracles, and [run] is a computation that logs every
    call it makes to one of them, in order, and stops at the first error. *)

Module Cli.

(** The package-level flag variables. *)
Record flags := mkFlags {
  inputFile : string;
  forceJSON : bool;
  outputFile : string;
  filePattern : string;
  initialPrompt : string;
  inputTemplate : string;
  batchSize : Z;
  maxTrials : Z;
  concurrency : Z;
  batchTokens : Z;
  refinementRatio : F64.float64;
  oaiModel : string;
  oaiURL : string;
  encoding : string;
  effort : string;
  compareModels : string;
  noConverge : bool;
  elbowTolerance : F64.float64;
  stableTrials : Z;
  minTrials : Z;
  elbowMethod : string;
  dryRun : bool;
  debug : bool;
  relevance : bool;
  traceFile : string;
  watch : bool;
  noMinimap : bool;
  logFile : string
}.

Inductive level := LevelInfo | LevelDebug.

(** Where the logger writes. *)
Inductive log_output :=
  | Stderr
  | LogFile (path : string)
  | Discard.

(** [siftrank.Config] as [run] fills it in. *)
Record Config := mkConfig {
  InitialPrompt : string;
  BatchSize : Z;
  NumTrials : Z;
  Concurrency : Z;
  OpenAIModel : string;
  RefinementRatio : F64.float64;
  OpenAIKey : string;
  OpenAIAPIURL : string;
  Encoding : string;
  BatchTokens : Z;
  DryRun : bool;
  TracePath : string;
  Relevance : bool;
  Effort : string;
  CompareModels : string;
  LogLevel : level;
  Logger : log_output * level;
  Watch : bool;
  NoMinimap : bool;
  EnableConvergence : bool;
  ElbowTolerance : F64.float64;
  StableTrials : Z;
  MinTrials : Z;
  ElbowMethod : string
}.

Section Run.
(** Rankers and ranking results are values of package siftrank. *)
Context {R Res : Type}.

Record env := mkEnv {
  validatePath : string -> string + string;
  os_OpenFile : string -> unit + string;
  os_ReadFile : string -> string + string;
  os_Getenv : string -> string;
  NewRanker : Config -> R + string;
  validateInputPath : string -> (string * bool) + string;
  enumerateFiles : string -> string -> list string + string;
  RankFromFiles : R -> list string -> string -> bool -> Res + string;
  RankFromFile : R -> string -> string -> bool -> Res + string;
  json_MarshalIndent : Res -> string + string;
  os_WriteFile : string -> string -> unit + string
}.

Inductive event :=
  | EvValidatePath (path : string)
  | EvOpenFile (path : string)
  | EvCloseFile (path : string)
  | EvReadFile (path : string)
  | EvNewRanker (config : Config)
  | EvValidateInputPath (path : string)
  | EvEnumerateFiles (dir pattern : string)
  | EvRankFromFiles (paths : list string)
  | EvRankFromFile (path : string)
  | EvMarshal
  | EvPrintln (text : string)
  | EvWriteFile (path : string)
  | EvLog (msg : string).

(** A computation: the calls made so far and a value, or the error that
    stopped it. *)
Record M (A : Type) : Type := mkM {
  calls : list event;
  value : A + string
}.
Arguments mkM {A} calls value.
Arguments calls {A} m.
Arguments value {A} m.

Definition M_bind {A B} (k : A -> M B) (m : M A) : M B :=
  match value m with
  | inl a => mkM (calls m ++ calls (k a)) (value (k a))
  | inr e => mkM (calls m) (inr e)
  end.

Local Instance M_mbind : MBind M := @M_bind.
Local Instance M_mret : MRet M := fun A a => mkM [] (inl a).

Definition call {A} (ev : event) (r : A + string) : M A := mkM [ev] r.
Definition fail {A} (err : string) : M A := mkM [] (inr err).
Definition log (msg : string) : M unit := mkM [EvLog msg] (inl tt).

(** [fmt.Errorf(prefix + ": %w", err)] on the error path. *)
Definition wrapping {A} (prefix : string) (m : M A) : M A :=
  mkM (calls m)
      (match value m with
       | inl a => inl a
       | inr e => inr (prefix +:+ ": " +:+ e)
       end).

(** [defer logWriter.Close()] *)
Definition deferring {A} (ev : event) (m : M A) : M A :=
  mkM (calls m ++ [ev]) (value m).

(** [refinementRatio < 0 || refinementRatio >= 1] *)
Definition ratio_rejected (ratio : F64.float64) : bool :=
  F64.ltb ratio (F64.of_int 0) || F64.leb (F64.of_int 1) ratio.

(** [strings.HasPrefix(s, "@")] with [strings.TrimPrefix(s, "@")]. *)
Definition at_file (s : string) : option string :=
  match s with
  | String c rest => if Ascii.eqb c "@"%char then Some rest else None
  | EmptyString => None
  end.

(** [run] from the refinement ratio check on; [logOutput] and [logLevel]
    are what the logging set-up before it decided. *)
Definition run_validated (f : flags) (e : env) (logOutput : log_output)
    (logLevel : level) : M unit :=
  if ratio_rejected (refinementRatio f) then
    fail "refinement ratio must be >= 0 and < 1"
  else
    userPrompt ←
      match at_file (initialPrompt f) with
      | Some filePath =>
          validPromptPath ←
            wrapping "invalid prompt file path"
              (call (EvValidatePath filePath) (validatePath e filePath));
          wrapping "could not read initial prompt file"
            (call (EvReadFile validPromptPath)
                  (os_ReadFile e validPromptPath))
      | None => mret (initialPrompt f)
      end;
    let config :=
      mkConfig userPrompt (batchSize f) (maxTrials f) (concurrency f)
        (oaiModel f) (refinementRatio f) (os_Getenv e "OPENAI_API_KEY")
        (oaiURL f) (encoding f) (batchTokens f) (dryRun f) (traceFile f)
        (relevance f) (effort f) (compareModels f) logLevel
        (logOutput, logLevel) (watch f) (noMinimap f)
        (negb (noConverge f)) (elbowTolerance f) (stableTrials f)
        (minTrials f) (elbowMethod f) in
    ranker ←
      wrapping "failed to create ranker"
        (call (EvNewRanker config) (NewRanker e config));
    '(validPath, isDir) ←
      wrapping "invalid input path"
        (call (EvValidateInputPath (inputFile f))
              (validateInputPath e (inputFile f)));
    finalResults ←
      (if isDir : bool then
         _ ← log "processing directory";
         filePaths ←
           wrapping "failed to enumerate files"
             (call (EvEnumerateFiles validPath (filePattern f))
                   (enumerateFiles e validPath (filePattern f)));
         _ ← log "files discovered";
         wrapping "failed to rank from directory"
           (call (EvRankFromFiles filePaths)
                 (RankFromFiles e ranker filePaths (inputTemplate f)
                                (forceJSON f)))
       else
         wrapping "failed to rank from file"
           (call (EvRankFromFile validPath)
                 (RankFromFile e ranker validPath (inputTemplate f)
                               (forceJSON f))));
    jsonResults ←
      wrapping "could not marshal results to JSON"
        (call EvMarshal (json_MarshalIndent e finalResults));
    _ ← (if dryRun f then mret tt
         else call (EvPrintln jsonResults) (inl tt));
    if decide (outputFile f = "") then mret tt
    else
      validOutputPath ←
        wrapping "invalid output file path"
          (call (EvValidatePath (outputFile f))
                (validatePath e (outputFile f)));
      _ ← wrapping "failed to write output file"
            (call (EvWriteFile validOutputPath)
                  (os_WriteFile e validOutputPath jsonResults));
      log "results written to file".

(** [func run(cmd *cobra.Command, args []string) error] *)
Definition run (f : flags) (e : env) : M unit :=
  let logLevel := if debug f then LevelDebug else LevelInfo in
  if decide (logFile f = "") then
    run_validated f e (if watch f then Discard else Stderr) logLevel
  else
    validLogPath ←
      wrapping "invalid log file path"
        (call (EvValidatePath (logFile f)) (validatePath e (logFile f)));
    _ ← wrapping "failed to open log file"
          (call (EvOpenFile validLogPath) (os_OpenFile e validLogPath));
    deferring (EvCloseFile validLogPath)
      (run_validated f e (LogFile validLogPath) logLevel).

(** The calls that construct a ranker, read input, or reach the LLM (the
    ranker's two ranking methods are the only callers of a provider). *)
Definition touches_ranking (ev : event) : bool :=
  match ev with
  | EvNewRanker _ | EvValidateInputPath _ | EvEnumerateFiles _ _
  | EvRankFromFiles _ | EvRankFromFile _ | EvReadFile _ => true
  | _ => false
  end.

End Run.

Arguments env R Res : clear implicits.
Arguments mkM {A} calls value.
Arguments calls {A} m.
Arguments value {A} m.

End Cli.

(** ** The ranking engine, one trial without convergence or refinement

    The scheduler, planner, prompt builder and score ledger are in files of
    package siftrank that are not among the sources; what follows is written
    from sections 3 to 6 of the design document. The shuffle, the token
    estimator, the provider and the tolerant reply parser are parameters;
    the order in which the batches of the trial resolve is a parameter too,
    since the scheduler does not fix it. *)

Module Engine.

Record Document := mkDocument {
  key : string;
  value : string;
  object : string
}.

(** An entry of the ScoreLedger. *)
Record entry := mkEntry {
  cumulative_rank_sum : Z;
  exposure_count : Z;
  last_seen_trial : Z
}.

(** [score := cumulative_rank_sum / max(1, exposure_count)], kept as
    numerator and denominator. *)
Record score := mkScore { num : Z; den : Z }.

Record RankedDocument := mkRanked {
  rKey : string;
  rValue : string;
  rObject : string;
  rScore : score;
  rExposure : Z;
  rRank : Z
}.

Inductive failure :=
  | InputInvalid
  | BatchOversize.

Record Config := mkConfig {
  initial_prompt : string;
  batch_size : nat;
  batch_tokens : nat;
  seed : Z
}.

Definition ledger : Type := gmap string entry.

Section Trial.
(** Modelled from the spec: the optional TokenEstimator capability of
    section 6. *)
Variable estimate_tokens : string -> nat.
(** Modelled from the spec: the "trial-seeded pseudo-random permutation"
    of section 4.1, a function of the seed and the trial index. *)
Variable shuffle : Z -> nat -> list Document -> list Document.
(** Modelled from the spec: the provider contract of section 6 for a
    deterministic stub, whose reply is a function of the prompt. *)
Variable complete : string -> string.
(** Modelled from the spec: the tolerant parser of section 4.2, which
    extracts "the first syntactically valid ordering" from a reply. *)
Variable extract_ordering : string -> list string.
(** The order in which the batches of a trial resolve. *)
Variable resolve_order : list (list Document) -> list (list Document).

(** Modelled from the spec: section 4.2, the prompt is the instruction,
    the enumerated "Key: value" items and the request for a JSON
    ordering. *)
Definition build_prompt (cfg : Config) (batch : list Document) : string :=
  initial_prompt cfg +:+ String "010"%char ""
  +:+ fold_right (fun d acc => key d +:+ ": " +:+ value d
                               +:+ String "010"%char "" +:+ acc)
                 "" batch
  +:+ "Respond with a JSON object whose single field is the ordered list of keys, most relevant first.".

(** Modelled from the spec: section 4.1, round-robin distribution of the
    shuffled documents into [K] bins. *)
Definition distribute (K : nat) (docs : list Document)
    : list (list Document) :=
  map (fun b =>
         omap (fun '(i, d) =>
                 if decide (i mod K = b)%nat then Some d else None)
              (imap pair docs))
      (seq 0 K).

Definition fits (cfg : Config) (batch : list Document) : bool :=
  bool_decide (estimate_tokens (build_prompt cfg batch)
               <= batch_tokens cfg)%nat.

(** Modelled from the spec: section 4.1, "if any bin exceeds T tokens,
    increase K by 1 and redistribute; repeat until all bins fit or
    K > L/2". *)
Fixpoint plan_from (fuel : nat) (cfg : Config) (K : nat)
    (docs : list Document) : option (list (list Document)) :=
  let bins := distribute K docs in
  if forallb (fits cfg) bins then Some bins
  else
    match fuel with
    | O => None
    | S fuel' =>
        if decide (length docs < 2 * S K)%nat then None
        else plan_from fuel' cfg (S K) docs
    end.

Definition ceil_div (a b : nat) : nat := ((a + b - 1) / b)%nat.

(** Modelled from the spec: sections 4.1 and 7, the plan of a trial; on
    [BatchOversize] the trial is retried once with doubled [K]. *)
Definition plan (cfg : Config) (trial : nat) (docs : list Document)
    : option (list (list Document)) :=
  let shuffled := shuffle (seed cfg) trial docs in
  let K := ceil_div (length docs) (batch_size cfg) in
  match plan_from (length docs) cfg K shuffled with
  | Some bins => Some bins
  | None => plan_from (length docs) cfg (2 * K) shuffled
  end.

(** Modelled from the spec: section 4.2, "unknown keys are dropped,
    duplicate keys: first occurrence wins, missing keys are appended in
    original batch order"; no valid key at all is [EmptyRanking]. *)
Definition validate (batch : list Document) (reply : list string)
    : option (list string) :=
  let keys := map key batch in
  let known := remove_dups (filter (fun k => k ∈ keys) reply) in
  match known with
  | [] => None
  | _ => Some (known ++ filter (fun k => k ∉ known) keys)
  end.

(** Modelled from the spec: sections 6 and 7, one batch: the call, and
    on a parse failure one more call with the same prompt; a second
    failure drops the batch. *)
Definition rank_batch (cfg : Config) (batch : list Document)
    : option (list string) :=
  let prompt := build_prompt cfg batch in
  match validate batch (extract_ordering (complete prompt)) with
  | Some r => Some r
  | None => validate batch (extract_ordering (complete prompt))
  end.

Definition bump (trial : Z) (i : Z) (e : entry) : entry :=
  mkEntry (cumulative_rank_sum e + i) (exposure_count e + 1) trial.

(** Modelled from the spec: section 4.3, for a ranking [k_1..k_n]:
    [cumulative_rank_sum[k_i] += i; exposure_count[k_i] += 1]. *)
Definition apply_ranking (trial : Z) (ranking : list string)
    (l : ledger) : ledger :=
  foldr (fun '(i, k) acc => alter (bump trial (Z.of_nat (S i))) k acc)
        l (imap pair ranking).

(** A batch resolves: its ranking, if any, goes into the ledger. *)
Definition resolve (cfg : Config) (trial : Z) (batch : list Document)
    (l : ledger) : ledger :=
  match rank_batch cfg batch with
  | Some ranking => apply_ranking trial ranking l
  | None => l
  end.

Definition score_of (e : entry) : score :=
  mkScore (cumulative_rank_sum e) (Z.max 1 (exposure_count e)).

(** Modelled from the spec: section 4.3, "sort live documents by score
    ascending; ties broken by exposure descending, then by key
    ascending". *)
Definition before (a b : RankedDocument) : Prop :=
  let sa := num (rScore a) * den (rScore b) in
  let sb := num (rScore b) * den (rScore a) in
  sa < sb \/
  (sa = sb /\ (rExposure b < rExposure a \/
               (rExposure a = rExposure b /\ String.le (rKey a) (rKey b)))).

Global Instance before_dec : RelDecision before.
Proof. intros a b. unfold before. apply _. Defined.

Definition ranked (l : ledger) (d : Document) : RankedDocument :=
  let e := default (mkEntry 0 0 0) (l !! key d) in
  mkRanked (key d) (value d) (object d) (score_of e) (exposure_count e) 0.

Definition with_rank (i : nat) (r : RankedDocument) : RankedDocument :=
  mkRanked (rKey r) (rValue r) (rObject r) (rScore r) (rExposure r)
           (Z.of_nat (S i)).

(** Modelled from the spec: section 4.6 step 8, "assign integer ranks
    1..n by ascending score". *)
Definition finalize (l : ledger) (docs : list Document)
    : list RankedDocument :=
  imap with_rank (merge_sort before (map (ranked l) docs)).

Definition initial_ledger (docs : list Document) : ledger :=
  list_to_map (map (fun d => (key d, mkEntry 0 0 0)) docs).

(** Modelled from the spec: section 4.6 with [max_trials = 1],
    [enable_convergence = false], [refinement_ratio = 0] and neither
    relevance flag: steps 2 to 4, then 6 and 8; sections 7 and 8 for the
    invalid inputs and for fewer than two documents. *)
Definition run (cfg : Config) (docs : list Document)
    : list RankedDocument + failure :=
  if decide (docs = [] \/ (batch_size cfg < 2)%nat) then inr InputInvalid
  else if decide (length docs < 2)%nat then
    inl (map (fun d => mkRanked (key d) (value d) (object d)
                                (mkScore 0 1) 0 1) docs)
  else
    match plan cfg 1 docs with
    | None => inr BatchOversize
    | Some batches =>
        let l := foldr (resolve cfg 1) (initial_ledger docs)
                       (resolve_order batches) in
        inl (finalize l docs)
    end.

End Trial.

End Engine.

(** ** Path validation and file enumeration (package main) *)

Module Paths.

(** An error of the file system: whether [os.IsNotExist] holds of it,
  and its text. *)
Inductive fs_error :=
| NotExist (msg : string)
| OtherFailure (msg : string).

(** The functions of [path/filepath], [os] and [strconv] that the
  validation calls. [os_Stat] gives [info.IsDir()], [os_ReadDir] the
  name and [IsDir()] of every entry, [strconv_Quote] the text [%q]
  prints. *)
Record filesystem := mkFilesystem {
filepath_Abs : string -> string + string;
filepath_Clean : string -> string;
filepath_EvalSymlinks : string -> string + fs_error;
os_Stat : string -> bool + fs_error;
os_ReadDir : string -> list (string * bool) + string;
filepath_Match : string -> string -> bool + string;
filepath_Join : string -> string -> string;
strconv_Quote : string -> string
}.

(** [strings.Contains(s, "..")] *)
Fixpoint contains_dotdot (s : string) : bool :=
match s with
| EmptyString => false
| String c rest =>
    (Ascii.eqb c "."%char
     && match rest with
        | String c' _ => Ascii.eqb c' "."%char
        | EmptyString => false
        end)
    || contains_dotdot rest
end.

(** [func validatePath(path string) (string, error)] *)
Definition validatePath (fs : filesystem) (path : string) : string + string :=
match filepath_Abs fs path with
| inr err => inr ("failed to resolve absolute path: " +:+ err)
| inl absPath =>
    let cleanPath := filepath_Clean fs absPath in
    if contains_dotdot cleanPath then
      inr ("path contains directory traversal: " +:+ path)
    else
      match filepath_EvalSymlinks fs cleanPath with
      | inr (NotExist _) => inl cleanPath
      | inr (OtherFailure err) =>
          inr ("failed to resolve symlinks: " +:+ err)
      | inl realPath =>
          match os_Stat fs realPath with
          | inr (NotExist _) => inl cleanPath
          | inr (OtherFailure err) => inr ("failed to stat file: " +:+ err)
          | inl isDir =>
              if isDir : bool then
                inr ("path is a directory, not a file: " +:+ path)
              else inl realPath
          end
      end
end.

(** [func validateInputPath(path string) (string, bool, error)] *)
Definition validateInputPath (fs : filesystem) (path : string)
  : (string * bool) + string :=
match filepath_Abs fs path with
| inr err => inr ("failed to resolve absolute path: " +:+ err)
| inl absPath =>
    let cleanPath := filepath_Clean fs absPath in
    if contains_dotdot cleanPath then
      inr ("path contains directory traversal: " +:+ path)
    else
      match filepath_EvalSymlinks fs cleanPath with
      | inr (NotExist _) => inr ("path does not exist: " +:+ path)
      | inr (OtherFailure err) =>
          inr ("failed to resolve symlinks: " +:+ err)
      | inl realPath =>
          match os_Stat fs realPath with
          | inr (NotExist err) | inr (OtherFailure err) =>
              inr ("failed to stat path: " +:+ err)
          | inl isDir => inl (realPath, isDir)
          end
      end
end.

Definition MaxFilesPerDirectory : Z := 1000.

(** The loop of [enumerateFiles] over the directory entries:
  [matchedFiles] at its end, or the error of [filepath.Match]. *)
Fixpoint match_entries (fs : filesystem) (dirPath pattern : string)
  (entries : list (string * bool)) (matchedFiles : list string)
  : list string + string :=
match entries with
| [] => inl matchedFiles
| (name, isDir) :: rest =>
    if isDir : bool then
      match_entries fs dirPath pattern rest matchedFiles
    else
      match filepath_Match fs pattern name with
      | inr err =>
          inr ("invalid glob pattern " +:+ strconv_Quote fs pattern
               +:+ ": " +:+ err)
      | inl matched =>
          if matched : bool then
            match_entries fs dirPath pattern rest
              (matchedFiles ++ [filepath_Join fs dirPath name])
          else match_entries fs dirPath pattern rest matchedFiles
      end
end.

(** [func enumerateFiles(dirPath string, pattern string) ([]string, error)];
  [sort.Strings] orders byte-wise. *)
Definition enumerateFiles (fs : filesystem) (dirPath pattern : string)
  : list string + string :=
match os_ReadDir fs dirPath with
| inr err => inr ("failed to read directory: " +:+ err)
| inl entries =>
    match match_entries fs dirPath pattern entries [] with
    | inr err => inr err
    | inl matchedFiles =>
        if GoInt.len matchedFiles >? MaxFilesPerDirectory then
          inr "directory contains too many matching files (max 1000)"
        else
          let sorted := merge_sort String.le matchedFiles in
          if GoInt.len sorted =? 0 then
            inr ("no files matched pattern " +:+ strconv_Quote fs pattern
                 +:+ " in directory " +:+ dirPath)
          else inl sorted
    end
end.

End Paths.

(** ** The adapters of the comparison provider (package siftrank) *)

Module Wrapper.
Import Metrics TokenUsage Anthropic Compare.

(** [*CompletionOptions]: the options are objects of a store, and a
  pointer is nil or the address of one of them. *)
Abbreviation addr := positive.
Abbreviation store := (gmap addr CompletionOptions).

(** [siftrank.LLMProvider]. [Complete] is given nil or a pointer to
  options; it can reach no other options, and what it does to the ones
  it is given shows as their content after the call. [PS] is the state
  behind the providers and the clock. *)
Class SiftProvider (P PS : Type) :=
sift_Complete :
  P -> string -> option CompletionOptions -> PS ->
  outcome (string * option string * CompletionOptions * PS).

(** [completionOptionsAdapter] *)
Record completionOptionsAdapter := mkOptionsAdapter {
adapted_opts : option addr
}.

(** What the comparison provider works on: the store of options, the
  selector behind its pointer, and the state of the providers. *)
Record state (P PS : Type) : Type := mkState {
options : store;
selector : Selector.roundRobinSelector (llmProviderAdapter P);
providers_state : PS
}.
Arguments mkState {P PS} options selector providers_state.
Arguments options {P PS} s.
Arguments selector {P PS} s.
Arguments providers_state {P PS} s.

Section Adapters.
Context {P PS : Type}.
Context `{sift : !SiftProvider P PS} `{clock : !EvalProvider.Clock PS}.

(** [func (a *llmProviderAdapter) Complete(ctx, prompt, opts eval.CompletionOptionsInterface) (string, error)]:
[siftOpts] is nil, or a pointer to new, empty options. *)
Definition adapter_Complete (a : llmProviderAdapter P) (prompt : string)
(opts : option completionOptionsAdapter) (w : state P PS)
: outcome (string * option string * state P PS) :=
match opts with
| Some _ =>
  let siftOpts := fresh (dom (options w)) in
  '(result, err, content, ps) ←
    sift_Complete (adapted a) prompt (Some emptyOptions)
                  (providers_state w);
  Ret (result, err,
       mkState (<[siftOpts := content]> (options w)) (selector w) ps)
| None =>
  '(result, err, _, ps) ←
    sift_Complete (adapted a) prompt None (providers_state w);
  Ret (result, err, mkState (options w) (selector w) ps)
end.

(** [func (c *completionOptionsAdapter) GetUsage() (int, int)] *)
Definition adapter_GetUsage (c : completionOptionsAdapter) (w : state P PS)
: outcome (Z * Z * state P PS) :=
match adapted_opts c with
| None => Ret (0, 0, w)
| Some l =>
  match options w !! l with
  | Some o =>
      Ret (InputTokens (OptUsage o), OutputTokens (OptUsage o), w)
  | None => Panic "invalid memory address or nil pointer dereference"
  end
end.

(** The selector of the state, as [eval.ProviderSelector]. *)
Definition state_SelectProvider (_ : unit) (w : state P PS)
: outcome (Selector.selection (llmProviderAdapter P) * state P PS) :=
'(chosen, rr) ← Selector.SelectProvider (selector w);
Ret (chosen, mkState (options w) rr (providers_state w)).

Definition state_Now (w : state P PS) : Z * state P PS :=
let '(t, ps) := EvalProvider.time_Now (providers_state w) in
(t, mkState (options w) (selector w) ps).

(** [func (w *evalProviderWrapper) Complete(ctx, prompt, opts *CompletionOptions) (string, error)] *)
Definition wrapper_Complete `{rt : Collector.GoRuntime} (prompt : string)
(opts : option addr) (w : EvalProvider.world (state P PS))
: outcome (string * option string * EvalProvider.world (state P PS)) :=
let optsAdapter :=
match opts with
| Some l => Some (mkOptionsAdapter (Some l))
| None => None
end in
EvalProvider.Complete
(sel := state_SelectProvider) (prov := adapter_Complete)
(optsI := adapter_GetUsage) (clk := state_Now)
tt prompt optsAdapter w.

End Adapters.

End Wrapper.

(* ===================================================================== *)
(** * Part II: properties *)
(* ===================================================================== *)

(** ** Machine integers *)

Module GoIntFacts.
Import GoInt.

Lemma wrap_range z : in_range (wrap z).
Proof.
  unfold in_range, wrap, min_int, max_int.
  pose proof (Z.mod_pos_bound (z + 2 ^ 63) (2 ^ 64) ltac:(lia)). lia.
Qed.

Lemma wrap_id z : in_range z -> wrap z = z.
Proof.
  unfold in_range, wrap, min_int, max_int. intros H.
  rewrite Z.mod_small by lia. lia.
Qed.

Lemma wrap_cong a b : a mod 2 ^ 64 = b mod 2 ^ 64 -> wrap a = wrap b.
Proof.
  unfold wrap. intros H.
  rewrite <- (Zplus_mod_idemp_l a), <- (Zplus_mod_idemp_l b), H. reflexivity.
Qed.

Lemma wrap_mod z : wrap z mod 2 ^ 64 = z mod 2 ^ 64.
Proof.
  unfold wrap.
  rewrite Zminus_mod, Z.mod_mod by lia.
  rewrite <- Zminus_mod. f_equal. lia.
Qed.

Lemma wrap_add_l a b : wrap (wrap a + b) = wrap (a + b).
Proof.
  apply wrap_cong. rewrite Zplus_mod, wrap_mod, <- Zplus_mod. reflexivity.
Qed.

Lemma wrap_add_r a b : wrap (a + wrap b) = wrap (a + b).
Proof. rewrite Z.add_comm, wrap_add_l. f_equal. lia. Qed.

Lemma add_assoc a b c : add (add a b) c = add a (add b c).
Proof. unfold add. rewrite wrap_add_l, wrap_add_r. f_equal. lia. Qed.

Lemma add_comm a b : add a b = add b a.
Proof. unfold add. f_equal. lia. Qed.

Lemma add_0_r a : in_range a -> add a 0 = a.
Proof. intros H. unfold add. rewrite Z.add_0_r. apply wrap_id, H. Qed.

Lemma add_exact a b : in_range (a + b) -> add a b = a + b.
Proof. apply wrap_id. Qed.

Lemma in_rangeb_spec z : in_rangeb z = true <-> in_range z.
Proof. unfold in_rangeb, in_range. rewrite andb_true_iff. lia. Qed.

Lemma len_nonneg {A} (l : list A) : 0 <= len l.
Proof. unfold len. lia. Qed.

Lemma len_app {A} (l k : list A) : len (l ++ k) = len l + len k.
Proof. unfold len. rewrite length_app. lia. Qed.

(** Linear goals over wrapped sums and differences. *)
Ltac wrap_lia :=
  unfold add, sub, wrap, in_range, min_int, max_int in *;
  change (2 ^ 64) with 18446744073709551616 in *;
  change (2 ^ 63) with 9223372036854775808 in *;
  Z.div_mod_to_equations; lia.

End GoIntFacts.

(** ** Token usage *)

Module TokenUsageFacts.
Import GoInt GoIntFacts TokenUsage.

Lemma Add_wf u v : wf (Add u v).
Proof. repeat split; apply wrap_range. Qed.

(** Four-way interchange of wrapped sums. *)
Lemma add_interchange a b c d :
  add (add a b) (add c d) = add (add a c) (add b d).
Proof.
  wrap_lia.
Qed.

(** Without overflow the total is the plain sum. *)
Lemma TotalTokens_exact u :
  in_range (InputTokens u + OutputTokens u) ->
  in_range (InputTokens u + OutputTokens u + ReasoningTokens u) ->
  TotalTokens u = InputTokens u + OutputTokens u + ReasoningTokens u.
Proof.
  intros H1 H2. unfold TotalTokens.
  rewrite (add_exact _ _ H1). apply add_exact, H2.
Qed.

(** C6. [TotalTokens] is the sum of the three counts and [Add] adds
    componentwise, in Go's integer arithmetic; hence the total of a sum of
    usages is the sum of their totals,
    [(u.Add(v)).TotalTokens() = u.TotalTokens() + v.TotalTokens()], and
    adding the zero [Usage] changes no component. *)
Theorem Usage_TotalTokens_homomorphism (u v : Usage) :
  wf u ->
  TotalTokens u
    = add (add (InputTokens u) (OutputTokens u)) (ReasoningTokens u) /\
  InputTokens (Add u v) = add (InputTokens u) (InputTokens v) /\
  OutputTokens (Add u v) = add (OutputTokens u) (OutputTokens v) /\
  ReasoningTokens (Add u v) = add (ReasoningTokens u) (ReasoningTokens v) /\
  TotalTokens (Add u v) = add (TotalTokens u) (TotalTokens v) /\
  Add u zero = u.
Proof.
  intros (Hi & Ho & Hr).
  repeat split; try reflexivity.
  - unfold TotalTokens, Add; simpl. wrap_lia.
  - destruct u as [i o r]; simpl in *. unfold Add; simpl.
    rewrite !add_0_r by assumption. reflexivity.
Qed.

Lemma Usage_TotalTokens_homomorphism_witness :
  wf (mkUsage 120 45 7) /\
  TotalTokens (Add (mkUsage 120 45 7) (mkUsage 30 5 1)) = 208 /\
  Add (mkUsage 120 45 7) zero = mkUsage 120 45 7.
Proof.
  assert (Hwf : wf (mkUsage 120 45 7)).
  { unfold wf, in_range, min_int, max_int; simpl; lia. }
  split; [exact Hwf|].
  destruct (Usage_TotalTokens_homomorphism (mkUsage 120 45 7)
              (mkUsage 30 5 1) Hwf) as (_ & _ & _ & _ & Htot & _).
  destruct (Usage_TotalTokens_homomorphism (mkUsage 120 45 7) zero Hwf)
    as (_ & _ & _ & _ & _ & Hz).
  split; [rewrite Htot; reflexivity | exact Hz].
Defined.

End TokenUsageFacts.

(** ** The provider factory *)

Module FactoryFacts.
Import Factory.

Section Versions.
Context {L P : Type}.
Variable slog_Default : L.
Variable DefaultEncoding : string.
Variable NewOpenAIProvider : OpenAIConfig L -> result P.
Variable NewAnthropicProvider : AnthropicConfig L -> result P.

Local Abbreviation old :=
  (OldNewProvider slog_Default DefaultEncoding NewOpenAIProvider).
Local Abbreviation new :=
  (NewProvider slog_Default DefaultEncoding NewOpenAIProvider
               NewAnthropicProvider).

(** Away from the Anthropic type the two versions run the same code. *)
Lemma versions_agree (cfg : ProviderConfig L) :
  Type_ cfg <> ProviderTypeAnthropic -> new cfg = old (forget cfg).
Proof.
  intros Hty. unfold NewProvider, OldNewProvider, forget; simpl.
  repeat case_decide; try reflexivity; try contradiction.
Qed.

(** Both versions check the required fields before they look at the
    type. *)
Lemma versions_agree_no_model (cfg : ProviderConfig L) :
  Model cfg = "" -> new cfg = old (forget cfg).
Proof.
  intros Hm. unfold NewProvider, OldNewProvider, forget; simpl.
  rewrite Hm. repeat case_decide; try reflexivity; try contradiction.
Qed.

Lemma old_anthropic (cfg : ProviderConfig L) :
  Type_ cfg = ProviderTypeAnthropic -> Model cfg <> "" ->
  old (forget cfg) = inr "anthropic provider not yet implemented".
Proof.
  intros Hty Hm. unfold OldNewProvider, forget; simpl. rewrite Hty.
  repeat case_decide; try reflexivity; try contradiction;
    try discriminate; destruct_or?; discriminate.
Qed.

Lemma new_anthropic (cfg : ProviderConfig L) :
  Type_ cfg = ProviderTypeAnthropic -> Model cfg <> "" ->
  new cfg = newAnthropicProvider DefaultEncoding NewAnthropicProvider cfg
              (default slog_Default (Logger cfg)).
Proof.
  intros Hty Hm. unfold NewProvider; simpl. rewrite Hty.
  repeat case_decide; try reflexivity; try contradiction;
    try discriminate; destruct_or?; discriminate.
Qed.

(** C8, as amended. The two versions of [NewProvider] agree on every
    configuration whose type is not [anthropic] (openai, openrouter,
    ollama, google, empty or unrecognised), and on every configuration
    without a model, whatever its type: both answer "model is required"
    before they look at the type. They differ only on [anthropic] with a
    model: there the old version answers "anthropic provider not yet
    implemented", and the new one asks for an API key or hands
    [NewAnthropicProvider] the configuration built from [cfg]. *)
Theorem NewProvider_versions (cfg : ProviderConfig L) :
  (Type_ cfg <> ProviderTypeAnthropic -> new cfg = old (forget cfg)) /\
  (Type_ cfg = ProviderTypeAnthropic -> Model cfg = "" ->
     new cfg = inr "model is required" /\
     old (forget cfg) = inr "model is required") /\
  (Type_ cfg = ProviderTypeAnthropic -> Model cfg <> "" ->
     old (forget cfg) = inr "anthropic provider not yet implemented" /\
     (APIKey cfg = "" ->
        new cfg = inr "anthropic provider requires an API key") /\
     (APIKey cfg <> "" ->
        new cfg =
          NewAnthropicProvider
            (mkAnthropicConfig (HeaderAuth "x-api-key" (APIKey cfg))
               (Model cfg) (BaseURL cfg)
               (if decide (Encoding cfg = "") then DefaultEncoding
                else Encoding cfg)
               (default slog_Default (Logger cfg))))) /\
  (new cfg <> old (forget cfg) ->
     Type_ cfg = ProviderTypeAnthropic /\ Model cfg <> "").
Proof.
  split; [apply versions_agree|].
  split.
  { intros Hty Hm. unfold NewProvider, OldNewProvider, forget; simpl.
    rewrite Hty, Hm. split; reflexivity. }
  split.
  { intros Hty Hm. split; [apply old_anthropic; assumption|].
    rewrite (new_anthropic cfg Hty Hm). unfold newAnthropicProvider.
    split; intros Hk; case_decide; try contradiction; reflexivity. }
  intros Hne.
  destruct (decide (Type_ cfg = ProviderTypeAnthropic)) as [Hty|Hty];
    [|exfalso; apply Hne, versions_agree, Hty].
  split; [exact Hty|]. intros Hm.
  apply Hne, versions_agree_no_model, Hm.
Qed.

End Versions.

(** A factory whose constructors record the configuration they were
    given. *)
Definition recording : Type := (OpenAIConfig unit + AnthropicConfig unit)%type.

Definition record_openai (c : OpenAIConfig unit) : result recording :=
  inl (inl c).
Definition record_anthropic (c : AnthropicConfig unit) : result recording :=
  inl (inr c).

Definition anthropic_without_model : ProviderConfig unit :=
  mkProviderConfig "anthropic" "sk-ant-test" "" "" "" "" None "".

Definition anthropic_with_model : ProviderConfig unit :=
  mkProviderConfig "anthropic" "sk-ant-test" "claude-3-5-sonnet-20241022"
                   "" "cl100k_base" "" None "".

(** C8, as stated, fails: on an [anthropic] configuration without a model
    the old version does not answer "not yet implemented", and the two
    versions do not differ. *)
Lemma NewProvider_versions_counterexample :
  Type_ anthropic_without_model = ProviderTypeAnthropic /\
  APIKey anthropic_without_model <> "" /\
  OldNewProvider tt "o200k_base" record_openai
                 (forget anthropic_without_model)
    = inr "model is required" /\
  OldNewProvider tt "o200k_base" record_openai
                 (forget anthropic_without_model)
    <> inr "anthropic provider not yet implemented" /\
  NewProvider tt "o200k_base" record_openai record_anthropic
              anthropic_without_model
    = inr "model is required".
Proof. repeat split; try reflexivity; discriminate. Qed.

Lemma NewProvider_versions_witness :
  Type_ anthropic_with_model = ProviderTypeAnthropic /\
  Model anthropic_with_model <> "" /\
  APIKey anthropic_with_model <> "" /\
  OldNewProvider tt "o200k_base" record_openai (forget anthropic_with_model)
    = inr "anthropic provider not yet implemented" /\
  NewProvider tt "o200k_base" record_openai record_anthropic
              anthropic_with_model
    = inl (inr (mkAnthropicConfig (HeaderAuth "x-api-key" "sk-ant-test")
                  "claude-3-5-sonnet-20241022" "" "cl100k_base" tt)).
Proof.
  assert (Hty : Type_ anthropic_with_model = ProviderTypeAnthropic)
    by reflexivity.
  assert (Hm : Model anthropic_with_model <> "") by discriminate.
  assert (Hk : APIKey anthropic_with_model <> "") by discriminate.
  destruct (NewProvider_versions tt "o200k_base" record_openai
              record_anthropic anthropic_with_model)
    as (_ & _ & Hanth & _).
  destruct (Hanth Hty Hm) as (Hold & _ & Hnew).
  split; [exact Hty|]. split; [exact Hm|]. split; [exact Hk|].
  split; [exact Hold|]. rewrite (Hnew Hk). reflexivity.
Defined.

End FactoryFacts.

(** ** The round-robin selector *)

Lemma bind_Ret {A B} (a : A) (k : A -> outcome B) : (Ret a ≫= k) = k a.
Proof. reflexivity. Qed.

Lemma bind_Panic {A B} (msg : string) (k : A -> outcome B) :
  (Panic msg ≫= k) = Panic msg.
Proof. reflexivity. Qed.

Module SelectorFacts.
Import GoInt GoIntFacts Selector.

Lemma index_lookup {A} (l : list A) (i : nat) (a : A) :
  l !! i = Some a -> index l (Z.of_nat i) = Ret a.
Proof.
  intros H. unfold index.
  pose proof (lookup_lt_Some _ _ _ H) as Hlt.
  replace (0 <=? Z.of_nat i) with true by (symmetry; apply Z.leb_le; lia).
  replace (Z.of_nat i <? len l) with true
    by (symmetry; apply Z.ltb_lt; unfold len; lia).
  simpl. rewrite Nat2Z.id, H. reflexivity.
Qed.

(** Every model of the rotation has a provider; [NewEvalProvider] builds
    selectors of this kind. *)
Definition covered {P} (rr : roundRobinSelector P) : Prop :=
  forall id, id ∈ sequence rr -> is_Some (providers rr !! id).

(** The model at position [j mod m] of the rotation. *)
Definition nth_model (seq : list string) (j : nat) : option string :=
  seq !! (j mod length seq)%nat.

Lemma nth_model_is_Some (seq : list string) (j : nat) :
  seq <> [] -> is_Some (nth_model seq j).
Proof.
  intros Hne. apply lookup_lt_is_Some.
  apply Nat.mod_upper_bound. destruct seq; [contradiction | discriminate].
Qed.

(** One call on a selector whose counter holds [j]. *)
Lemma SelectProvider_at {P} (rr : roundRobinSelector P) (j : nat) :
  sequence rr <> [] -> covered rr ->
  rr_index rr = Z.of_nat j -> Z.of_nat j <= max_int ->
  exists id provider,
    nth_model (sequence rr) j = Some id /\
    providers rr !! id = Some provider /\
    SelectProvider rr =
      Ret (Selected provider id,
           mkSelector (providers rr) (sequence rr) (wrap (Z.of_nat (S j)))).
Proof.
  intros Hne Hcov Hidx Hj.
  destruct (nth_model_is_Some (sequence rr) j Hne) as [id Hid].
  destruct (Hcov id) as [provider Hp].
  { eapply list_elem_of_lookup_2, Hid. }
  exists id, provider. split; [exact Hid|]. split; [exact Hp|].
  unfold SelectProvider.
  assert (Hlen : (0 < length (sequence rr))%nat).
  { destruct (sequence rr); [contradiction | simpl; lia]. }
  replace (len (sequence rr) =? 0) with false
    by (symmetry; apply Z.eqb_neq; unfold len; lia).
  unfold rem, len. rewrite Hidx.
  rewrite Z.rem_mod_nonneg by lia.
  rewrite <- Nat2Z.inj_mod.
  rewrite (index_lookup _ _ _ Hid). simpl.
  rewrite Hp. unfold add.
  replace (Z.of_nat j + 1) with (Z.of_nat (S j)) by lia. reflexivity.
Qed.

(** [n] calls in a row go through the rotation in order. *)
Lemma select_n_from {P} (n : nat) : forall (rr : roundRobinSelector P) (j : nat),
  sequence rr <> [] -> covered rr ->
  rr_index rr = wrap (Z.of_nat j) -> Z.of_nat (j + n) <= 2 ^ 63 ->
  select_n n rr =
    Ret (map (nth_model (sequence rr)) (seq j n),
         mkSelector (providers rr) (sequence rr) (wrap (Z.of_nat (j + n)))).
Proof.
  induction n as [|n IH]; intros rr j Hne Hcov Hidx Hbound.
  - simpl. rewrite Nat.add_0_r, <- Hidx. destruct rr; reflexivity.
  - assert (Hj : Z.of_nat j <= max_int) by (unfold max_int; lia).
    rewrite wrap_id in Hidx by (unfold in_range, min_int, max_int in *; lia).
    destruct (SelectProvider_at rr j Hne Hcov Hidx Hj)
      as (id & provider & Hid & Hp & Hsel).
    cbn [select_n]. rewrite Hsel, bind_Ret. cbn [fst snd].
    rewrite (IH _ (S j)); cbn [sequence providers rr_index];
      try assumption; try reflexivity; [|lia].
    rewrite bind_Ret. cbn [fst snd seq map]. rewrite Hid.
    replace (S j + n)%nat with (j + S n)%nat by lia. reflexivity.
Qed.

(** How many of the first [n] calls fall on position [i] of the
    rotation. *)
Definition hits (m n i : nat) : nat :=
  length (filter (fun j => (j mod m)%nat = i) (seq 0 n)).

Lemma succ_div_mod (n m : nat) :
  (0 < m)%nat ->
  ((S n mod m = 0 /\ S n / m = S (n / m) /\ n mod m = m - 1) \/
   (S n mod m = S (n mod m) /\ S n / m = n / m /\ S (n mod m) < m))%nat.
Proof.
  intros Hm.
  pose proof (Nat.div_mod_eq n m) as Hn.
  pose proof (Nat.mod_upper_bound n m ltac:(lia)) as Hr.
  destruct (decide (S (n mod m) = m)) as [Heq|Hneq].
  - left.
    assert (H : (S n = m * S (n / m) + 0)%nat) by lia.
    repeat split.
    + symmetry. eapply Nat.mod_unique; [|exact H]. lia.
    + symmetry. eapply Nat.div_unique; [|exact H]. lia.
    + lia.
  - right.
    assert (H : (S n = m * (n / m) + S (n mod m))%nat) by lia.
    repeat split.
    + symmetry. eapply Nat.mod_unique; [|exact H]. lia.
    + symmetry. eapply Nat.div_unique; [|exact H]. lia.
    + lia.
Qed.

Lemma hits_closed_form (m n i : nat) :
  (i < m)%nat ->
  hits m n i = (n / m + (if decide (i < n mod m) then 1 else 0))%nat.
Proof.
  intros Hi. unfold hits. induction n as [|n IH].
  - simpl. rewrite Nat.Div0.div_0_l, Nat.Div0.mod_0_l.
    case_decide; [lia | reflexivity].
  - rewrite seq_S, filter_app, length_app, IH. simpl.
    destruct (succ_div_mod n m ltac:(lia)) as [(Hr & Hq & Hl)|(Hr & Hq & Hl)];
      rewrite Hr, Hq.
    + rewrite filter_cons, filter_nil.
      repeat case_decide; simpl; lia.
    + rewrite filter_cons, filter_nil.
      repeat case_decide; simpl; lia.
Qed.

(** Positions of the rotation are hit evenly. *)
Lemma hits_balanced (m n i i' : nat) :
  (i < m)%nat -> (i' < m)%nat -> (hits m n i <= hits m n i' + 1)%nat.
Proof.
  intros Hi Hi'. rewrite !hits_closed_form by assumption.
  repeat case_decide; lia.
Qed.

(** In a rotation without repetition a model is selected when, and only
    when, its position is hit. *)
Lemma count_selected_hits (seq0 : list string) (n i : nat) (id : string) :
  NoDup seq0 -> seq0 !! i = Some id ->
  count_selected id (map (nth_model seq0) (seq 0 n))
    = hits (length seq0) n i.
Proof.
  intros Hnd Hi. unfold count_selected, hits.
  generalize (seq 0 n) as js. intros js.
  induction js as [|j js IH]; [reflexivity|].
  change (map (nth_model seq0) (j :: js))
    with (nth_model seq0 j :: map (nth_model seq0) js).
  rewrite !filter_cons.
  destruct (decide (j mod length seq0 = i)%nat) as [Hj|Hj].
  - rewrite decide_True; [simpl; rewrite IH; reflexivity|].
    unfold nth_model. rewrite Hj. exact Hi.
  - rewrite decide_False; [exact IH|].
    unfold nth_model. intros Hj'. apply Hj.
    eapply NoDup_lookup; eassumption.
Qed.

End SelectorFacts.

(** ** Building the comparison provider *)

Module CompareFacts.
Import GoInt GoIntFacts Selector SelectorFacts Factory Compare.

Section Build.
Context {L P : Type}.
Variable slog_Default : L.
Variable DefaultEncoding : string.
Variable NewOpenAIProvider : OpenAIConfig L -> result P.
Variable NewAnthropicProvider : AnthropicConfig L -> result P.
Variable strings_TrimSpace : string -> string.
Variable os_Getenv : string -> string.

Local Abbreviation build' :=
  (build slog_Default DefaultEncoding NewOpenAIProvider
         NewAnthropicProvider strings_TrimSpace os_Getenv).

(** The rotation and the provider map hold the same model ids. *)
Definition in_step (providers : gmap string (llmProviderAdapter P))
    (sequence : list string) : Prop :=
  forall id, id ∈ sequence <-> is_Some (providers !! id).

Lemma build_in_step logger modelSpecs : forall providers sequence ps sq,
  in_step providers sequence ->
  build' logger modelSpecs providers sequence = inl (ps, sq) ->
  in_step ps sq.
Proof.
  induction modelSpecs as [|spec0 rest IH]; intros providers sequence ps sq Hin Hb.
  - simpl in Hb. injection Hb as <- <-. exact Hin.
  - simpl in Hb.
    destruct (decide (strings_TrimSpace spec0 = "")); [eauto|].
    destruct (split_colon (strings_TrimSpace spec0)) as [[ty model]|];
      [|discriminate].
    destruct (credentials os_Getenv ty) as [[apiKey baseURL]|];
      [|discriminate].
    destruct (NewProvider _ _ _ _ _) as [provider|]; [|discriminate].
    eapply IH; [|exact Hb].
    intros id. rewrite elem_of_app, list_elem_of_singleton, (Hin id).
    destruct (decide (strings_TrimSpace spec0 = id)) as [->|Hne].
    + rewrite lookup_insert_eq. split; [eauto | auto].
    + rewrite lookup_insert_ne by exact Hne.
      split; [intros [?|?]; [assumption | congruence] | auto].
Qed.

(** A selector that [NewEvalProvider] returns starts at the head of a
    non-empty rotation, and has a provider for every model in it. *)
Lemma NewEvalProvider_selector compareModels logger h sel st :
  NewEvalProvider slog_Default DefaultEncoding NewOpenAIProvider
    NewAnthropicProvider strings_TrimSpace os_Getenv compareModels logger h
    = inl (sel, st) ->
  sequence sel <> [] /\ covered sel /\ rr_index sel = 0.
Proof.
  unfold NewEvalProvider. intros H.
  destruct (decide (compareModels = "")); [discriminate|].
  destruct (len (split_comma compareModels) =? 0); [discriminate|].
  destruct (build _ _ _ _ _ _ _ _ _ _) as [[ps sq]|] eqn:Hb;
    [|discriminate].
  destruct (Z.of_nat (size ps) =? 0) eqn:Hsz; [discriminate|].
  injection H as <- <-. cbn [sequence providers rr_index].
  assert (Hin : in_step ps sq).
  { eapply build_in_step; [|exact Hb]. intros id.
    rewrite lookup_empty. split; [intros ?%elem_of_nil; contradiction|].
    intros [? ?]; discriminate. }
  split; [|split; [|reflexivity]].
  - intros ->. apply Z.eqb_neq in Hsz. apply Hsz.
    assert (ps = ∅) as ->; [|rewrite map_size_empty; reflexivity].
    apply map_empty. intros id.
    destruct (ps !! id) eqn:Hid; [|reflexivity].
    exfalso. eapply elem_of_nil, Hin. eauto.
  - intros id Hid. apply Hin, Hid.
Qed.

End Build.

End CompareFacts.

(** ** Rotation and balance *)

Module RotationFacts.
Import GoInt GoIntFacts Selector SelectorFacts Factory FactoryFacts Compare.

(** C2, as amended. On a selector as [NewEvalProvider] builds it (a
    non-empty rotation of [m] model ids, a provider for each, the counter
    at zero), the [k]-th call, for [1 <= k <= 2^63], returns without
    error the model at index [(k-1) mod m] of the rotation. If the model
    ids of the rotation are pairwise distinct, then after any such number
    of calls the selection counts of any two of its models differ by at
    most one. *)
Theorem round_robin_rotation {P} (rr : roundRobinSelector P) (k : nat) :
  sequence rr <> [] -> covered rr -> rr_index rr = 0 ->
  (1 <= k)%nat -> Z.of_nat k <= 2 ^ 63 ->
  exists ids rr',
    select_n k rr = Ret (ids, rr') /\
    length ids = k /\
    (exists id,
       sequence rr !! ((k - 1) mod length (sequence rr))%nat = Some id /\
       ids !! (k - 1)%nat = Some (Some id)) /\
    (NoDup (sequence rr) ->
     forall a b, a ∈ sequence rr -> b ∈ sequence rr ->
       (count_selected a ids <= count_selected b ids + 1)%nat).
Proof.
  intros Hne Hcov Hidx Hk Hbound.
  eexists _, _. split.
  { apply (select_n_from k rr 0%nat Hne Hcov); [rewrite Hidx; reflexivity|].
    simpl. exact Hbound. }
  split; [rewrite length_map, length_seq; reflexivity|].
  split.
  - destruct (nth_model_is_Some (sequence rr) (k - 1) Hne) as [id Hid].
    exists id. split; [exact Hid|].
    rewrite list_lookup_fmap, lookup_seq_lt by lia.
    simpl. rewrite Hid. reflexivity.
  - intros Hnd a b [i Hi]%list_elem_of_lookup_1 [i' Hi']%list_elem_of_lookup_1.
    rewrite (count_selected_hits _ _ i a Hnd Hi).
    rewrite (count_selected_hits _ _ i' b Hnd Hi').
    apply hits_balanced; eapply lookup_lt_Some; eassumption.
Qed.

Definition two_models : roundRobinSelector nat :=
  mkSelector (<["openai:gpt-4o-mini" := 1%nat]>
                (<["ollama:llama3" := 2%nat]> ∅))
             ["openai:gpt-4o-mini"; "ollama:llama3"] 0.

Lemma two_models_covered : covered two_models.
Proof.
  intros id Hid. unfold two_models in *; cbn [sequence providers] in *.
  apply elem_of_cons in Hid as [->|Hid]; [rewrite lookup_insert_eq; eauto|].
  apply list_elem_of_singleton in Hid as ->.
  rewrite lookup_insert_ne by discriminate.
  rewrite lookup_insert_eq; eauto.
Qed.

Lemma round_robin_rotation_witness :
  exists ids rr',
    select_n 3 two_models = Ret (ids, rr') /\
    ids !! 2%nat = Some (Some "openai:gpt-4o-mini") /\
    (count_selected "openai:gpt-4o-mini" ids
     <= count_selected "ollama:llama3" ids + 1)%nat.
Proof.
  destruct (round_robin_rotation two_models 3)
    as (ids & rr' & Hsel & _ & (id & Hid & Hk) & Hbal).
  - discriminate.
  - exact two_models_covered.
  - reflexivity.
  - lia.
  - lia.
  - exists ids, rr'. split; [exact Hsel|]. split.
    + simpl in Hid. injection Hid as <-. exact Hk.
    + apply Hbal.
      * apply NoDup_cons. split; [|apply NoDup_singleton].
        intros H%list_elem_of_singleton. discriminate H.
      * constructor.
      * do 2 constructor.
Defined.

(** The selector [NewEvalProvider] builds from a comparison string that
    names one model twice. *)
Definition repeated_model : string :=
  "openai:gpt-4o-mini,openai:gpt-4o-mini,ollama:llama3".

Definition repeated_selector
    : option (roundRobinSelector (llmProviderAdapter recording)) :=
  match NewEvalProvider tt "o200k_base" record_openai record_anthropic
          (fun s => s) (fun _ => "secret") repeated_model None ∅ with
  | inl (sel, _) => Some sel
  | inr _ => None
  end.

(** C2, as stated, fails: a configured rotation may name a model more than
    once, and then the selection counts drift apart. After six calls on
    the rotation built from [repeated_model] one model was selected four
    times and the other twice. *)
Lemma round_robin_balance_counterexample :
  exists sel ids rr',
    repeated_selector = Some sel /\
    sequence sel
      = ["openai:gpt-4o-mini"; "openai:gpt-4o-mini"; "ollama:llama3"] /\
    select_n 6 sel = Ret (ids, rr') /\
    count_selected "openai:gpt-4o-mini" ids = 4%nat /\
    count_selected "ollama:llama3" ids = 2%nat.
Proof.
  unfold repeated_selector.
  destruct (NewEvalProvider _ _ _ _ _ _ _ _ _) as [[sel st]|err] eqn:Hne;
    [|vm_compute in Hne; discriminate].
  exists sel.
  assert (Hseq : sequence sel
      = ["openai:gpt-4o-mini"; "openai:gpt-4o-mini"; "ollama:llama3"]).
  { apply (f_equal (fun r => match r with
                             | inl (s, _) => sequence s
                             | inr _ => []
                             end)) in Hne.
    vm_compute in Hne. symmetry. exact Hne. }
  destruct (CompareFacts.NewEvalProvider_selector _ _ _ _ _ _ _ _ _ _ _ Hne)
    as (Hnonempty & Hcov & Hidx).
  eexists _, _. split; [reflexivity|]. split; [exact Hseq|].
  split.
  { apply (select_n_from 6 sel 0%nat Hnonempty Hcov);
      [rewrite Hidx; reflexivity | simpl; lia]. }
  rewrite Hseq. split; reflexivity.
Qed.

End RotationFacts.

(** ** The metrics collector *)

Module CollectorFacts.
Import Metrics Collector.

Section Heap.
Context `{rt : GoRuntime}.

Lemma fresh_lookup (h : heap) : h !! fresh (dom h) = None.
Proof. apply not_elem_of_dom, is_fresh. Qed.

Lemma fresh_ne (h : heap) (l : loc) :
  is_Some (h !! l) -> l <> fresh (dom h).
Proof. intros [a Ha] ->. rewrite fresh_lookup in Ha. discriminate. Qed.

Lemma wf_slice_allocated h s : wf_slice h s -> is_Some (h !! ptr s).
Proof. intros (arr & Ha & _). eauto. Qed.

Lemma wf_slice_frame h h' s :
  h' !! ptr s = h !! ptr s -> wf_slice h s -> wf_slice h' s.
Proof. intros Heq (arr & Ha & Hl). exists arr. rewrite Heq. auto. Qed.

Lemma elems_frame h h' s :
  h' !! ptr s = h !! ptr s -> elems h' s = elems h s.
Proof. intros Heq. unfold elems, array. rewrite Heq. reflexivity. Qed.

Lemma length_elems h s : wf_slice h s -> length (elems h s) = slen s.
Proof.
  intros (arr & Ha & Hlen & Hle). unfold elems, array. rewrite Ha. simpl.
  rewrite length_take. lia.
Qed.

(** *** make *)

Lemma make_frame h len cap l :
  is_Some (h !! l) -> (make h len cap).1 !! l = h !! l.
Proof.
  intros Hl. unfold make; simpl.
  apply lookup_insert_ne. symmetry. apply fresh_ne, Hl.
Qed.

Lemma make_fresh h len cap : h !! ptr (make h len cap).2 = None.
Proof. apply fresh_lookup. Qed.

Lemma make_array h len cap :
  array (make h len cap).1 (make h len cap).2
    = replicate cap zeroCallMetrics.
Proof.
  unfold array, make; cbn [fst snd ptr]. rewrite lookup_insert_eq.
  reflexivity.
Qed.

Lemma make_wf h len cap :
  (len <= cap)%nat -> wf_slice (make h len cap).1 (make h len cap).2.
Proof.
  intros Hle. exists (replicate cap zeroCallMetrics).
  unfold make; simpl. rewrite lookup_insert_eq, length_replicate. auto.
Qed.

Lemma make_len h len cap : slen (make h len cap).2 = len.
Proof. reflexivity. Qed.

(** *** append *)

(** [append] shows the old elements followed by the new one. *)
Lemma append_elems h s x :
  wf_slice h s ->
  elems (append h s x).1 (append h s x).2 = elems h s ++ [x].
Proof.
  intros (arr & Ha & Hlen & Hle). unfold append.
  case_decide as Hcap; unfold elems, array; simpl.
  - rewrite lookup_insert_eq, Ha. simpl.
    rewrite (take_S_r _ _ x)
      by (apply list_lookup_insert_eq; lia).
    rewrite take_insert_ge by lia. reflexivity.
  - rewrite lookup_insert_eq, Ha. simpl.
    rewrite (cons_middle x), app_assoc.
    apply take_app_length'.
    rewrite length_app, length_take. simpl. lia.
Qed.

Lemma append_wf h s x :
  wf_slice h s -> wf_slice (append h s x).1 (append h s x).2.
Proof.
  intros (arr & Ha & Hlen & Hle). unfold append.
  case_decide as Hcap; simpl.
  - exists (<[slen s := x]> arr). unfold array.
    rewrite lookup_insert_eq, Ha. simpl. rewrite length_insert.
    repeat split; [assumption | lia].
  - eexists. rewrite lookup_insert_eq. split; [reflexivity|].
    pose proof (growcap_ge (scap s) (S (slen s))) as Hg.
    split; [|exact Hg].
    unfold elems, array. rewrite Ha. simpl.
    rewrite length_app, length_take. simpl. rewrite length_replicate. lia.
Qed.

(** [append] writes to the array of its slice or to a new one. *)
Lemma append_frame h s x l :
  l <> ptr s -> is_Some (h !! l) -> (append h s x).1 !! l = h !! l.
Proof.
  intros Hne Hl. unfold append. case_decide; simpl.
  - apply lookup_insert_ne. congruence.
  - apply lookup_insert_ne. symmetry. apply fresh_ne, Hl.
Qed.

Lemma append_ptr h s x l :
  l <> ptr s -> is_Some (h !! l) -> ptr (append h s x).2 <> l.
Proof.
  intros Hne Hl. unfold append. case_decide; simpl.
  - congruence.
  - intros Heq. eapply fresh_ne; [exact Hl | symmetry; exact Heq].
Qed.

(** *** The collector's methods *)

Lemma NewMetricsCollector_wf h : wf (NewMetricsCollector h).
Proof. apply (make_wf h 0 0). lia. Qed.

Lemma NewMetricsCollector_elems h :
  elems (hp (NewMetricsCollector h)) (metrics (NewMetricsCollector h)) = [].
Proof. reflexivity. Qed.

Lemma RecordCall_wf st m : wf st -> wf (RecordCall st m).
Proof.
  intros Hwf. unfold RecordCall, wf.
  pose proof (append_wf (hp st) (metrics st) m Hwf) as H.
  destruct (append (hp st) (metrics st) m). exact H.
Qed.

Lemma RecordCall_elems st m :
  wf st ->
  elems (hp (RecordCall st m)) (metrics (RecordCall st m))
    = elems (hp st) (metrics st) ++ [m].
Proof.
  intros Hwf. unfold RecordCall.
  pose proof (append_elems (hp st) (metrics st) m Hwf) as H.
  destruct (append (hp st) (metrics st) m). exact H.
Qed.

Lemma record_all_spec ms : forall st,
  wf st ->
  wf (record_all st ms) /\
  elems (hp (record_all st ms)) (metrics (record_all st ms))
    = elems (hp st) (metrics st) ++ ms.
Proof.
  induction ms as [|m ms IH]; intros st Hwf; simpl.
  - rewrite app_nil_r. auto.
  - destruct (IH (RecordCall st m) (RecordCall_wf st m Hwf)) as [Hw He].
    split; [exact Hw|].
    unfold record_all in *. simpl. rewrite He, RecordCall_elems by assumption.
    rewrite <- app_assoc. reflexivity.
Qed.

(** [GetMetrics] leaves the collector as it was and returns a slice on
    an array of its own that shows the recorded entries. *)
Lemma GetMetrics_spec st :
  wf st ->
  let '(st', r) := GetMetrics st in
  metrics st' = metrics st /\
  hp st' !! ptr (metrics st) = hp st !! ptr (metrics st) /\
  wf_slice (hp st') r /\
  ptr r <> ptr (metrics st) /\
  elems (hp st') r = elems (hp st) (metrics st).
Proof.
  intros Hwf. unfold GetMetrics.
  set (n := slen (metrics st)).
  pose proof (make_fresh (hp st) n n) as Hfresh.
  pose proof (make_array (hp st) n n) as Harr.
  pose proof (make_frame (hp st) n n _ (wf_slice_allocated _ _ Hwf))
    as Hframe.
  pose proof (make_len (hp st) n n) as Hlen.
  destruct (make (hp st) n n) as [h1 r] eqn:Hmake. simpl in *.
  assert (Hne : ptr r <> ptr (metrics st)).
  { intros Heq. rewrite Heq in Hfresh.
    destruct (wf_slice_allocated _ _ Hwf) as [a Ha]. congruence. }
  assert (Hsrc : elems h1 (metrics st) = elems (hp st) (metrics st))
    by (apply elems_frame, Hframe).
  assert (Hn : length (elems (hp st) (metrics st)) = n)
    by (apply length_elems, Hwf).
  assert (Hcopy : take (n `min` slen (metrics st)) (elems h1 (metrics st))
                  ++ drop (n `min` slen (metrics st)) (array h1 r)
                  = elems (hp st) (metrics st)).
  { fold n. rewrite Nat.min_id, Hsrc, Harr.
    rewrite take_ge by lia.
    rewrite drop_ge by (rewrite length_replicate; lia).
    apply app_nil_r. }
  unfold copy. rewrite Hlen, Hcopy.
  split; [reflexivity|]. split.
  { rewrite lookup_insert_ne by exact Hne. exact Hframe. }
  split.
  { exists (elems (hp st) (metrics st)).
    rewrite lookup_insert_eq. split; [reflexivity|].
    assert (scap r = n) as ->
      by (injection Hmake as _ <-; reflexivity).
    split; [exact Hn | lia]. }
  split; [exact Hne|].
  unfold elems at 1, array. rewrite lookup_insert_eq. simpl.
  rewrite Hlen. apply take_ge. lia.
Qed.

(** The loop of [GetMetricsByModel] collects the matching entries among
    those it visits, and leaves the collector's array alone. *)
Lemma by_model_loop_spec modelID mc : forall n i h result,
  wf_slice h mc -> wf_slice h result -> ptr result <> ptr mc ->
  (i + n <= slen mc)%nat ->
  let '(h', r') := by_model_loop modelID mc n i h result in
  h' !! ptr mc = h !! ptr mc /\
  wf_slice h' r' /\
  ptr r' <> ptr mc /\
  elems h' r' = elems h result
                ++ filter (fun m => ModelID m = modelID)
                          (take n (drop i (elems h mc))).
Proof.
  induction n as [|n IH]; intros i h result Hmc Hres Hne Hbound.
  - simpl. rewrite app_nil_r. auto.
  - cbn [by_model_loop].
    destruct (elems h mc !! i) as [m|] eqn:Hm.
    2:{ apply lookup_ge_None in Hm.
        rewrite (length_elems _ _ Hmc) in Hm. lia. }
    rewrite (drop_S _ _ _ Hm). cbn [take]. rewrite filter_cons.
    destruct (decide (ModelID m = modelID)) as [Heq|Hneq].
    + pose proof (append_wf h result m Hres) as Hw.
      pose proof (append_elems h result m Hres) as He.
      pose proof (append_frame h result m (ptr mc) ltac:(congruence)
                    (wf_slice_allocated _ _ Hmc)) as Hf.
      pose proof (append_ptr h result m (ptr mc) ltac:(congruence)
                    (wf_slice_allocated _ _ Hmc)) as Hp.
      destruct (append h result m) as [h1 r1]. simpl in *.
      specialize (IH (S i) h1 r1 (wf_slice_frame _ _ _ Hf Hmc) Hw Hp
                     ltac:(lia)).
      destruct (by_model_loop modelID mc n (S i) h1 r1) as [h' r'].
      destruct IH as (Hframe & Hw' & Hp' & He').
      split; [congruence|]. split; [exact Hw'|]. split; [exact Hp'|].
      rewrite He', He, (elems_frame _ _ _ Hf), <- app_assoc. reflexivity.
    + specialize (IH (S i) h result Hmc Hres Hne ltac:(lia)).
      destruct (by_model_loop modelID mc n (S i) h result) as [h' r'].
      exact IH.
Qed.

(** [GetMetricsByModel] leaves the collector as it was and returns a
    slice on an array of its own that shows the entries of the model, in
    stored order. *)
Lemma GetMetricsByModel_spec st modelID :
  wf st ->
  let '(st', r) := GetMetricsByModel st modelID in
  metrics st' = metrics st /\
  hp st' !! ptr (metrics st) = hp st !! ptr (metrics st) /\
  wf_slice (hp st') r /\
  ptr r <> ptr (metrics st) /\
  elems (hp st') r
    = filter (fun m => ModelID m = modelID) (elems (hp st) (metrics st)).
Proof.
  intros Hwf. unfold GetMetricsByModel.
  pose proof (make_fresh (hp st) 0 0) as Hfresh.
  pose proof (make_wf (hp st) 0 0 ltac:(lia)) as Hres.
  pose proof (make_frame (hp st) 0 0 _ (wf_slice_allocated _ _ Hwf))
    as Hframe.
  assert (He0 : elems (make (hp st) 0 0).1 (make (hp st) 0 0).2 = [])
    by reflexivity.
  destruct (make (hp st) 0 0) as [h1 r] eqn:Hmake. simpl in *.
  assert (Hne : ptr r <> ptr (metrics st)).
  { intros Heq. rewrite Heq in Hfresh.
    destruct (wf_slice_allocated _ _ Hwf) as [a Ha]. congruence. }
  pose proof (by_model_loop_spec modelID (metrics st)
                (slen (metrics st)) 0 h1 r
                (wf_slice_frame _ _ _ Hframe Hwf) Hres Hne ltac:(lia))
    as Hloop.
  destruct (by_model_loop modelID (metrics st) (slen (metrics st)) 0 h1 r)
    as [h2 r'].
  destruct Hloop as (Hf & Hw & Hp & He). simpl.
  split; [reflexivity|]. split; [congruence|].
  split; [exact Hw|]. split; [exact Hp|].
  rewrite He, He0, (elems_frame _ _ _ Hframe). simpl.
  rewrite drop_0, take_ge by (rewrite (length_elems _ _ Hwf); lia).
  reflexivity.
Qed.

Lemma Reset_spec st :
  wf (Reset st) /\ slen (metrics (Reset st)) = 0%nat /\
  elems (hp (Reset st)) (metrics (Reset st)) = [].
Proof.
  split; [apply (make_wf (hp st) 0 0); lia|]. split; reflexivity.
Qed.

(** *** What a caller does to a slice of its own *)

Lemma mutate_isolated h r mc mu :
  wf_slice h r -> wf_slice h mc -> ptr r <> ptr mc ->
  wf_slice (mutate (h, r) mu).1 (mutate (h, r) mu).2 /\
  (mutate (h, r) mu).1 !! ptr mc = h !! ptr mc /\
  ptr (mutate (h, r) mu).2 <> ptr mc.
Proof.
  intros Hr Hmc Hne. destruct mu as [i x|x|n]; cbn [mutate].
  - case_decide; simpl; [|auto].
    destruct Hr as (arr & Ha & Hlen & Hle).
    split; [|split; [apply lookup_insert_ne; exact Hne | exact Hne]].
    exists (<[i := x]> arr). unfold array.
    rewrite lookup_insert_eq, Ha. simpl. rewrite length_insert. auto.
  - split; [apply append_wf, Hr|].
    split; [apply append_frame; [congruence | eapply wf_slice_allocated, Hmc]|].
    apply append_ptr; [congruence | eapply wf_slice_allocated, Hmc].
  - case_decide; simpl; [|auto].
    destruct Hr as (arr & Ha & Hlen & Hle).
    split; [|auto]. exists arr. simpl. auto.
Qed.

(** Whatever a caller does to a slice on an array other than the
    collector's, the collector's array stays as it is. *)
Lemma mutates_isolated mc mus : forall h r,
  wf_slice h r -> wf_slice h mc -> ptr r <> ptr mc ->
  (mutates h r mus).1 !! ptr mc = h !! ptr mc.
Proof.
  unfold mutates.
  induction mus as [|mu mus IH]; intros h r Hr Hmc Hne; [reflexivity|].
  cbn [fold_left].
  destruct (mutate_isolated h r mc mu Hr Hmc Hne) as (Hr' & Hf & Hne').
  destruct (mutate (h, r) mu) as [h' r']. cbn [fst snd] in *.
  rewrite (IH h' r' Hr' (wf_slice_frame _ _ _ Hf Hmc) Hne'). exact Hf.
Qed.

End Heap.

End CollectorFacts.

(** ** Order and isolation of the collector *)

Module CollectorClaims.
Import Metrics Collector CollectorFacts.

(** C10. Take a new collector and record the entries [ms], in order.
    [GetMetrics] then shows exactly [ms], in that order, in a slice on an
    array of its own: whatever the caller does to the returned slice
    (assigning elements, appending, reslicing), the collector still
    stores [ms]. [GetMetricsByModel] shows exactly the stored entries of
    the given model, in stored order, and its result is isolated in the
    same way. After [Reset] the collector holds no entry. *)
Theorem collector_order_and_isolation `{rt : GoRuntime} (h0 : heap)
    (ms : list CallMetrics) (modelID : string) (mus : list mutation) :
  let st := record_all (NewMetricsCollector h0) ms in
  let '(st1, r1) := GetMetrics st in
  let '(st2, r2) := GetMetricsByModel st modelID in
  elems (hp st1) r1 = ms /\
  elems (mutates (hp st1) r1 mus).1 (metrics st1) = ms /\
  elems (hp st2) r2 = filter (fun m => ModelID m = modelID) ms /\
  elems (mutates (hp st2) r2 mus).1 (metrics st2) = ms /\
  slen (metrics (Reset st)) = 0%nat /\
  elems (hp (Reset st)) (metrics (Reset st)) = [].
Proof.
  intros st.
  destruct (record_all_spec ms (NewMetricsCollector h0)
              (NewMetricsCollector_wf h0)) as [Hwf Hms].
  rewrite NewMetricsCollector_elems in Hms. simpl in Hms. fold st in Hwf, Hms.
  pose proof (GetMetrics_spec st Hwf) as H1.
  pose proof (GetMetricsByModel_spec st modelID Hwf) as H2.
  destruct (GetMetrics st) as [st1 r1].
  destruct (GetMetricsByModel st modelID) as [st2 r2].
  destruct H1 as (Hm1 & Hf1 & Hw1 & Hp1 & He1).
  destruct H2 as (Hm2 & Hf2 & Hw2 & Hp2 & He2).
  split; [rewrite He1; exact Hms|]. split.
  { rewrite Hm1.
    rewrite (elems_frame (hp st) _ (metrics st)); [exact Hms|].
    rewrite mutates_isolated; try assumption.
    eapply wf_slice_frame; [exact Hf1 | exact Hwf]. }
  split; [rewrite He2, Hms; reflexivity|]. split.
  { rewrite Hm2.
    rewrite (elems_frame (hp st) _ (metrics st)); [exact Hms|].
    rewrite mutates_isolated; try assumption.
    eapply wf_slice_frame; [exact Hf2 | exact Hwf]. }
  split; reflexivity.
Qed.

End CollectorClaims.

(** ** The metrics decorator *)

Module EvalProviderFacts.
Import Metrics Collector CollectorFacts Selector EvalProvider.

Section Decorator.
Context `{rt : GoRuntime}.
Context {S P O W : Type}.
Context `{sel : !ProviderSelector S P W} `{prov : !LLMProvider P O W}
        `{optsI : !CompletionOptionsInterface O W} `{clk : !Clock W}.


End Decorator.

(** A selector of one model, a provider that answers after 12.5 ms with
    an error, options that hold a usage, and a clock that is the state. *)
Definition one_model : ProviderSelector unit unit Z :=
  fun _ w => Ret (Selected tt "openai:gpt-4o-mini", w).
Definition failing_provider : LLMProvider unit (Z * Z) Z :=
  fun _ _ _ w => Ret ("", Some "rate limit exceeded", w + 12500000).
Definition stored_usage : CompletionOptionsInterface (Z * Z) Z :=
  fun o w => Ret (o.1, o.2, w).
Definition state_clock : Clock Z := fun w => (w, w).

Definition empty_world : world Z := mkWorld 0 (NewMetricsCollector ∅).


End EvalProviderFacts.

(** ** The Anthropic provider's retry loop *)

Module AnthropicFacts.
Import GoInt GoIntFacts TokenUsage Anthropic.

(** The context is cancelled when [ctx.Err()] is found non-nil: at the
    top of the iteration, or after a failed call. *)
Definition cancelled (a : attempt) (msg : string) : Prop :=
  ctxErrAtStart a = Some msg \/
  (ctxErrAtStart a = None /\ (exists err, reply a = inr err) /\
   ctxErrAfter a = Some msg).

(** A failed call under a live context. *)
Definition failed (a : attempt) (err : call_error) : Prop :=
  ctxErrAtStart a = None /\ reply a = inr err /\ ctxErrAfter a = None.

Definition timed_out (a : attempt) : Prop := failed a DeadlineExceeded.

Definition rate_limited (a : attempt) : Prop :=
  exists err, failed a err /\ statusCode a = 429.

Definition server_error (a : attempt) : Prop :=
  exists err, failed a err /\ 500 <= statusCode a < 600.

(** A client error: a failure other than a timeout with a 4xx status
    other than 429. *)
Definition client_error (a : attempt) (err : call_error) : Prop :=
  failed a err /\ err <> DeadlineExceeded /\
  400 <= statusCode a < 500 /\ statusCode a <> 429.

(** The attempts after which the loop goes round again. *)
Definition retried (a : attempt) : Prop :=
  exists err, failed a err /\
    (err = DeadlineExceeded \/ statusCode a = 429 \/
     ~ (400 <= statusCode a < 500)).

Definition request_of (opts : CompletionOptions) : event :=
  Request (default 4096 (MaxTokens opts)) (Temperature opts).

Definition live (backoff : Z) : Prop := 0 < backoff <= maxBackoff.

Lemma sleep_and_double_live backoff :
  live backoff ->
  exists b', sleep_and_double backoff = ([Sleep backoff], b') /\ live b'.
Proof.
  intros [Hlo Hhi]. eexists. split; [reflexivity|].
  unfold live, minDuration, mul, maxBackoff, Second in *.
  rewrite wrap_id by (unfold in_range, min_int, max_int; lia). lia.
Qed.

Ltac split_tests :=
  repeat match goal with
  | |- context [?x =? ?y] => destruct (Z.eqb_spec x y)
  | |- context [?x >=? ?y] =>
      rewrite (Z.geb_leb x y); destruct (Z.leb_spec y x)
  | |- context [?x >? ?y] =>
      rewrite (Z.gtb_ltb x y); destruct (Z.ltb_spec y x)
  | |- context [?x <? ?y] => destruct (Z.ltb_spec x y)
  end; cbn [andb].

(** A retried attempt costs one request and one sleep of positive
    length, and leaves a backoff between zero and the maximum. *)
Lemma iteration_retried opts totalUsage backoff a :
  live backoff -> retried a ->
  exists d b',
    iteration opts totalUsage backoff a
      = ([request_of opts; Sleep d], Again b') /\
    0 < d /\ live b'.
Proof.
  intros Hlive (err & (Hs & Hr & Ha) & Hcase).
  destruct (sleep_and_double_live backoff Hlive) as (b' & Hsd & Hb').
  unfold iteration. rewrite Hs, Hr, Ha.
  destruct (decide (err = DeadlineExceeded)) as [->|Hne].
  { rewrite Hsd. exists backoff, b'. destruct Hlive. auto. }
  unfold handleRateLimit. split_tests; rewrite ?Hsd;
    try (exists backoff, b'; destruct Hlive; split; [reflexivity | auto]);
    try (exists (retryAfter a), backoff; split; [reflexivity | auto]);
    exfalso; destruct Hcase as [?|[?|?]]; try contradiction; lia.
Qed.

(** What an iteration that does not go round again found. *)
Lemma iteration_returned opts totalUsage backoff a evs r opts' :
  iteration opts totalUsage backoff a = (evs, Returned r opts') ->
  (exists message, ctxErrAtStart a = None /\ reply a = inl message /\
     r = inl (text_of (mContent message))) \/
  (opts' = opts /\
   ((exists msg, cancelled a msg /\ r = inr (ContextError msg)) \/
    (exists err, client_error a err /\
       r = inr (Unrecoverable (statusCode a) err)))).
Proof.
  unfold iteration, cancelled, client_error, failed.
  destruct (ctxErrAtStart a) as [msg|] eqn:Hs.
  { intros [= <- <- <-]. right. split; [reflexivity|]. left. eauto. }
  destruct (reply a) as [message|err] eqn:Hr.
  { intros [= <- <- <-]. left. eauto. }
  destruct (ctxErrAfter a) as [msg|] eqn:Ha.
  { intros [= <- <- <-]. right. split; [reflexivity|]. left.
    exists msg. split; [right; eauto | reflexivity]. }
  destruct (decide (err = DeadlineExceeded)) as [->|Hne].
  { destruct (sleep_and_double backoff). discriminate. }
  unfold handleRateLimit, sleep_and_double.
  split_tests; try discriminate;
    intros [= <- <- <-]; right; (split; [reflexivity|]); right;
    exists err; repeat split; auto; lia.
Qed.

Lemma iteration_again opts totalUsage backoff a evs b' :
  iteration opts totalUsage backoff a = (evs, Again b') -> retried a.
Proof.
  unfold iteration, retried, failed.
  destruct (ctxErrAtStart a) as [msg|] eqn:Hs; [discriminate|].
  destruct (reply a) as [message|err] eqn:Hr; [discriminate|].
  destruct (ctxErrAfter a) as [msg|] eqn:Ha; [discriminate|].
  intros H. exists err. split; [auto|].
  destruct (decide (err = DeadlineExceeded)) as [->|Hne]; [auto|].
  revert H. unfold handleRateLimit, sleep_and_double.
  split_tests; try discriminate; intros _; right; auto; right; lia.
Qed.

Lemma iteration_cancelled opts totalUsage backoff a msg :
  cancelled a msg ->
  exists evs, iteration opts totalUsage backoff a
              = (evs, Returned (inr (ContextError msg)) opts).
Proof.
  unfold iteration. intros [Hs|(Hs & (err & Hr) & Ha)].
  - rewrite Hs. eauto.
  - rewrite Hs, Hr, Ha. eauto.
Qed.

Lemma iteration_client_error opts totalUsage backoff a err :
  client_error a err ->
  iteration opts totalUsage backoff a
    = ([request_of opts],
       Returned (inr (Unrecoverable (statusCode a) err)) opts).
Proof.
  unfold iteration. intros ((Hs & Hr & Ha) & Hne & Hst & H429).
  rewrite Hs, Hr, Ha. rewrite decide_False by exact Hne.
  split_tests; try reflexivity; lia.
Qed.

(** Through retried attempts the loop keeps going, sleeping before each
    new attempt. *)
Lemma loop_retried opts totalUsage pre : forall backoff,
  live backoff -> Forall retried pre ->
  exists ds b',
    live b' /\ Forall (fun d => 0 < d) ds /\ length ds = length pre /\
    forall rest,
      loop opts totalUsage backoff (pre ++ rest)
        = (flat_map (fun d => [request_of opts; Sleep d]) ds
             ++ (loop opts totalUsage b' rest).1,
           (loop opts totalUsage b' rest).2).
Proof.
  induction pre as [|a pre IH]; intros backoff Hlive Hpre.
  - exists [], backoff. split; [exact Hlive|].
    split; [constructor|]. split; [reflexivity|].
    intros rest. simpl. destruct (loop opts totalUsage backoff rest);
      reflexivity.
  - apply Forall_cons in Hpre as [Ha Hpre].
    destruct (iteration_retried opts totalUsage backoff a Hlive Ha)
      as (d & b1 & Hit & Hd & Hb1).
    destruct (IH b1 Hb1 Hpre) as (ds & b' & Hb' & Hds & Hlen & Hloop).
    exists (d :: ds), b'. split; [exact Hb'|].
    split; [constructor; assumption|]. split; [simpl; congruence|].
    intros rest. cbn [app loop]. rewrite Hit, Hloop. reflexivity.
Qed.

(** A loop that returned did so at an attempt reached through retried
    ones. *)
Lemma loop_decompose opts totalUsage trace : forall backoff evs r opts',
  loop opts totalUsage backoff trace = (evs, Some (r, opts')) ->
  exists pre a rest evs1 evs2 b,
    trace = pre ++ a :: rest /\ Forall retried pre /\
    loop opts totalUsage backoff pre = (evs1, None) /\
    iteration opts totalUsage b a = (evs2, Returned r opts').
Proof.
  induction trace as [|a trace IH]; intros backoff evs r opts' H;
    [discriminate|].
  cbn [loop] in H.
  destruct (iteration opts totalUsage backoff a) as [evs0 [r0 o0|b0]] eqn:Hit.
  - injection H as <- <- <-.
    exists [], a, trace, [], evs0, backoff. repeat split; auto.
  - destruct (loop opts totalUsage b0 trace) as [evs' res] eqn:Hl.
    injection H as <- ->.
    destruct (IH b0 evs' r opts' Hl)
      as (pre & a' & rest & evs1 & evs2 & b & -> & Hpre & Hl1 & Hit').
    exists (a :: pre), a', rest, (evs0 ++ evs1), evs2, b.
    split; [reflexivity|].
    split; [constructor; [eapply iteration_again, Hit | exact Hpre]|].
    split; [|exact Hit'].
    cbn [loop]. rewrite Hit, Hl1. reflexivity.
Qed.

Lemma live_Second : live Second.
Proof. unfold live, maxBackoff, Second. lia. Qed.


End AnthropicFacts.

(** ** float64 *)

Module F64Facts.
Import F64.

Lemma digits2_pos_size (m : positive) : digits2_pos m = Pos.size m.
Proof. induction m; simpl; congruence. Qed.

(** A positive number of [d] binary digits lies in [[2^(d-1), 2^d)]. *)
Lemma digits_bounds (m : positive) :
  2 ^ (Zpos (digits2_pos m) - 1) <= Zpos m < 2 ^ Zpos (digits2_pos m).
Proof.
  rewrite digits2_pos_size.
  pose proof (Pos.size_gt m) as Hgt.
  pose proof (Pos.size_le m) as Hle.
  apply Pos2Z.pos_lt_pos in Hgt. apply Pos2Z.pos_le_pos in Hle.
  rewrite Pos2Z.inj_pow in Hgt, Hle.
  change (Z.pos m~0) with (2 * Z.pos m) in Hle.
  replace (Z.pos (Pos.size m)) with (Z.succ (Z.pos (Pos.size m) - 1)) in Hle
    by lia.
  rewrite Z.pow_succ_r in Hle by lia. lia.
Qed.

(** The floats Go can hold: canonical mantissa and exponent. *)
Definition valid (f : float64) : Prop := valid_binary prec emax f = true.

Lemma valid_finite_bounds s m e :
  valid (S754_finite s m e) ->
  Zpos m < 2 ^ 53 /\ -1074 <= e /\ (-1074 < e -> 2 ^ 52 <= Zpos m).
Proof.
  unfold valid, valid_binary, bounded, canonical_mantissa, fexp, emin,
    prec, emax.
  intros H. apply andb_true_iff in H as [H _]. apply Z.eqb_eq in H.
  pose proof (digits_bounds m) as Hd.
  set (d := Zpos (digits2_pos m)) in *.
  assert (Hd1 : 1 <= d) by (unfold d; lia).
  assert (Hcase : (d = 53 /\ -1074 <= e) \/ (d <= 53 /\ e = -1074)) by lia.
  destruct Hcase as [[Hd53 He]|[Hd53 He]].
  - rewrite Hd53 in Hd. change (53 - 1) with 52 in Hd. lia.
  - split; [|lia].
    eapply Z.lt_le_trans; [apply Hd|].
    apply Z.pow_le_mono_r; lia.
Qed.

(** The value [m * 2^e] of a positive finite float is at least one. *)
Definition at_least_one (m : positive) (e : Z) : Prop :=
  Z.shiftl 1 (- e) <= Zpos m.

Lemma leb_one_finite m e :
  valid (S754_finite false m e) ->
  leb (of_int 1) (S754_finite false m e) = true <-> at_least_one m e.
Proof.
  intros Hv. destruct (valid_finite_bounds _ _ _ Hv) as (Hm & He & Hn).
  change (of_int 1) with (S754_finite false 4503599627370496 (-52)).
  unfold leb, SFleb, SFcompare, at_least_one.
  destruct (Z.compare_spec (-52) e) as [<-|Hlt|Hgt].
  - change (Z.shiftl 1 (- -52)) with (2 ^ 52).
    change (PosDef.Pos.compare_cont Eq 4503599627370496 m)
      with (4503599627370496 ?= m)%positive.
    change (2 ^ 52) with (Zpos 4503599627370496).
    destruct (Pos.compare_spec 4503599627370496 m) as [H|H|H].
    + split; [intros _; lia | reflexivity].
    + split; [intros _; lia | reflexivity].
    + split; [intros Hd; discriminate Hd | intros Hc; exfalso].
      apply Pos2Z.pos_lt_pos in H. apply Z.lt_nge in H. apply H, Hc.
  - split; [intros _|reflexivity].
    specialize (Hn ltac:(lia)).
    destruct (Z.le_gt_cases 0 (- e)) as [Hnn|Hneg].
    + rewrite Z.shiftl_mul_pow2 by lia.
      assert (2 ^ (- e) <= 2 ^ 52) by (apply Z.pow_le_mono_r; lia). lia.
    + rewrite Z.shiftl_1_l, Z.pow_neg_r by lia. lia.
  - split; [discriminate|]. intros H. exfalso.
    rewrite Z.shiftl_mul_pow2 in H by lia.
    assert (2 ^ 53 <= 2 ^ (- e)) by (apply Z.pow_le_mono_r; lia). lia.
Qed.

End F64Facts.

(** ** The refinement ratio check of the command line *)

Module CliFacts.
Import F64 F64Facts Cli.
Local Existing Instances M_mbind M_mret.

(** A ratio below zero, at least one, or in between, by the value of the
    float ([-0.0] is zero; NaN is none of the three). *)
Definition below_zero (r : float64) : Prop :=
  match r with
  | S754_infinity true | S754_finite true _ _ => True
  | _ => False
  end.

Definition one_or_more (r : float64) : Prop :=
  match r with
  | S754_infinity false => True
  | S754_finite false m e => at_least_one m e
  | _ => False
  end.

Definition in_unit_interval (r : float64) : Prop :=
  match r with
  | S754_zero _ => True
  | S754_finite false m e => ~ at_least_one m e
  | _ => False
  end.

Lemma ratio_rejected_outside r :
  valid r -> below_zero r \/ one_or_more r -> ratio_rejected r = true.
Proof.
  intros Hv H. unfold ratio_rejected.
  destruct r as [s|[|]| |[|] m e]; simpl in H;
    try (destruct H as [[]|[]]; fail); try reflexivity.
  destruct H as [[]|H].
  apply (leb_one_finite m e Hv) in H. rewrite H. apply orb_true_r.
Qed.

Lemma ratio_rejected_inside r :
  valid r -> in_unit_interval r -> ratio_rejected r = false.
Proof.
  intros Hv H. unfold ratio_rejected.
  destruct r as [s|[|]| |[|] m e]; simpl in H; try contradiction;
    try reflexivity.
  destruct (leb (of_int 1) (S754_finite false m e)) eqn:Hl;
    [|reflexivity].
  exfalso. apply H, (leb_one_finite m e Hv), Hl.
Qed.

Definition ratio_error : string := "refinement ratio must be >= 0 and < 1".

Section Run.
Context {R Res : Type}.
Implicit Types (f : flags) (e : env R Res).

(** A computation that does not end in the ratio error. *)
Definition clean {A} (m : M A) : Prop := value m <> inr ratio_error.

Lemma clean_bind {A B} (m : M A) (k : A -> M B) :
  clean m -> (forall a, clean (k a)) -> clean (m ≫= k).
Proof.
  unfold clean, mbind, M_mbind, M_bind. intros Hm Hk.
  destruct (value m) as [a|err]; simpl; [apply Hk|].
  intros [= H]. apply Hm. rewrite H. reflexivity.
Qed.

Lemma clean_ret {A} (a : A) : clean (mret a : M A).
Proof. discriminate. Qed.

Lemma clean_log msg : clean (log msg).
Proof. discriminate. Qed.

Lemma clean_wrapping {A} (c : ascii) (prefix : string) (m : M A) :
  c <> "r"%char -> clean (wrapping (String c prefix) m).
Proof.
  unfold clean, wrapping. intros Hc. simpl.
  destruct (value m); [discriminate|].
  intros [= H]. apply Hc. exact H.
Qed.

Lemma clean_deferring {A} ev (m : M A) : clean m -> clean (deferring ev m).
Proof. exact (fun H => H). Qed.

Ltac clean_step :=
  first
    [ apply clean_ret
    | apply clean_log
    | apply clean_wrapping; discriminate
    | apply clean_bind; [|intros ?]
    | discriminate ].

Lemma run_validated_clean f e logOutput logLevel :
  ratio_rejected (refinementRatio f) = false ->
  clean (run_validated f e logOutput logLevel).
Proof.
  intros Hr. unfold run_validated. rewrite Hr.
  apply clean_bind; [destruct (at_file _); repeat clean_step|].
  intros userPrompt. apply clean_bind; [clean_step|]. intros ranker.
  apply clean_bind; [clean_step|]. intros [validPath isDir].
  apply clean_bind; [destruct isDir; repeat clean_step|].
  intros finalResults. apply clean_bind; [clean_step|].
  intros jsonResults.
  apply clean_bind; [destruct (dryRun f); clean_step|]. intros _.
  case_decide; repeat clean_step.
Qed.

Lemma run_validated_rejects f e logOutput logLevel :
  ratio_rejected (refinementRatio f) = true ->
  run_validated f e logOutput logLevel = fail ratio_error.
Proof. intros Hr. unfold run_validated. rewrite Hr. reflexivity. Qed.

(** C5. For every refinement ratio below zero or at least one, [run]
    returns an error and has made no call that constructs a ranker,
    reads an input or prompt file, or ranks (the ranker's methods are
    the only way to the LLM): all it may have done is validate, open
    and close the log file. For every ratio in [[0, 1)] the check
    passes: whatever [run] returns, it is not the ratio error. *)
Theorem run_checks_ratio f e :
  valid (refinementRatio f) ->
  (below_zero (refinementRatio f) \/ one_or_more (refinementRatio f) ->
     (exists err, value (run f e) = inr err) /\
     Forall (fun ev => touches_ranking ev = false) (calls (run f e))) /\
  (in_unit_interval (refinementRatio f) ->
     value (run f e) <> inr ratio_error).
Proof.
  intros Hv. split.
  - intros Hout. pose proof (ratio_rejected_outside _ Hv Hout) as Hr.
    unfold run. case_decide as Hlog.
    + rewrite run_validated_rejects by exact Hr.
      split; [eexists; reflexivity | constructor].
    + unfold mbind, M_mbind, M_bind, wrapping, call; simpl.
      destruct (validatePath e (logFile f)) as [validLogPath|err]; simpl;
        [|split; [eexists; reflexivity | repeat constructor]].
      destruct (os_OpenFile e validLogPath) as [[]|err]; simpl;
        [|split; [eexists; reflexivity | repeat constructor]].
      rewrite run_validated_rejects by exact Hr. simpl.
      split; [eexists; reflexivity | repeat constructor].
  - intros Hin. pose proof (ratio_rejected_inside _ Hv Hin) as Hr.
    change (clean (run f e)). unfold run. case_decide as Hlog.
    + apply run_validated_clean, Hr.
    + apply clean_bind; [clean_step|]. intros validLogPath.
      apply clean_bind; [clean_step|]. intros _.
      apply clean_deferring, run_validated_clean, Hr.
Qed.

End Run.

(** The flags of [siftrank -f docs.txt -p "rank" --ratio 1.5 --dry-run]
    and an environment in which every call succeeds. *)
Definition flags_with_ratio (ratio : float64) : flags :=
  mkFlags "docs.txt" false "" "*" "rank" "{{.Data}}" 10 50 50 128000 ratio
          "gpt-4o-mini" "" "o200k_base" "" "" false
          (S754_finite false 7205759403792794 (-57)) 5 5 "curvature"
          true false false "" false false "".

Definition obliging : env unit unit :=
  mkEnv (fun p => inl p) (fun _ => inl tt) (fun _ => inl "") (fun _ => "")
        (fun _ => inl tt) (fun p => inl (p, false)) (fun _ _ => inl [])
        (fun _ _ _ _ => inl tt) (fun _ _ _ _ => inl tt) (fun _ => inl "[]")
        (fun _ _ => inl tt).

(** 1.5 and 0.5 as floats. *)
Definition one_and_a_half : float64 := div (of_int 3) (of_int 2).
Definition one_half : float64 := div (of_int 1) (of_int 2).

Lemma run_checks_ratio_witness :
  valid one_and_a_half /\ one_or_more one_and_a_half /\
  run (flags_with_ratio one_and_a_half) obliging = fail ratio_error /\
  valid one_half /\ in_unit_interval one_half /\
  value (run (flags_with_ratio one_half) obliging) = inl tt.
Proof.
  assert (Hv : valid one_and_a_half) by reflexivity.
  assert (Ho : one_or_more one_and_a_half) by (vm_compute; discriminate).
  assert (Hv' : valid one_half) by reflexivity.
  assert (Hi : in_unit_interval one_half).
  { vm_compute. intros H. apply H. reflexivity. }
  destruct (run_checks_ratio (flags_with_ratio one_and_a_half) obliging Hv)
    as [Hrej _].
  destruct (Hrej (or_intror Ho)) as [[err Herr] _].
  destruct (run_checks_ratio (flags_with_ratio one_half) obliging Hv')
    as [_ Hpass].
  specialize (Hpass Hi).
  repeat split; try assumption; reflexivity.
Defined.

End CliFacts.

(** ** Rounding: magnitude of the results *)

Module F64Rounding.
Import F64 F64Facts.

Lemma shr_m_shr_1 mrs :
  0 <= shr_m mrs -> shr_m (shr_1 mrs) = shr_m mrs / 2.
Proof.
  destruct mrs as [m r s]. simpl. intros Hm.
  destruct m as [|[p|p|]|p]; simpl; try reflexivity; try lia.
  - rewrite Pos2Z.inj_xI.
    apply (Z.div_unique_pos _ 2 _ 1); lia.
  - rewrite Pos2Z.inj_xO.
    apply (Z.div_unique_pos _ 2 _ 0); lia.
Qed.

Ltac pow2_side :=
  first [ lia
        | apply Z.pow_pos_nonneg; lia
        | apply Z.pow_nonzero; lia
        | apply Z.lt_le_incl, Z.pow_pos_nonneg; lia ].

Lemma shr_m_iter_pos (p : positive) : forall mrs,
  0 <= shr_m mrs ->
  shr_m (SpecFloat.iter_pos shr_1 p mrs) = shr_m mrs / 2 ^ Zpos p.
Proof.
  assert (Hnn : forall m k, 0 <= m -> 0 <= m / 2 ^ Zpos k).
  { intros m k Hm. apply Z.div_pos; [exact Hm | apply Z.pow_pos_nonneg; lia]. }
  induction p as [p IH|p IH|]; intros mrs Hm; simpl.
  - assert (H1 : 0 <= shr_m (shr_1 mrs)).
    { rewrite shr_m_shr_1 by exact Hm. apply Z.div_pos; lia. }
    rewrite IH; rewrite IH; try assumption.
    2:{ apply Hnn, H1. }
    rewrite shr_m_shr_1 by exact Hm.
    rewrite !Z.div_div by pow2_side.
    f_equal. replace (Z.pos p~1) with (Z.pos p + Z.pos p + 1) by lia.
    rewrite !Z.pow_add_r, Z.pow_1_r by lia. ring.
  - rewrite IH; rewrite IH; try assumption.
    2:{ apply Hnn, Hm. }
    rewrite Z.div_div by pow2_side.
    f_equal. replace (Z.pos p~0) with (Z.pos p + Z.pos p) by lia.
    rewrite Z.pow_add_r by lia. reflexivity.
  - rewrite shr_m_shr_1 by exact Hm. reflexivity.
Qed.

Lemma shr_m_record_of_loc m l : shr_m (shr_record_of_loc m l) = m.
Proof. destruct l as [|[]]; reflexivity. Qed.

Lemma round_nearest_even_range mx lx :
  mx <= round_nearest_even mx lx <= mx + 1.
Proof.
  unfold round_nearest_even. destruct lx as [|[]]; try lia.
  destruct (Z.even mx); lia.
Qed.

Lemma Zdigits2_pos (p : positive) : Zdigits2 (Zpos p) = Zpos (digits2_pos p).
Proof. reflexivity. Qed.

(** A number in [[2^(d-1), 2^d)] has [d] digits. *)
Lemma digits_unique (p : positive) (d : Z) :
  2 ^ (d - 1) <= Zpos p < 2 ^ d -> Zpos (digits2_pos p) = d.
Proof.
  intros [Hlo Hhi]. pose proof (digits_bounds p) as [Hl Hh].
  set (d' := Zpos (digits2_pos p)) in *.
  assert (Hd' : 1 <= d') by (unfold d'; lia).
  destruct (Z.lt_trichotomy d' d) as [Hlt|[Heq|Hgt]]; [|exact Heq|].
  - exfalso.
    assert (2 ^ d' <= 2 ^ (d - 1)) by (apply Z.pow_le_mono_r; lia). lia.
  - exfalso.
    assert (0 <= d \/ d < 0) as [Hd|Hd] by lia.
    + assert (2 ^ d <= 2 ^ (d' - 1)) by (apply Z.pow_le_mono_r; lia). lia.
    + rewrite (Z.pow_neg_r 2 d) in Hhi by lia. lia.
Qed.

(** The first shift of [binary_round_aux] on a mantissa of at least 53
    digits, in the range of normal numbers: it leaves the 53 leading
    digits. *)
Lemma shr_fexp_normal (m : positive) (e : Z) (l : location) :
  let d := Zpos (digits2_pos m) in
  53 <= d -> -1021 <= d + e ->
  exists mrs,
    shr_fexp prec emax (Zpos m) e l = (mrs, e + (d - 53)) /\
    shr_m mrs = Zpos m / 2 ^ (d - 53) /\
    2 ^ 52 <= shr_m mrs < 2 ^ 53 /\
    (d = 53 -> loc_of_shr_record mrs = l).
Proof.
  intros d Hd Hn. unfold shr_fexp, fexp, emin, prec, emax.
  rewrite Zdigits2_pos. fold d.
  replace (Z.max (d + e - 53) (3 - 1024 - 53) - e) with (d - 53) by lia.
  pose proof (digits_bounds m) as [Hlo Hhi]. fold d in Hlo, Hhi.
  assert (Hq : 2 ^ 52 <= Zpos m / 2 ^ (d - 53) < 2 ^ 53).
  { assert (Hp : 0 < 2 ^ (d - 53)) by (apply Z.pow_pos_nonneg; lia).
    split.
    - apply Z.div_le_lower_bound; [exact Hp|].
      rewrite <- Z.pow_add_r by lia.
      replace (d - 53 + 52) with (d - 1) by lia. exact Hlo.
    - apply Z.div_lt_upper_bound; [exact Hp|].
      rewrite <- Z.pow_add_r by lia.
      replace (d - 53 + 53) with d by lia. exact Hhi. }
  destruct (d - 53) as [|n|n] eqn:Hdn; try lia.
  - exists (shr_record_of_loc (Zpos m) l). unfold shr.
    rewrite Z.add_0_r, shr_m_record_of_loc.
    split; [reflexivity|]. rewrite Z.pow_0_r, Z.div_1_r in *.
    split; [reflexivity|]. split; [exact Hq|].
    intros _. destruct l as [|[]]; reflexivity.
  - exists (SpecFloat.iter_pos shr_1 n (shr_record_of_loc (Zpos m) l)). unfold shr.
    split; [reflexivity|].
    rewrite shr_m_iter_pos by (rewrite shr_m_record_of_loc; lia).
    rewrite shr_m_record_of_loc.
    split; [reflexivity|]. split; [exact Hq | lia].
Qed.

(** [binary_round_aux] on a mantissa of at least 53 digits, away from
    underflow and overflow: the result is a normal number of the same
    sign, with the exponent of the leading digits or the next. *)
Lemma binary_round_aux_normal (s : bool) (m : positive) (e : Z)
    (l : location) :
  let d := Zpos (digits2_pos m) in
  53 <= d -> -1021 <= d + e -> d + e <= 1023 ->
  exists m' e',
    binary_round_aux prec emax s (Zpos m) e l = S754_finite s m' e' /\
    Zpos (digits2_pos m') = 53 /\
    (e' = d + e - 53 \/ e' = d + e - 52) /\
    (d = 53 -> l = loc_Exact -> m' = m /\ e' = e).
Proof.
  intros d Hd Hn Hx.
  destruct (shr_fexp_normal m e l Hd Hn) as (mrs & Hshr & Hm & Hq & Hl).
  fold d in Hshr, Hm, Hq, Hl.
  unfold binary_round_aux. rewrite Hshr.
  pose proof (round_nearest_even_range (shr_m mrs) (loc_of_shr_record mrs))
    as Hr.
  set (m1 := round_nearest_even (shr_m mrs) (loc_of_shr_record mrs)) in *.
  assert (Hm1 : 2 ^ 52 <= m1 <= 2 ^ 53) by lia.
  destruct m1 as [|p1|p1] eqn:Hp1; try lia.
  destruct (Z.eq_dec (Zpos p1) (2 ^ 53)) as [Hcarry|Hnocarry].
  - (* the rounding carried into a 54th digit *)
    assert (Hd1 : Zpos (digits2_pos p1) = 54).
    { apply digits_unique. rewrite Hcarry.
      change (54 - 1) with 53. split; [lia|].
      apply Z.pow_lt_mono_r; lia. }
    unfold shr_fexp, fexp, emin, prec, emax.
    rewrite Zdigits2_pos, Hd1.
    replace (Z.max (54 + (e + (d - 53)) - 53) (3 - 1024 - 53)
             - (e + (d - 53))) with 1 by lia.
    unfold shr. cbn [SpecFloat.iter_pos shr_record_of_loc].
    assert (Hp : p1 = 9007199254740992%positive).
    { apply Pos2Z.inj. rewrite Hcarry. reflexivity. }
    subst p1. cbn [shr_1 shr_m orb].
    replace (e + (d - 53) + 1 <=? 1024 - 53) with true
      by (symmetry; apply Z.leb_le; lia).
    eexists _, _. split; [reflexivity|].
    split; [reflexivity|]. split; [right; lia|].
    intros Hd53 ->. exfalso.
    unfold m1 in Hp1. rewrite (Hl Hd53) in Hp1.
    cbn [round_nearest_even] in Hp1.
    rewrite Hp1 in Hq. change (Z.pos 9007199254740992) with (2 ^ 53) in Hq.
    lia.
  - (* no carry *)
    assert (Hd1 : Zpos (digits2_pos p1) = 53).
    { apply digits_unique. change (53 - 1) with 52. lia. }
    unfold shr_fexp, fexp, emin, prec, emax.
    rewrite Zdigits2_pos, Hd1.
    replace (Z.max (53 + (e + (d - 53)) - 53) (3 - 1024 - 53)
             - (e + (d - 53))) with 0 by lia.
    unfold shr. cbn [shr_record_of_loc shr_m].
    replace (e + (d - 53) <=? 1024 - 53) with true
      by (symmetry; apply Z.leb_le; lia).
    exists p1, (e + (d - 53)). split; [reflexivity|].
    split; [exact Hd1|]. split; [left; lia|].
    intros Hd53 ->. split; [|lia].
    unfold m1 in Hp1. rewrite (Hl Hd53) in Hp1.
    cbn [round_nearest_even] in Hp1.
    rewrite Hm, Hd53 in Hp1. change (53 - 53) with 0 in Hp1.
    rewrite Z.pow_0_r, Z.div_1_r in Hp1. injection Hp1 as ->. reflexivity.
Qed.

End F64Rounding.

(** ** Conversions and products of normal numbers *)

Module F64Magnitude.
Import F64 F64Facts F64Rounding.

Lemma iter_xO_value (m d : positive) :
  Zpos (Pos.iter xO m d) = Zpos m * 2 ^ Zpos d.
Proof.
  induction d as [|d IH] using Pos.peano_ind.
  - simpl. lia.
  - rewrite Pos.iter_succ, Pos2Z.inj_succ, Z.pow_succ_r by lia.
    rewrite Pos2Z.inj_xO, IH. ring.
Qed.

(** A finite positive float with a full mantissa. *)
Definition normal_pos (f : float64) (m : positive) (e : Z) : Prop :=
  f = S754_finite false m e /\ Zpos (digits2_pos m) = 53.

(** [float64(k)] for a positive integer of [dk] digits: a normal number
    whose exponent puts the leading digit at [dk] or [dk + 1]. *)
Lemma of_int_pos (k : positive) :
  let dk := Zpos (digits2_pos k) in
  dk <= 1023 ->
  exists m e,
    normal_pos (of_int (Zpos k)) m e /\ (e = dk - 53 \/ e = dk - 52).
Proof.
  intros dk Hdk. unfold of_int, binary_normalize, binary_round, shl_align.
  unfold fexp, emin, prec, emax. fold dk.
  assert (H1 : 1 <= dk) by (unfold dk; lia).
  replace (Z.max (dk + 0 - 53) (3 - 1024 - 53) - 0) with (dk - 53) by lia.
  replace (Z.max (dk + 0 - 53) (3 - 1024 - 53)) with (dk - 53) by lia.
  destruct (dk - 53) as [|q|q] eqn:Hq.
  - destruct (binary_round_aux_normal false k 0 loc_Exact)
      as (m & e & Hr & Hd & He & _); fold dk; try lia.
    exists m, e. split; [split; assumption | lia].
  - destruct (binary_round_aux_normal false k 0 loc_Exact)
      as (m & e & Hr & Hd & He & _); fold dk; try lia.
    exists m, e. split; [split; assumption | lia].
  - assert (Hds : Zpos (digits2_pos (Pos.iter xO k q)) = 53).
    { apply digits_unique. rewrite iter_xO_value.
      pose proof (digits_bounds k) as [Hlo Hhi]. fold dk in Hlo, Hhi.
      assert (Hqv : Zpos q = 53 - dk) by lia. rewrite Hqv.
      assert (Hp : 0 < 2 ^ (53 - dk)) by (apply Z.pow_pos_nonneg; lia).
      split.
      - replace (53 - 1) with ((dk - 1) + (53 - dk)) by lia.
        rewrite Z.pow_add_r by lia.
        apply Z.mul_le_mono_nonneg_r; lia.
      - replace 53 with (dk + (53 - dk)) at 2 by lia.
        rewrite Z.pow_add_r by lia.
        apply Z.mul_lt_mono_pos_r; lia. }
    destruct (binary_round_aux_normal false (Pos.iter xO k q) (Zneg q)
                loc_Exact) as (m & e & Hr & Hd & He & _);
      rewrite ?Hds; try lia.
    exists m, e. split; [split; assumption | lia].
Qed.

Lemma pow2_lt_inv (a b : Z) : 0 <= b -> 2 ^ a < 2 ^ b -> a < b.
Proof.
  intros Hb H. destruct (Z.lt_ge_cases a b) as [Hlt|Hge]; [exact Hlt|].
  exfalso. assert (2 ^ b <= 2 ^ a) by (apply Z.pow_le_mono_r; lia). lia.
Qed.

(** The product of two full mantissas has 105 or 106 digits. *)
Lemma digits_mul (mx my : positive) :
  Zpos (digits2_pos mx) = 53 -> Zpos (digits2_pos my) = 53 ->
  105 <= Zpos (digits2_pos (mx * my)) <= 106.
Proof.
  intros Hx Hy.
  pose proof (digits_bounds mx) as [Hxl Hxh].
  pose proof (digits_bounds my) as [Hyl Hyh].
  pose proof (digits_bounds (mx * my)) as [Hl Hh].
  rewrite Hx in Hxl, Hxh. rewrite Hy in Hyl, Hyh.
  change (53 - 1) with 52 in *.
  set (d := Zpos (digits2_pos (mx * my))) in *.
  rewrite Pos2Z.inj_mul in Hl, Hh.
  assert (H52 : 0 < 2 ^ 52) by (apply Z.pow_pos_nonneg; lia).
  assert (Hlo : 2 ^ 104 <= Zpos mx * Zpos my).
  { change 104 with (52 + 52). rewrite Z.pow_add_r by lia.
    apply Z.mul_le_mono_nonneg; lia. }
  assert (Hhi : Zpos mx * Zpos my < 2 ^ 106).
  { change 106 with (53 + 53). rewrite Z.pow_add_r by lia.
    apply Z.mul_lt_mono_nonneg; lia. }
  assert (Hd1 : 1 <= d) by (unfold d; lia).
  assert (104 < d) by (apply pow2_lt_inv; lia).
  assert (d - 1 < 106) by (apply pow2_lt_inv; lia).
  lia.
Qed.

(** The product of two normal positive numbers, away from underflow and
    overflow, is a normal positive number. *)
Lemma mul_normal (x y : float64) mx ex my ey :
  normal_pos x mx ex -> normal_pos y my ey ->
  -1126 <= ex + ey -> ex + ey <= 917 ->
  exists m e,
    normal_pos (mul x y) m e /\ ex + ey + 52 <= e <= ex + ey + 54.
Proof.
  intros [-> Hx] [-> Hy] Hlo Hhi.
  pose proof (digits_mul mx my Hx Hy) as Hd.
  unfold mul, SFmul. cbn [xorb].
  destruct (binary_round_aux_normal false (mx * my) (ex + ey) loc_Exact)
    as (m & e & Hr & Hdm & He & _); try lia.
  exists m, e. split; [split; assumption | lia].
Qed.

(** [int(f)] of a normal positive number below [2^62]. *)
Lemma to_int_normal (f : float64) m e :
  normal_pos f m e -> e <= 9 ->
  to_int f = Z.shiftl (Zpos m) e /\ 0 <= to_int f < 2 ^ 62.
Proof.
  intros [-> Hd] He.
  pose proof (digits_bounds m) as [_ Hm]. rewrite Hd in Hm.
  assert (Hb : 0 <= Z.shiftl (Zpos m) e < 2 ^ 62).
  { split; [apply Z.shiftl_nonneg; lia|].
    destruct (Z.le_gt_cases 0 e) as [Hnn|Hneg].
    - rewrite Z.shiftl_mul_pow2 by lia.
      assert (Hp : 0 < 2 ^ e) by (apply Z.pow_pos_nonneg; lia).
      apply Z.lt_le_trans with (2 ^ 53 * 2 ^ e).
      + apply Z.mul_lt_mono_pos_r; lia.
      + rewrite <- Z.pow_add_r by lia. apply Z.pow_le_mono_r; lia.
    - rewrite Z.shiftl_div_pow2 by lia.
      assert (Hp : 0 < 2 ^ (- e)) by (apply Z.pow_pos_nonneg; lia).
      apply Z.le_lt_trans with (Zpos m).
      + apply Z.div_le_upper_bound; [exact Hp|]. nia.
      + apply Z.lt_le_trans with (2 ^ 53); [exact Hm|].
        apply Z.pow_le_mono_r; lia. }
  unfold to_int, trunc.
  replace (GoInt.in_rangeb (Z.shiftl (Zpos m) e)) with true; [auto|].
  symmetry. unfold GoInt.in_rangeb, GoInt.min_int, GoInt.max_int.
  assert (2 ^ 62 < 2 ^ 63) by (apply Z.pow_lt_mono_r; lia).
  apply andb_true_iff. split; apply Z.leb_le; lia.
Qed.

(** The percentile fractions the aggregator uses. *)
Definition fraction_of (p : Z) : float64 := div (of_int p) (of_int 100).

Lemma fraction_normal (p : Z) :
  p = 50 \/ p = 95 \/ p = 99 ->
  exists m, normal_pos (fraction_of p) m (-53).
Proof.
  intros [-> | [-> | ->]]; eexists; split; vm_compute; reflexivity.
Qed.

(** The rank [p/100 * (n-1)] of a percentile the aggregator asks for, on
    at most [2^60] samples, truncates to an index in [[0, 2^62)]. *)
Lemma rank_index (p k : Z) :
  p = 50 \/ p = 95 \/ p = 99 -> 1 <= k < 2 ^ 60 ->
  0 <= to_int (mul (fraction_of p) (of_int k)) < 2 ^ 62.
Proof.
  intros Hp [Hk1 Hk].
  destruct (fraction_normal p Hp) as (mc & Hc).
  destruct k as [|k|k]; try lia.
  pose proof (digits_bounds k) as [Hkl _].
  set (dk := Zpos (digits2_pos k)) in *.
  assert (Hdk : dk <= 60).
  { assert (dk - 1 < 60) by (apply pow2_lt_inv; lia). lia. }
  assert (Hdk1 : 1 <= dk) by (unfold dk; lia).
  destruct (of_int_pos k ltac:(fold dk; lia)) as (mk & ek & Hkn & Hek).
  fold dk in Hek.
  destruct (mul_normal _ _ _ _ _ _ Hc Hkn ltac:(lia) ltac:(lia))
    as (m & e & Hn & He).
  apply (to_int_normal _ m e Hn). lia.
Qed.

End F64Magnitude.

(** ** The aggregator *)

Module AggregatorFacts.
Import Metrics Aggregator GoInt GoIntFacts F64Magnitude.

Definition sum (l : list Z) : Z := foldr Z.add 0 l.

(** The number of successful and of failed calls. *)
Definition successes (metrics : list CallMetrics) : Z :=
  len (filter (fun m => Success m = true) metrics).
Definition failures (metrics : list CallMetrics) : Z :=
  len (filter (fun m => Success m = false) metrics).

(** The tokens one call counts for: input plus output, the input taken
    from [PromptTokens] when [InputTokens] is 0 and [PromptTokens] is
    positive. *)
Definition tokens_of (m : CallMetrics) : Z :=
  (if (InputTokens m =? 0) && (PromptTokens m >? 0)
   then PromptTokens m else InputTokens m) + OutputTokens m.

(** Linear interpolation on an ascending list at index [p/100 * (n-1)],
    evaluated in float64 and truncated to an integer; [diff] is the
    subtraction used for the gap between the two neighbours. *)
Definition interpolate_with (diff : Z -> Z -> Z) (sorted : list Z) (p : Z)
    : Z :=
  let n := len sorted in
  let at_ i := nth (Z.to_nat i) sorted 0 in
  let rank := F64.mul (fraction_of p) (F64.of_int (n - 1)) in
  let lower := F64.to_int rank in
  if n =? 1 then at_ 0
  else if lower + 1 >=? n then at_ (n - 1)
  else
    F64.to_int
      (F64.add (F64.of_int (at_ lower))
         (F64.mul (F64.sub rank (F64.of_int lower))
            (F64.of_int (diff (at_ (lower + 1)) (at_ lower))))).

(** The percentile as the specification words it: the gap is the
    difference of the two samples. *)
Definition interpolate : list Z -> Z -> Z := interpolate_with Z.sub.

(** What [AggregateMetrics] returns on a non-empty list. *)
Definition summary (metrics : list CallMetrics) : ModelStats :=
  let lats := sort_int64 (map LatencyMs metrics) in
  let n := len metrics in
  mkModelStats
    (ModelID (List.hd zeroCallMetrics metrics))
    n
    (F64.div (F64.of_int (successes metrics)) (F64.of_int n))
    (failures metrics)
    (GoInt.quot (wrap (sum (map LatencyMs metrics))) n)
    (interpolate_with GoInt.sub lats 50)
    (interpolate_with GoInt.sub lats 95)
    (interpolate_with GoInt.sub lats 99)
    (wrap (sum (map tokens_of metrics))).

Lemma sum_app (l k : list Z) : sum (l ++ k) = sum l + sum k.
Proof.
  unfold sum. induction l as [|x l IH]; simpl; [reflexivity|].
  rewrite IH. lia.
Qed.

Lemma sort_int64_perm (l : list Z) : sort_int64 l ≡ₚ l.
Proof. apply merge_sort_Permutation. Qed.

Lemma sort_int64_sorted (l : list Z) : Sorted Z.le (sort_int64 l).
Proof. apply Sorted_merge_sort. apply _. Qed.

Lemma sort_int64_len (l : list Z) : len (sort_int64 l) = len l.
Proof.
  unfold len. f_equal. apply Permutation_length, sort_int64_perm.
Qed.

(** An ascending arrangement of the samples is the one the code sorts
    them into. *)
Lemma sort_int64_unique (l sorted : list Z) :
  Sorted Z.le sorted -> sorted ≡ₚ l -> sort_int64 l = sorted.
Proof.
  intros Hs Hp. apply (Sorted_unique Z.le).
  - apply sort_int64_sorted.
  - exact Hs.
  - rewrite sort_int64_perm, Hp. reflexivity.
Qed.

Lemma index_nth (l : list Z) (i : Z) :
  0 <= i < len l -> index l i = Ret (nth (Z.to_nat i) l 0).
Proof.
  intros [H0 Hi]. unfold index.
  replace (0 <=? i) with true by (symmetry; apply Z.leb_le; lia).
  replace (i <? len l) with true by (symmetry; apply Z.ltb_lt; lia).
  simpl. destruct (l !! Z.to_nat i) as [a|] eqn:Hl.
  - f_equal. symmetry. apply nth_lookup_Some with (d := 0) in Hl.
    exact Hl.
  - apply lookup_ge_None in Hl. unfold len in Hi. lia.
Qed.

(** [percentile] on the percentiles the aggregator asks for: the
    interpolation on the sorted samples, with no index out of range. *)
Lemma percentile_value (values : list Z) (p : Z) :
  values <> [] -> len values < 2 ^ 60 ->
  p = 50 \/ p = 95 \/ p = 99 ->
  percentile values p = Ret (interpolate_with GoInt.sub (sort_int64 values) p).
Proof.
  intros Hne Hlen Hp.
  assert (Hpos : 1 <= len values).
  { destruct values; [congruence|]. unfold len. simpl. lia. }
  assert (H60 : 2 ^ 60 = 1152921504606846976) by reflexivity.
  assert (H62 : 2 ^ 62 = 4611686018427387904) by reflexivity.
  unfold percentile, interpolate_with.
  rewrite sort_int64_len.
  set (sorted := sort_int64 values).
  assert (Hsl : len sorted = len values) by apply sort_int64_len.
  destruct (len values =? 0) eqn:H0; [apply Z.eqb_eq in H0; lia|].
  destruct (len values =? 1) eqn:H1.
  { apply index_nth. lia. }
  apply Z.eqb_neq in H1.
  assert (Hsub : GoInt.sub (len values) 1 = len values - 1)
    by (apply wrap_id; unfold in_range, min_int, max_int; lia).
  rewrite Hsub. fold (fraction_of p).
  pose proof (rank_index p (len values - 1) Hp ltac:(lia)) as Hr.
  set (lower := F64.to_int (F64.mul (fraction_of p)
                              (F64.of_int (len values - 1)))) in *.
  assert (Hadd : GoInt.add lower 1 = lower + 1)
    by (apply wrap_id; unfold in_range, min_int, max_int; lia).
  rewrite Hadd.
  destruct (lower + 1 >=? len values) eqn:Hu.
  { apply index_nth. lia. }
  assert (Hlt : lower + 1 < len values).
  { rewrite Z.geb_leb in Hu. apply Z.leb_gt in Hu. exact Hu. }
  rewrite (index_nth sorted lower) by lia. rewrite bind_Ret.
  rewrite (index_nth sorted (lower + 1)) by lia. rewrite bind_Ret.
  reflexivity.
Qed.

(** With samples in [[0, 2^63)] the gap between two of them does not
    wrap. *)
Lemma interpolate_nonneg (sorted : list Z) (p : Z) :
  Forall (fun x => 0 <= x <= max_int) sorted ->
  interpolate_with GoInt.sub sorted p = interpolate sorted p.
Proof.
  intros Hall. unfold interpolate, interpolate_with.
  assert (Hnth : forall i, 0 <= nth i sorted 0 <= max_int).
  { intros i. destruct (nth_in_or_default i sorted 0) as [Hin | ->].
    - rewrite Forall_forall in Hall. apply Hall.
      apply list_elem_of_In. exact Hin.
    - unfold max_int. lia. }
  destruct (len sorted =? 1); [reflexivity|].
  destruct (_ >=? _); [reflexivity|].
  do 4 f_equal. apply wrap_id.
  pose proof (Hnth (Z.to_nat (F64.to_int
    (F64.mul (fraction_of p) (F64.of_int (len sorted - 1))) + 1))).
  pose proof (Hnth (Z.to_nat (F64.to_int
    (F64.mul (fraction_of p) (F64.of_int (len sorted - 1)))))).
  unfold in_range, min_int, max_int in *. lia.
Qed.

(** The loop of [AggregateMetrics], from its initial state. *)
Lemma fold_step (metrics : list CallMetrics) :
  fold_left step metrics acc0 =
  mkAcc (wrap (successes metrics)) (wrap (failures metrics))
        (wrap (sum (map LatencyMs metrics)))
        (wrap (sum (map tokens_of metrics)))
        (map LatencyMs metrics).
Proof.
  induction metrics as [|m ms IH] using rev_ind; [reflexivity|].
  rewrite fold_left_app, IH. cbn [fold_left]. unfold step.
  cbn [successCount errorCount totalLatency totalTokens latencies].
  unfold successes, failures.
  rewrite !filter_app, !len_app, !map_app, !sum_app.
  cbn [map].
  set (input := if (InputTokens m =? 0) && (PromptTokens m >? 0)
                then PromptTokens m else InputTokens m).
  unfold GoInt.add. rewrite wrap_add_r, !wrap_add_l.
  assert (Hs : sum [LatencyMs m] = LatencyMs m) by (unfold sum; simpl; lia).
  assert (Ht : sum [tokens_of m] = input + OutputTokens m)
    by (unfold sum, tokens_of, input; simpl; lia).
  rewrite Hs, Ht.
  destruct (Success m) eqn:Hsucc.
  - rewrite (filter_cons_True (fun m => Success m = true)) by exact Hsucc.
    rewrite (filter_cons_False (fun m => Success m = false)) by congruence.
    rewrite !filter_nil. change (len [m]) with 1.
    change (len (@nil CallMetrics)) with 0.
    rewrite Z.add_0_r, Z.add_assoc. reflexivity.
  - rewrite (filter_cons_False (fun m => Success m = true)) by congruence.
    rewrite (filter_cons_True (fun m => Success m = false)) by exact Hsucc.
    rewrite !filter_nil. change (len [m]) with 1.
    change (len (@nil CallMetrics)) with 0.
    rewrite Z.add_0_r, Z.add_assoc. reflexivity.
Qed.

Lemma successes_range (metrics : list CallMetrics) :
  0 <= successes metrics <= len metrics.
Proof.
  unfold successes, len.
  pose proof (length_filter (fun m => Success m = true) metrics). lia.
Qed.

Lemma failures_range (metrics : list CallMetrics) :
  0 <= failures metrics <= len metrics.
Proof.
  unfold failures, len.
  pose proof (length_filter (fun m => Success m = false) metrics). lia.
Qed.

Lemma successes_failures (metrics : list CallMetrics) :
  successes metrics + failures metrics = len metrics.
Proof.
  unfold successes, failures, len.
  induction metrics as [|m ms IH]; [reflexivity|].
  destruct (Success m) eqn:Hs.
  - rewrite (filter_cons_True (fun m => Success m = true)) by exact Hs.
    rewrite (filter_cons_False (fun m => Success m = false)) by congruence.
    simpl length. lia.
  - rewrite (filter_cons_False (fun m => Success m = true)) by congruence.
    rewrite (filter_cons_True (fun m => Success m = false)) by exact Hs.
    simpl length. lia.
Qed.

(** [AggregateMetrics] on a non-empty list returns, and returns
    [summary]. *)
Lemma AggregateMetrics_value (metrics : list CallMetrics) :
  metrics <> [] -> len metrics < 2 ^ 60 ->
  AggregateMetrics metrics = Ret (summary metrics).
Proof.
  intros Hne Hlen.
  assert (H60 : 2 ^ 60 = 1152921504606846976) by reflexivity.
  destruct metrics as [|m0 ms] eqn:Hm; [congruence|].
  rewrite <- Hm in *. unfold AggregateMetrics. rewrite Hm at 1.
  rewrite fold_step.
  cbn [successCount errorCount totalLatency totalTokens latencies].
  assert (Hpos : 1 <= len metrics)
    by (rewrite Hm; unfold len; simpl; lia).
  destruct (len metrics =? 0) eqn:H0; [apply Z.eqb_eq in H0; lia|].
  assert (Hll : len (map LatencyMs metrics) = len metrics)
    by (unfold len; rewrite length_map; reflexivity).
  assert (Hln : map LatencyMs metrics <> [])
    by (rewrite Hm; simpl; congruence).
  rewrite !percentile_value by (rewrite ?Hll; auto).
  rewrite !bind_Ret.
  pose proof (successes_range metrics).
  pose proof (failures_range metrics).
  rewrite (wrap_id (successes metrics))
    by (unfold in_range, min_int, max_int; lia).
  rewrite (wrap_id (failures metrics))
    by (unfold in_range, min_int, max_int; lia).
  unfold summary. rewrite Hm. reflexivity.
Qed.

Lemma quot_range (x n : Z) :
  in_range x -> 1 <= n -> in_range (Z.quot x n).
Proof.
  unfold in_range, min_int, max_int. intros Hx Hn.
  destruct (Z.le_gt_cases 0 x) as [Hnn|Hneg].
  - pose proof (Z.quot_pos x n Hnn ltac:(lia)).
    assert (Z.quot x n <= x); [|lia].
    rewrite Z.quot_div_nonneg by lia.
    apply Z.div_le_upper_bound; [lia|]. nia.
  - assert (Hq : Z.quot x n = - Z.quot (- x) n)
      by (rewrite Z.quot_opp_l by lia; lia).
    pose proof (Z.quot_pos (- x) n ltac:(lia) ltac:(lia)).
    assert (Z.quot (- x) n <= - x); [|lia].
    rewrite Z.quot_div_nonneg by lia.
    apply Z.div_le_upper_bound; [lia|]. nia.
Qed.

End AggregatorFacts.

(** ** Grouping by model *)

Module GroupingFacts.
Import Metrics Aggregator GoInt GoIntFacts AggregatorFacts.

(** The calls of one model, in the order they were made. *)
Definition calls_of (modelID : string) (metrics : list CallMetrics)
    : list CallMetrics :=
  filter (fun m => ModelID m = modelID) metrics.

(** The entry [AggregateByModel] computes for one group. *)
Definition group_summary (g : string * list CallMetrics) : ModelStats :=
  with_ModelID g.1 (summary g.2).

Lemma group_by_model_snoc (metrics : list CallMetrics) (m : CallMetrics) :
  group_by_model (metrics ++ [m]) = group_step (group_by_model metrics) m.
Proof. unfold group_by_model. rewrite fold_left_app. reflexivity. Qed.

(** A model has a group exactly when it has calls, and the group is its
    calls in order. *)
Lemma group_by_model_lookup (metrics : list CallMetrics) (modelID : string) :
  group_by_model metrics !! modelID =
  match calls_of modelID metrics with
  | [] => None
  | _ :: _ => Some (calls_of modelID metrics)
  end.
Proof.
  induction metrics as [|m ms IH] using rev_ind.
  - unfold group_by_model. simpl. apply lookup_empty.
  - rewrite group_by_model_snoc. unfold group_step, calls_of in *.
    rewrite filter_app.
    destruct (decide (ModelID m = modelID)) as [Heq|Hne].
    + subst modelID. rewrite lookup_insert_eq, IH.
      rewrite (filter_cons_True _ m []) by reflexivity.
      rewrite filter_nil.
      destruct (filter _ ms) as [|a l]; reflexivity.
    + rewrite lookup_insert_ne by exact Hne. rewrite IH.
      rewrite (filter_cons_False _ m []) by exact Hne.
      rewrite filter_nil, app_nil_r. reflexivity.
Qed.

Lemma group_by_model_Some (metrics g : list CallMetrics) (modelID : string) :
  group_by_model metrics !! modelID = Some g ->
  g = calls_of modelID metrics /\ g <> [].
Proof.
  rewrite group_by_model_lookup.
  destruct (calls_of modelID metrics) as [|a l]; [discriminate|].
  intros [= <-]. split; [reflexivity | discriminate].
Qed.

Lemma calls_of_len (metrics : list CallMetrics) (modelID : string) :
  len (calls_of modelID metrics) <= len metrics.
Proof.
  unfold calls_of, len.
  pose proof (length_filter (fun m => ModelID m = modelID) metrics). lia.
Qed.

Lemma aggregate_groups_value (groups : list (string * list CallMetrics)) :
  Forall (fun g => g.2 <> [] /\ len g.2 < 2 ^ 60) groups ->
  aggregate_groups groups = Ret (map group_summary groups).
Proof.
  induction 1 as [|[modelID g] groups [Hne Hlen] _ IH]; [reflexivity|].
  cbn [aggregate_groups]. simpl in Hne, Hlen.
  rewrite (AggregateMetrics_value g Hne Hlen), bind_Ret.
  rewrite IH, bind_Ret. reflexivity.
Qed.

Lemma groups_fit (metrics : list CallMetrics) :
  len metrics < 2 ^ 60 ->
  Forall (fun g => g.2 <> [] /\ len g.2 < 2 ^ 60)
         (map_to_list (group_by_model metrics)).
Proof.
  intros Hlen. apply Forall_forall. intros [modelID g] Hin.
  apply elem_of_map_to_list in Hin.
  apply group_by_model_Some in Hin as [-> Hne]. simpl.
  split; [exact Hne|]. pose proof (calls_of_len metrics modelID). lia.
Qed.

(** [AggregateByModel] returns: one entry per group, sorted by model
    id. *)
Lemma AggregateByModel_value (metrics : list CallMetrics) :
  len metrics < 2 ^ 60 ->
  AggregateByModel metrics =
  Ret (merge_sort stats_le
         (map group_summary (map_to_list (group_by_model metrics)))).
Proof.
  intros Hlen. unfold AggregateByModel.
  rewrite (aggregate_groups_value _ (groups_fit metrics Hlen)), bind_Ret.
  reflexivity.
Qed.

End GroupingFacts.

(** ** The aggregator's claims *)

Module AggregatorClaims.
Import Metrics Aggregator GoInt GoIntFacts AggregatorFacts GroupingFacts.

Definition call (modelID : string) (latency input output : Z) (ok : bool)
    : CallMetrics :=
  mkCallMetrics modelID latency input output 0 ok "" 0.

Definition three_calls : list CallMetrics :=
  [call "openai:gpt-4o-mini" 300 10 5 true;
   call "openai:gpt-4o-mini" 100 20 5 false;
   call "openai:gpt-4o-mini" 200 30 5 true].

(** Two calls whose latencies add up to [2^63]. *)
Definition long_calls : list CallMetrics :=
  [call "openai:gpt-4o-mini" (2 ^ 62) 0 0 true;
   call "openai:gpt-4o-mini" (2 ^ 62) 0 0 true].

(** C9: [AggregateMetrics] and [AggregateByModel] return on every slice
    of call metrics, the empty one included, and so never panic. A slice
    holds fewer than [2^60] call metrics (one of them takes 96 bytes).
    The panic of [percentile] on an empty slice is out of reach:
    [AggregateMetrics] returns the zero [ModelStats] on the empty slice,
    the latencies it hands to [percentile] are as many as its input, and
    every group [AggregateByModel] forms has at least one call. *)
Theorem aggregation_returns (metrics : list CallMetrics) :
  len metrics < 2 ^ 60 ->
  returns (AggregateMetrics metrics) /\
  returns (AggregateByModel metrics) /\
  AggregateMetrics [] = Ret zeroModelStats /\
  len (latencies (fold_left step metrics acc0)) = len metrics /\
  (metrics <> [] ->
   forall p, p = 50 \/ p = 95 \/ p = 99 ->
     returns (percentile (latencies (fold_left step metrics acc0)) p)) /\
  (forall modelID g,
     group_by_model metrics !! modelID = Some g -> g <> []).
Proof.
  intros Hlen.
  assert (Hl : len (latencies (fold_left step metrics acc0)) = len metrics).
  { rewrite fold_step. cbn [latencies]. unfold len.
    rewrite length_map. reflexivity. }
  repeat split.
  - destruct metrics as [|m ms] eqn:Hm.
    + exists zeroModelStats. reflexivity.
    + rewrite <- Hm in *. exists (summary metrics).
      apply AggregateMetrics_value; [rewrite Hm; discriminate | exact Hlen].
  - eexists. apply AggregateByModel_value. exact Hlen.
  - exact Hl.
  - intros Hne p Hp. eexists. apply percentile_value.
    + rewrite fold_step. cbn [latencies].
      destruct metrics; [congruence | discriminate].
    + rewrite Hl. exact Hlen.
    + exact Hp.
  - intros modelID g Hg. apply group_by_model_Some in Hg as [_ Hne].
    exact Hne.
Qed.

Lemma aggregation_returns_witness :
  len three_calls < 2 ^ 60 /\
  returns (AggregateMetrics three_calls) /\
  returns (AggregateByModel three_calls).
Proof.
  assert (Hlen : len three_calls < 2 ^ 60) by reflexivity.
  destruct (aggregation_returns three_calls Hlen) as (Hm & Hb & _).
  split; [exact Hlen|]. split; [exact Hm | exact Hb].
Defined.




End AggregatorClaims.

(** ** The ranking engine, one trial *)

Module EngineFacts.
Import Engine.

(** One update of the ledger: position [i] (from 0) of a ranking holds
    key [k]. *)
Definition update (trial : Z) (ik : nat * string) (l : ledger) : ledger :=
  alter (bump trial (Z.of_nat (S ik.1))) ik.2 l.

Lemma apply_ranking_updates (trial : Z) (ranking : list string) (l : ledger) :
  apply_ranking trial ranking l = foldr (update trial) l (imap pair ranking).
Proof.
  unfold apply_ranking. generalize (imap pair ranking).
  induction l0 as [|[i k] ops IH]; simpl; [reflexivity|].
  rewrite IH. reflexivity.
Qed.

Lemma bump_comm (trial i j : Z) (e : entry) :
  bump trial i (bump trial j e) = bump trial j (bump trial i e).
Proof. unfold bump. simpl. f_equal; lia. Qed.

(** Two updates of one trial commute: on different keys they touch
    different entries, on the same key the sums commute. *)
Lemma update_comm (trial : Z) (a b : nat * string) (l : ledger) :
  update trial a (update trial b l) = update trial b (update trial a l).
Proof.
  unfold update, ledger in *. apply map_eq. intros k.
  rewrite !lookup_alter.
  destruct (decide (a.2 = k)) as [Ha|Ha], (decide (b.2 = k)) as [Hb|Hb];
    rewrite ?lookup_alter.
  - subst k. rewrite Hb.
    destruct (decide (a.2 = a.2)) as [_|Hn]; [|congruence].
    destruct (l !! a.2) as [e|]; simpl; [|reflexivity].
    f_equal. apply bump_comm.
  - destruct (decide (b.2 = a.2)) as [Hba|_]; [congruence|]. reflexivity.
  - destruct (decide (a.2 = b.2)) as [Hab|_]; [congruence|]. reflexivity.
  - reflexivity.
Qed.

Lemma updates_permutation (trial : Z) (ops1 ops2 : list (nat * string))
    (l : ledger) :
  ops1 ≡ₚ ops2 ->
  foldr (update trial) l ops1 = foldr (update trial) l ops2.
Proof.
  induction 1 as [|x o1 o2 _ IH|x y o|o1 o2 o3 _ IH1 _ IH2]; simpl.
  - reflexivity.
  - rewrite IH. reflexivity.
  - apply update_comm.
  - rewrite IH1. exact IH2.
Qed.

(** The rankings of two batches may be applied in either order. *)
Lemma apply_ranking_comm (trial : Z) (r1 r2 : list string) (l : ledger) :
  apply_ranking trial r1 (apply_ranking trial r2 l)
  = apply_ranking trial r2 (apply_ranking trial r1 l).
Proof.
  rewrite !apply_ranking_updates, <- !foldr_app.
  apply updates_permutation, Permutation_app_comm.
Qed.

Section Schedules.
Variable estimate_tokens : string -> nat.
Variable shuffle : Z -> nat -> list Document -> list Document.
Variable complete : string -> string.
Variable extract_ordering : string -> list string.

Lemma resolve_comm (cfg : Config) (trial : Z) (b1 b2 : list Document)
    (l : ledger) :
  resolve complete extract_ordering cfg trial b1
    (resolve complete extract_ordering cfg trial b2 l)
  = resolve complete extract_ordering cfg trial b2
      (resolve complete extract_ordering cfg trial b1 l).
Proof.
  unfold resolve.
  destruct (rank_batch complete extract_ordering cfg b1) as [r1|];
    destruct (rank_batch complete extract_ordering cfg b2) as [r2|];
    try reflexivity.
  apply apply_ranking_comm.
Qed.

(** The ledger after a trial does not depend on the order in which
    its batches resolved. *)
Lemma resolve_permutation (cfg : Config) (trial : Z)
    (bs1 bs2 : list (list Document)) (l : ledger) :
  bs1 ≡ₚ bs2 ->
  foldr (resolve complete extract_ordering cfg trial) l bs1
  = foldr (resolve complete extract_ordering cfg trial) l bs2.
Proof.
  induction 1 as [|x o1 o2 _ IH|x y o|o1 o2 o3 _ IH1 _ IH2]; simpl.
  - reflexivity.
  - rewrite IH. reflexivity.
  - apply resolve_comm.
  - rewrite IH1. exact IH2.
Qed.


End Schedules.

Definition four_documents : list Document :=
  [mkDocument "A" "apple" ""; mkDocument "B" "banana" "";
   mkDocument "C" "cherry" ""; mkDocument "D" "damson" ""].

Definition two_per_batch : Config := mkConfig "Rank by taste." 2 1000 42.

(** A stub provider whose reply names the keys in reverse alphabetical
    order. *)
Definition reverse_stub (prompt : string) : string := "D,C,B,A".


End EngineFacts.

(** ** Further properties of the aggregator *)

Module AggregatorOrder.
Import Metrics Aggregator GoInt GoIntFacts AggregatorFacts GroupingFacts.

Global Instance stats_le_trans : Transitive stats_le.
Proof. intros a b c. unfold stats_le. apply transitivity. Qed.

Global Instance stats_le_total : Total stats_le.
Proof. intros a b. unfold stats_le. apply total, _. Qed.

Lemma sum_permutation (l k : list Z) : l ≡ₚ k -> sum l = sum k.
Proof.
  unfold sum.
  induction 1 as [|x l k _ IH|x y l|l k m _ IH1 _ IH2]; simpl; lia.
Qed.

Lemma group_summary_id (g : string * list CallMetrics) :
  sModelID (group_summary g) = g.1.
Proof. reflexivity. Qed.

Lemma group_summary_count (g : string * list CallMetrics) :
  CallCount (group_summary g) = len g.2.
Proof. reflexivity. Qed.

(** Two entries of a map with the same key are the same entry. *)
Lemma groups_same_key (G : gmap string (list CallMetrics))
    (g1 g2 : string * list CallMetrics) :
  g1 ∈ map_to_list G -> g2 ∈ map_to_list G -> g1.1 = g2.1 -> g1 = g2.
Proof.
  destruct g1 as [i1 x1], g2 as [i2 x2]. simpl.
  intros H1%elem_of_map_to_list H2%elem_of_map_to_list ->.
  rewrite H1 in H2. injection H2 as ->. reflexivity.
Qed.

(** Sorting the entries of the groups by model id gives one list,
    whatever order the groups come in. *)
Lemma sorted_summaries (G : gmap string (list CallMetrics))
    (groups : list (string * list CallMetrics)) :
  groups ≡ₚ map_to_list G ->
  merge_sort stats_le (map group_summary groups)
  = merge_sort stats_le (map group_summary (map_to_list G)).
Proof.
  intros Hperm. apply (Sorted_unique_strong stats_le).
  - intros s1 s2 H1 H2 H12 H21.
    rewrite merge_sort_Permutation in H1, H2.
    apply list_elem_of_fmap in H1 as (g1 & -> & Hg1).
    apply list_elem_of_fmap in H2 as (g2 & -> & Hg2).
    rewrite Hperm in Hg1. f_equal.
    apply (groups_same_key G); [assumption..|].
    unfold stats_le in H12, H21. rewrite !group_summary_id in H12, H21.
    apply (anti_symm String.le); assumption.
  - apply Sorted_merge_sort, _.
  - apply Sorted_merge_sort, _.
  - rewrite !merge_sort_Permutation, Hperm. reflexivity.
Qed.

(** The lengths of the groups add up to the number of metrics. *)
Lemma group_sizes (metrics : list CallMetrics) :
  sum (map (fun g => len g.2) (map_to_list (group_by_model metrics)))
  = len metrics.
Proof.
  induction metrics as [|m ms IH] using rev_ind.
  - unfold group_by_model. simpl. rewrite map_to_list_empty. reflexivity.
  - rewrite group_by_model_snoc, len_app. unfold group_step.
    change (len [m]) with 1. rewrite <- IH. clear IH.
    set (G := group_by_model ms).
    destruct (G !! ModelID m) as [old|] eqn:Hold; simpl.
    + rewrite <- insert_delete_eq.
      rewrite (sum_permutation _ _
                 (Permutation_map _ (map_to_list_insert (delete (ModelID m) G)
                    (ModelID m) (old ++ [m]) (lookup_delete_eq _ _)))).
      rewrite <- (sum_permutation _ _
                 (Permutation_map _ (map_to_list_delete G (ModelID m) old
                                                        Hold))).
      cbn [map sum foldr fst snd]. rewrite len_app.
      change (len [m]) with 1. lia.
    + rewrite (sum_permutation _ _
                 (Permutation_map _ (map_to_list_insert G (ModelID m) [m]
                                                        Hold))).
      cbn [map fst snd]. change (len [m]) with 1.
      unfold sum. cbn [foldr]. lia.
Qed.

Lemma calls_of_nonempty (metrics : list CallMetrics) (modelID : string) :
  calls_of modelID metrics <> [] <-> modelID ∈ map ModelID metrics.
Proof.
  unfold calls_of. split.
  - intros Hne. destruct (filter _ metrics) as [|m l] eqn:Hf; [congruence|].
    assert (Hin : m ∈ filter (fun m => ModelID m = modelID) metrics)
      by (rewrite Hf; left).
    apply list_elem_of_filter in Hin as [<- Hin].
    apply list_elem_of_fmap. exists m. split; [reflexivity | exact Hin].
  - intros (m & -> & Hin)%list_elem_of_fmap Hnil.
    assert (Hm : m ∈ filter (fun m' => ModelID m' = ModelID m) metrics)
      by (apply list_elem_of_filter; split; [reflexivity | exact Hin]).
    rewrite Hnil in Hm. inversion Hm.
Qed.

Definition mixed_calls : list CallMetrics :=
  [AggregatorClaims.call "openai:gpt-4o-mini" 300 10 5 true;
   AggregatorClaims.call "ollama:llama3" 100 20 5 false;
   AggregatorClaims.call "openai:gpt-4o-mini" 200 30 5 true].

(** X1: [percentile] looks at its samples only through their sorted
    arrangement: it gives the same result, or panics alike, on any two
    slices that hold the same samples in a different order. *)
Theorem percentile_permutation (values values' : list Z) (p : Z) :
  values ≡ₚ values' -> percentile values p = percentile values' p.
Proof.
  intros Hperm. unfold percentile.
  assert (Hlen : len values = len values')
    by (unfold len; f_equal; apply Permutation_length, Hperm).
  assert (Hsort : sort_int64 values = sort_int64 values').
  { apply sort_int64_unique; [apply sort_int64_sorted|].
    rewrite sort_int64_perm. symmetry. exact Hperm. }
  rewrite Hlen, Hsort. reflexivity.
Qed.

Lemma percentile_permutation_witness :
  [30; 10; 20] ≡ₚ [10; 20; 30] /\
  percentile [30; 10; 20] 50 = percentile [10; 20; 30] 50.
Proof.
  assert (Hperm : [30; 10; 20] ≡ₚ [10; 20; 30])
    by exact (Permutation_app_comm [30] [10; 20]).
  split; [exact Hperm|].
  exact (percentile_permutation [30; 10; 20] [10; 20; 30] 50 Hperm).
Defined.

(** X2: the result of [AggregateByModel] does not depend on the order in
    which the [range] over the map of groups yields them: aggregating
    the groups in any order and sorting by model id gives the list
    [AggregateByModel] returns, which is sorted by model id and names no
    model twice. *)
Theorem AggregateByModel_iteration_order (metrics : list CallMetrics)
    (groups : list (string * list CallMetrics)) :
  len metrics < 2 ^ 60 ->
  groups ≡ₚ map_to_list (group_by_model metrics) ->
  exists results,
    AggregateByModel metrics = Ret results /\
    (results' ← aggregate_groups groups;
     Ret (merge_sort stats_le results')) = Ret results /\
    Sorted stats_le results /\
    NoDup (map sModelID results).
Proof.
  intros Hlen Hperm. eexists. split; [apply AggregateByModel_value, Hlen|].
  split; [|split].
  - rewrite aggregate_groups_value.
    + rewrite bind_Ret. f_equal. apply sorted_summaries, Hperm.
    + apply Forall_forall. intros g Hg. rewrite Hperm in Hg.
      pose proof (groups_fit metrics Hlen) as Hfit.
      rewrite Forall_forall in Hfit. apply Hfit, Hg.
  - apply Sorted_merge_sort, _.
  - rewrite merge_sort_Permutation.
    rewrite <- list_fmap_compose.
    apply (NoDup_fst_map_to_list (group_by_model metrics)).
Qed.

Lemma AggregateByModel_iteration_order_witness :
  len mixed_calls < 2 ^ 60 /\
  exists results,
    AggregateByModel mixed_calls = Ret results /\
    (results' ← aggregate_groups
                  (reverse (map_to_list (group_by_model mixed_calls)));
     Ret (merge_sort stats_le results')) = Ret results /\
    map sModelID results = ["ollama:llama3"; "openai:gpt-4o-mini"].
Proof.
  assert (Hlen : len mixed_calls < 2 ^ 60) by reflexivity.
  split; [exact Hlen|].
  destruct (AggregateByModel_iteration_order mixed_calls
              (reverse (map_to_list (group_by_model mixed_calls))) Hlen
              (reverse_Permutation _)) as (results & Hret & Hany & _ & _).
  exists results. split; [exact Hret|]. split; [exact Hany|].
  assert (Hids : match AggregateByModel mixed_calls with
                 | Ret r => map sModelID r
                 | Panic _ => []
                 end = ["ollama:llama3"; "openai:gpt-4o-mini"])
    by (vm_compute; reflexivity).
  rewrite Hret in Hids. exact Hids.
Defined.

(** X3: [AggregateByModel] returns one entry for each model id that
    occurs in the metrics and no other: the statistics [AggregateMetrics]
    gives for the calls of that model, in the order they were made,
    under that model id. The call counts of the entries add up to the
    number of metrics. *)
Theorem AggregateByModel_entries (metrics : list CallMetrics) :
  len metrics < 2 ^ 60 ->
  exists results,
    AggregateByModel metrics = Ret results /\
    (forall s,
       s ∈ results <->
       exists modelID stats,
         modelID ∈ map ModelID metrics /\
         AggregateMetrics (calls_of modelID metrics) = Ret stats /\
         s = with_ModelID modelID stats) /\
    sum (map CallCount results) = len metrics.
Proof.
  intros Hlen. eexists. split; [apply AggregateByModel_value, Hlen|].
  split.
  - intros s. rewrite merge_sort_Permutation. split.
    + intros ([modelID g] & -> & Hg)%list_elem_of_fmap.
      apply elem_of_map_to_list in Hg.
      apply group_by_model_Some in Hg as [-> Hne].
      exists modelID, (summary (calls_of modelID metrics)).
      split; [apply calls_of_nonempty, Hne|]. split; [|reflexivity].
      apply AggregateMetrics_value; [exact Hne|].
      pose proof (calls_of_len metrics modelID). lia.
    + intros (modelID & stats & Hin & Hagg & ->).
      apply calls_of_nonempty in Hin.
      rewrite AggregateMetrics_value in Hagg;
        [|exact Hin | pose proof (calls_of_len metrics modelID); lia].
      injection Hagg as <-.
      apply list_elem_of_fmap.
      exists (modelID, calls_of modelID metrics). split; [reflexivity|].
      apply elem_of_map_to_list. rewrite group_by_model_lookup.
      destruct (calls_of modelID metrics); [congruence | reflexivity].
  - rewrite (sum_permutation _ _
               (Permutation_map CallCount (merge_sort_Permutation _ _))).
    rewrite <- list_fmap_compose. apply group_sizes.
Qed.

Lemma AggregateByModel_entries_witness :
  len mixed_calls < 2 ^ 60 /\
  exists results,
    AggregateByModel mixed_calls = Ret results /\
    sum (map CallCount results) = 3.
Proof.
  assert (Hlen : len mixed_calls < 2 ^ 60) by reflexivity.
  split; [exact Hlen|].
  destruct (AggregateByModel_entries mixed_calls Hlen)
    as (results & Hret & _ & Hsum).
  exists results. split; [exact Hret | exact Hsum].
Defined.

End AggregatorOrder.

(** ** Further properties of usages, the selector and the Anthropic provider *)

Module UsageAlgebra.
Import GoInt GoIntFacts TokenUsage.

(** X4: [Usage.Add] is commutative and associative: usages may be added
    up in any order and grouping, also when a count wraps around. *)
Theorem Usage_Add_comm_assoc (u v w : Usage) :
  Add u v = Add v u /\ Add (Add u v) w = Add u (Add v w).
Proof.
  unfold Add. cbn [InputTokens OutputTokens ReasoningTokens].
  split.
  - f_equal; apply add_comm.
  - f_equal; apply add_assoc.
Qed.

End UsageAlgebra.

Module SelectorCounts.
Import GoInt GoIntFacts Selector SelectorFacts.

(** X5: on a rotation of [m] pairwise distinct models with the counter
    at zero, [n] calls (at most [2^63]) select the model at position [i]
    exactly [n / m] times, and once more when [i < n mod m]; they leave
    the rotation and the providers as they were and the counter at
    [n]. *)
Theorem selection_counts {P} (rr : roundRobinSelector P) (n i : nat)
    (id : string) :
  covered rr -> rr_index rr = 0 -> Z.of_nat n <= 2 ^ 63 ->
  NoDup (sequence rr) -> sequence rr !! i = Some id ->
  exists ids rr',
    select_n n rr = Ret (ids, rr') /\
    count_selected id ids
      = (n / length (sequence rr)
         + (if decide (i < n mod length (sequence rr)) then 1 else 0))%nat /\
    sequence rr' = sequence rr /\ providers rr' = providers rr /\
    rr_index rr' = wrap (Z.of_nat n).
Proof.
  intros Hcov Hidx Hn Hnd Hi.
  assert (Hne : sequence rr <> []) by (intros E; rewrite E in Hi; inversion Hi).
  eexists _, _. split.
  { apply (select_n_from n rr 0%nat Hne Hcov); [rewrite Hidx; reflexivity|].
    simpl. exact Hn. }
  split; [|repeat split].
  rewrite (count_selected_hits _ _ i id Hnd Hi).
  apply hits_closed_form. eapply lookup_lt_Some, Hi.
Qed.

Lemma selection_counts_witness :
  exists ids rr',
    select_n 5 RotationFacts.two_models = Ret (ids, rr') /\
    count_selected "openai:gpt-4o-mini" ids = 3%nat /\
    rr_index rr' = 5.
Proof.
  destruct (selection_counts RotationFacts.two_models 5 0
              "openai:gpt-4o-mini")
    as (ids & rr' & Hsel & Hcount & _ & _ & Hidx).
  - exact RotationFacts.two_models_covered.
  - reflexivity.
  - lia.
  - apply NoDup_cons. split; [|apply NoDup_singleton].
    intros H%list_elem_of_singleton. discriminate H.
  - reflexivity.
  - exists ids, rr'. split; [exact Hsel|]. split; [exact Hcount|].
    rewrite Hidx. reflexivity.
Defined.

Definition unserved : roundRobinSelector nat :=
  mkSelector (<["openai:gpt-4o-mini" := 1%nat]> ∅)
             ["openai:gpt-4o-mini"; "ollama:llama3"] 1.

(** X6: the two errors of [SelectProvider]. With no model in the
    rotation it returns "no models configured for comparison" and
    leaves the selector as it was. When the model whose turn it is has
    no provider, it returns "provider not found for model: " followed by
    the model id, and the turn is used up: the counter has advanced. *)
Theorem SelectProvider_errors {P} (rr : roundRobinSelector P) :
  (sequence rr = [] ->
   SelectProvider rr
     = Ret (SelectError "no models configured for comparison", rr)) /\
  (forall (j : nat) (id : string),
     rr_index rr = Z.of_nat j -> Z.of_nat j <= max_int ->
     nth_model (sequence rr) j = Some id ->
     providers rr !! id = None ->
     SelectProvider rr
       = Ret (SelectError ("provider not found for model: " +:+ id),
              mkSelector (providers rr) (sequence rr)
                         (wrap (Z.of_nat (S j))))).
Proof.
  split.
  - intros Hnil. unfold SelectProvider. rewrite Hnil. reflexivity.
  - intros j id Hidx Hj Hid Hnone. unfold SelectProvider.
    assert (Hlen : (0 < length (sequence rr))%nat).
    { unfold nth_model in Hid. destruct (sequence rr); [|simpl; lia].
      inversion Hid. }
    replace (len (sequence rr) =? 0) with false
      by (symmetry; apply Z.eqb_neq; unfold len; lia).
    unfold rem, len. rewrite Hidx.
    rewrite Z.rem_mod_nonneg by lia.
    rewrite <- Nat2Z.inj_mod.
    rewrite (index_lookup _ _ _ Hid). simpl.
    rewrite Hnone. unfold add.
    replace (Z.of_nat j + 1) with (Z.of_nat (S j)) by lia. reflexivity.
Qed.

Lemma SelectProvider_errors_witness :
  SelectProvider unserved
  = Ret (SelectError "provider not found for model: ollama:llama3",
         mkSelector (providers unserved) (sequence unserved) 2).
Proof.
  destruct (SelectProvider_errors unserved) as [_ Hmiss].
  apply (Hmiss 1%nat "ollama:llama3"); [reflexivity | | reflexivity |].
  - unfold max_int. lia.
  - unfold unserved. cbn [providers].
    rewrite lookup_insert_ne by discriminate. apply lookup_empty.
Defined.

End SelectorCounts.

Module AnthropicSchedule.
Import GoInt GoIntFacts TokenUsage Anthropic AnthropicFacts.

Lemma append_assoc (s1 s2 s3 : string) :
  (s1 +:+ s2) +:+ s3 = s1 +:+ (s2 +:+ s3).
Proof.
  induction s1 as [|c s IH]; [reflexivity|].
  change (String c ((s +:+ s2) +:+ s3) = String c (s +:+ (s2 +:+ s3))).
  rewrite IH. reflexivity.
Qed.

Lemma append_empty_r (s : string) : s +:+ "" = s.
Proof.
  induction s as [|c s IH]; [reflexivity|].
  change (String c (s +:+ "") = String c s). rewrite IH. reflexivity.
Qed.

Definition add_block (acc : string) (b : block) : string :=
  match b with
  | TextBlock t => acc +:+ t
  | OtherBlock => acc
  end.

Lemma text_from (content : list block) : forall acc,
  fold_left add_block content acc = acc +:+ text_of content.
Proof.
  unfold text_of. fold add_block.
  induction content as [|b bs IH] using rev_ind; intros acc.
  - simpl. symmetry. apply append_empty_r.
  - rewrite !fold_left_app. cbn [fold_left].
    rewrite IH. destruct b; simpl.
    + apply append_assoc.
    + reflexivity.
Qed.

Definition is_text (b : block) : bool :=
  match b with TextBlock _ => true | OtherBlock => false end.


(** The wait before retry number [n] (from 0) when no server named one:
    one second, doubled each time, capped at thirty seconds. *)
Definition backoff_after (n : nat) : Z :=
  Z.min (2 ^ Z.of_nat n * Second) maxBackoff.

(** A failed attempt whose wait the server names: a 429 that is not a
    timeout of the call, with a positive retry-after. *)
Definition server_timed (a : attempt) : Prop :=
  reply a <> inr DeadlineExceeded /\ statusCode a = 429 /\ 0 < retryAfter a.

Lemma backoff_after_step (n : nat) :
  minDuration (GoInt.mul (backoff_after n) 2) maxBackoff
  = backoff_after (S n).
Proof.
  unfold minDuration, backoff_after, maxBackoff, Second, GoInt.mul.
  rewrite Nat2Z.inj_succ, Z.pow_succ_r by lia.
  assert (Hp : 0 < 2 ^ Z.of_nat n) by (apply Z.pow_pos_nonneg; lia).
  set (x := 2 ^ Z.of_nat n) in *.
  rewrite wrap_id; [lia|].
  unfold in_range, min_int, max_int.
  change (2 ^ 63) with 9223372036854775808. lia.
Qed.

Lemma iteration_plain opts totalUsage (n : nat) a :
  retried a -> ~ server_timed a ->
  iteration opts totalUsage (backoff_after n) a
  = ([request_of opts; Sleep (backoff_after n)],
     Again (backoff_after (S n))).
Proof.
  intros (err & (Hs & Hr & Ha) & Hkind) Hplain.
  unfold iteration, request_of. rewrite Hs, Hr, Ha.
  unfold handleRateLimit, sleep_and_double.
  rewrite backoff_after_step.
  destruct (decide (err = DeadlineExceeded)) as [He|He]; [reflexivity|].
  assert (Hra : statusCode a = 429 -> retryAfter a <= 0).
  { intros H429. destruct (Z.le_gt_cases (retryAfter a) 0); [assumption|].
    exfalso. apply Hplain. split; [|split; [exact H429 | lia]].
    rewrite Hr. intros [= E]. contradiction. }
  destruct Hkind as [Hk|[Hk|Hk]]; [contradiction| |].
  - rewrite Hk. cbn [Z.eqb Pos.eqb].
    replace (retryAfter a >? 0) with false; [reflexivity|].
    symmetry. rewrite Z.gtb_ltb. apply Z.ltb_ge. auto.
  - destruct (statusCode a =? 429) eqn:E429.
    + apply Z.eqb_eq in E429.
      replace (retryAfter a >? 0) with false; [reflexivity|].
      symmetry. rewrite Z.gtb_ltb. apply Z.ltb_ge. auto.
    + destruct ((statusCode a >=? 500) && (statusCode a <? 600));
        [reflexivity|].
      replace ((statusCode a >=? 400) && (statusCode a <? 500)) with false;
        [reflexivity|].
      symmetry. apply andb_false_iff.
      rewrite Z.geb_leb, Z.leb_gt, Z.ltb_ge. lia.
Qed.

Lemma loop_plain opts totalUsage pre rest : forall n : nat,
  Forall retried pre -> Forall (fun a => ~ server_timed a) pre ->
  loop opts totalUsage (backoff_after n) (pre ++ rest)
  = (flat_map (fun i => [request_of opts; Sleep (backoff_after i)])
              (seq n (length pre))
       ++ (loop opts totalUsage (backoff_after (n + length pre)) rest).1,
     (loop opts totalUsage (backoff_after (n + length pre)) rest).2).
Proof.
  induction pre as [|a pre IH]; intros n Hr Hp.
  - simpl. rewrite Nat.add_0_r.
    destruct (loop opts totalUsage (backoff_after n) rest). reflexivity.
  - inversion Hr as [|? ? Hra Hr']; subst.
    inversion Hp as [|? ? Hpa Hp']; subst.
    cbn [app loop]. rewrite (iteration_plain _ _ _ _ Hra Hpa).
    rewrite (IH (S n) Hr' Hp').
    cbn [length seq flat_map fst snd].
    replace (S n + length pre)%nat with (n + S (length pre))%nat by lia.
    reflexivity.
Qed.

Definition overloaded : attempt :=
  mkAttempt None (inr (OtherError "overloaded")) None 529 0.

Definition throttled : attempt :=
  mkAttempt None (inr (OtherError "rate limited")) None 429 (7 * Second).

(** X8: the waits of [Complete] between attempts. While the failures
    are of the kinds that are retried and the server names no wait,
    retry number [i] follows a sleep of [min(2^i s, 30 s)]: 1, 2, 4, 8,
    16, 30, 30, ... seconds. A 429 with a positive retry-after is
    followed by a sleep of exactly that time, and leaves the backoff
    where it was. *)
Theorem Complete_backoff_schedule (opts : option CompletionOptions)
    (pre rest : list attempt) :
  Forall retried pre -> Forall (fun a => ~ server_timed a) pre ->
  (Complete opts (pre ++ rest)).1
    = flat_map (fun i => [request_of (default emptyOptions opts);
                          Sleep (backoff_after i)])
               (seq 0 (length pre))
      ++ (loop (default emptyOptions opts) zero
               (backoff_after (length pre)) rest).1 /\
  (forall o u b a,
     retried a -> server_timed a ->
     iteration o u b a
       = ([request_of o; Sleep (retryAfter a)], Again b)).
Proof.
  intros Hr Hp. split.
  - unfold Complete.
    change Second with (backoff_after 0).
    rewrite (loop_plain _ _ pre rest 0%nat Hr Hp). reflexivity.
  - intros o u b a (err & (Hs & Hre & Ha) & _) (Hne & H429 & Hpos).
    unfold iteration, request_of. rewrite Hs, Hre, Ha.
    destruct (decide (err = DeadlineExceeded)) as [He|He].
    { subst err. contradiction. }
    rewrite H429. cbn [Z.eqb Pos.eqb]. unfold handleRateLimit.
    replace (retryAfter a >? 0) with true; [reflexivity|].
    symmetry. rewrite Z.gtb_ltb. apply Z.ltb_lt. exact Hpos.
Qed.

Lemma Complete_backoff_schedule_witness :
  (Complete None [overloaded; overloaded; overloaded; throttled]).1
  = [Request 4096 None; Sleep (1 * Second);
     Request 4096 None; Sleep (2 * Second);
     Request 4096 None; Sleep (4 * Second);
     Request 4096 None; Sleep (7 * Second)].
Proof.
  assert (Hr : retried overloaded).
  { exists (OtherError "overloaded"). split; [repeat split|].
    right; right. cbn [statusCode overloaded]. lia. }
  assert (Hp : ~ server_timed overloaded).
  { intros (_ & H429 & _). discriminate H429. }
  assert (Ht : retried throttled).
  { exists (OtherError "rate limited"). split; [repeat split|].
    right; left. reflexivity. }
  assert (Hs : server_timed throttled).
  { split; [discriminate|]. split; [reflexivity|].
    cbn [retryAfter throttled]. unfold Second. lia. }
  destruct (Complete_backoff_schedule None
              [overloaded; overloaded; overloaded] [throttled]
              ltac:(repeat constructor; exact Hr)
              ltac:(repeat constructor; exact Hp)) as [Hplain Htimed].
  cbn [app] in Hplain. rewrite Hplain.
  cbn [loop length]. rewrite (Htimed _ _ _ _ Ht Hs). reflexivity.
Defined.

(** X9: a call that succeeds after retries. When every attempt before
    it failed in a way that is retried, and the next attempt finds the
    context alive and gets a message, [Complete] returns the text of
    the message and stores in the options the usage of that one call
    (whatever usage they held before), the model, the stop reason and
    the request id, leaving temperature and token limit as they were;
    one request was made for each attempt, and no attempt after the
    successful one is looked at. *)
Theorem Complete_success (opts : option CompletionOptions)
    (pre rest : list attempt) (a : attempt) (message : Message) :
  Forall retried pre ->
  ctxErrAtStart a = None -> reply a = inl message ->
  in_range (mInputTokens message) -> in_range (mOutputTokens message) ->
  let o := default emptyOptions opts in
  exists ds,
    length ds = length pre /\
    Complete opts (pre ++ a :: rest)
    = (flat_map (fun d => [request_of o; Sleep d]) ds ++ [request_of o],
       Some (inl (text_of (mContent message)),
             mkOptions (Temperature o) (MaxTokens o)
                       (mkUsage (mInputTokens message)
                                (mOutputTokens message) 0)
                       (mModel message) (mStopReason message)
                       (mID message))).
Proof.
  intros Hr Hctx Hreply Hin Hout o.
  destruct (loop_retried o zero pre Second live_Second Hr)
    as (ds & b' & _ & _ & Hlen & Hloop).
  exists ds. split; [exact Hlen|].
  unfold Complete. fold o. rewrite (Hloop (a :: rest)).
  cbn [loop]. unfold iteration. rewrite Hctx, Hreply.
  cbn [fst snd]. unfold Add, zero, request_of.
  cbn [InputTokens OutputTokens ReasoningTokens].
  unfold GoInt.add. rewrite !Z.add_0_l.
  rewrite (wrap_id _ Hin), (wrap_id _ Hout), (wrap_id 0);
    [reflexivity|].
  unfold in_range, min_int, max_int. lia.
Qed.

Definition answered : attempt :=
  mkAttempt None
    (inl (mkMessage "msg_01" "claude-3-5-sonnet" "end_turn" 12 3
            [TextBlock "[1,"; OtherBlock; TextBlock "2]"]))
    None 200 0.

Lemma Complete_success_witness :
  exists ds,
    length ds = 1%nat /\
    Complete None [overloaded; answered; overloaded]
    = (flat_map (fun d => [Request 4096 None; Sleep d]) ds
         ++ [Request 4096 None],
       Some (inl "[1,2]",
             mkOptions None None (mkUsage 12 3 0) "claude-3-5-sonnet"
                       "end_turn" "msg_01")).
Proof.
  assert (Hr : retried overloaded).
  { exists (OtherError "overloaded"). split; [repeat split|].
    right; right. cbn [statusCode overloaded]. lia. }
  exact (Complete_success None [overloaded] [overloaded] answered
           (mkMessage "msg_01" "claude-3-5-sonnet" "end_turn" 12 3
              [TextBlock "[1,"; OtherBlock; TextBlock "2]"])
           ltac:(repeat constructor; exact Hr) eq_refl eq_refl
           ltac:(unfold in_range, min_int, max_int; simpl; lia)
           ltac:(unfold in_range, min_int, max_int; simpl; lia)).
Defined.

End AnthropicSchedule.

(** ** Snapshots of the collector *)

Module CollectorSnapshots.
Import Metrics Collector CollectorFacts.

(** The two methods that change the collector. *)
Inductive update :=
  | Record_ (m : CallMetrics)
  | Reset_.

Definition apply_update `{GoRuntime} (st : state) (u : update) : state :=
  match u with
  | Record_ m => RecordCall st m
  | Reset_ => Reset st
  end.

Definition updates `{GoRuntime} (st : state) (us : list update) : state :=
  fold_left apply_update us st.

(** A slice [r] that does not share the collector's array. *)
Definition apart (st : state) (r : slice) : Prop :=
  wf st /\ is_Some (hp st !! ptr r) /\ ptr r <> ptr (metrics st).

Lemma apply_update_apart `{GoRuntime} st r u :
  apart st r ->
  apart (apply_update st u) r /\
  hp (apply_update st u) !! ptr r = hp st !! ptr r.
Proof.
  intros (Hwf & Hr & Hne). destruct u as [m|]; cbn [apply_update].
  - pose proof (RecordCall_wf st m Hwf) as Hwf'.
    pose proof (append_frame (hp st) (metrics st) m (ptr r) Hne Hr) as Hf.
    pose proof (append_ptr (hp st) (metrics st) m (ptr r) Hne Hr) as Hp.
    unfold RecordCall in *.
    destruct (append (hp st) (metrics st) m) as [h' s'].
    unfold apart, wf in *. cbn [hp metrics fst snd] in *.
    split; [|exact Hf]. split; [exact Hwf'|].
    split; [rewrite Hf; exact Hr | congruence].
  - destruct (Reset_spec st) as (Hwf' & _ & _).
    pose proof (make_frame (hp st) 0 0 (ptr r) Hr) as Hf.
    pose proof (make_fresh (hp st) 0 0) as Hfresh.
    unfold Reset in *. destruct (make (hp st) 0 0) as [h' s'].
    unfold apart, wf in *. cbn [hp metrics fst snd] in *.
    split; [|exact Hf]. split; [exact Hwf'|].
    split; [rewrite Hf; exact Hr|].
    intros E. rewrite E, Hfresh in Hr. destruct Hr as [? Hr]. discriminate.
Qed.

Lemma updates_apart `{GoRuntime} us : forall st r,
  apart st r -> hp (updates st us) !! ptr r = hp st !! ptr r.
Proof.
  induction us as [|u us IH]; intros st r Ha; [reflexivity|].
  destruct (apply_update_apart st r u Ha) as [Ha' Hf].
  cbn [updates fold_left]. fold (updates (apply_update st u) us).
  rewrite (IH _ _ Ha'). exact Hf.
Qed.

Definition first_call : CallMetrics :=
  mkCallMetrics "openai:gpt-4o-mini" 120 10 5 10 true "" 1.
Definition second_call : CallMetrics :=
  mkCallMetrics "ollama:llama3" 340 12 7 12 false "timeout" 2.

(** X10: a slice returned by [GetMetrics] or [GetMetricsByModel] is a
    snapshot: it shows the same records after any later [RecordCall]s
    and [Reset]s of the collector. *)
Theorem snapshots_are_stable `{rt : GoRuntime} (st : state)
    (modelID : string) (us : list update) :
  wf st ->
  let '(st1, r1) := GetMetrics st in
  let '(st2, r2) := GetMetricsByModel st modelID in
  elems (hp (updates st1 us)) r1 = elems (hp st) (metrics st) /\
  elems (hp (updates st2 us)) r2
    = filter (fun m => ModelID m = modelID) (elems (hp st) (metrics st)).
Proof.
  intros Hwf.
  pose proof (GetMetrics_spec st Hwf) as H1.
  pose proof (GetMetricsByModel_spec st modelID Hwf) as H2.
  destruct (GetMetrics st) as [st1 r1].
  destruct (GetMetricsByModel st modelID) as [st2 r2].
  destruct H1 as (Hm1 & Hf1 & Hw1 & Hn1 & He1).
  destruct H2 as (Hm2 & Hf2 & Hw2 & Hn2 & He2).
  split.
  - rewrite <- He1. apply elems_frame, updates_apart.
    split; [|split].
    + unfold wf. rewrite Hm1. eapply wf_slice_frame; [exact Hf1 | exact Hwf].
    + apply wf_slice_allocated, Hw1.
    + rewrite Hm1. exact Hn1.
  - rewrite <- He2. apply elems_frame, updates_apart.
    split; [|split].
    + unfold wf. rewrite Hm2. eapply wf_slice_frame; [exact Hf2 | exact Hwf].
    + apply wf_slice_allocated, Hw2.
    + rewrite Hm2. exact Hn2.
Qed.

Lemma snapshots_are_stable_witness :
  let st := record_all (H := doubling) (NewMetricsCollector ∅)
              [first_call; second_call] in
  wf st /\
  let '(st1, r1) := GetMetrics st in
  let '(st2, r2) := GetMetricsByModel (H := doubling) st "ollama:llama3" in
  elems (hp (updates (H := doubling) st1 [Record_ first_call; Reset_])) r1
    = elems (hp st) (metrics st) /\
  elems (hp (updates (H := doubling) st2 [Record_ first_call; Reset_])) r2
    = filter (fun m => ModelID m = "ollama:llama3")
             (elems (hp st) (metrics st)).
Proof.
  intros st.
  assert (Hwf : wf st).
  { apply (record_all_spec (rt := doubling)), NewMetricsCollector_wf. }
  split; [exact Hwf|].
  exact (snapshots_are_stable (rt := doubling) st "ollama:llama3"
           [Record_ first_call; Reset_] Hwf).
Defined.

End CollectorSnapshots.

(** ** Further properties of the factory and of the comparison set-up *)

Module FactoryRequirements.
Import Factory.

Section Requirements.
Context {L P : Type}.
Variable slog_Default : L.
Variable DefaultEncoding : string.
Variable NewOpenAIProvider : OpenAIConfig L -> result P.
Variable NewAnthropicProvider : AnthropicConfig L -> result P.

(** What [NewProvider] hands to a constructor, for the configurations
    it accepts. *)
Definition routed (cfg : ProviderConfig L) (p : P) : Prop :=
  let logger := default slog_Default (Logger cfg) in
  let encoding := or_default DefaultEncoding (Encoding cfg) in
  ((Type_ cfg = ProviderTypeOpenAI \/ Type_ cfg = ProviderTypeOpenRouter) /\
   APIKey cfg <> "" /\
   NewOpenAIProvider
     (mkOpenAIConfig (BearerAuth (APIKey cfg)) (Model cfg) (BaseURL cfg)
                     encoding (Effort cfg) logger) = inl p) \/
  (Type_ cfg = ProviderTypeAnthropic /\ APIKey cfg <> "" /\
   NewAnthropicProvider
     (mkAnthropicConfig (HeaderAuth "x-api-key" (APIKey cfg)) (Model cfg)
                        (BaseURL cfg) encoding logger) = inl p) \/
  (Type_ cfg = ProviderTypeOllama /\ BaseURL cfg <> "" /\
   NewOpenAIProvider
     (mkOpenAIConfig
        (if decide (APIKey cfg = "") then NoAuth
         else BearerAuth (APIKey cfg))
        (Model cfg) (BaseURL cfg) encoding (Effort cfg) logger) = inl p).

Lemma NewProvider_inl (cfg : ProviderConfig L) (p : P) :
  NewProvider slog_Default DefaultEncoding NewOpenAIProvider
              NewAnthropicProvider cfg = inl p ->
  Model cfg <> "" /\ routed cfg p.
Proof.
  unfold NewProvider, routed, newOpenAICompatibleProvider,
    newAnthropicProvider, newOllamaProvider.
  intros H.
  destruct (decide (Type_ cfg = "")); [discriminate|].
  destruct (decide (Model cfg = "")) as [|Hm]; [discriminate|].
  split; [exact Hm|].
  destruct (decide (Type_ cfg = ProviderTypeOpenAI
                    \/ Type_ cfg = ProviderTypeOpenRouter)) as [Ho|Ho].
  { destruct (decide (APIKey cfg = "")); [discriminate|]. left. auto. }
  destruct (decide (Type_ cfg = ProviderTypeAnthropic)) as [Ha|Ha].
  { destruct (decide (APIKey cfg = "")); [discriminate|].
    right; left. auto. }
  destruct (decide (Type_ cfg = ProviderTypeGoogle)); [discriminate|].
  destruct (decide (Type_ cfg = ProviderTypeOllama)) as [Hl|Hl];
    [|discriminate].
  destruct (decide (BaseURL cfg = "")); [discriminate|].
  right; right. auto.
Qed.

(** X11: [NewProvider] returns a provider exactly for a configuration
    with a model and one of three routes: type openai or openrouter
    with an API key, built by [NewOpenAIProvider] with bearer
    authentication; type anthropic with an API key, built by
    [NewAnthropicProvider] with the key in the x-api-key header; type
    ollama with a base URL, built by [NewOpenAIProvider] with bearer
    authentication when there is a key and none otherwise. The
    constructor gets the default encoding when the configuration
    names none, and the default logger when it has none. *)
Theorem NewProvider_accepts (cfg : ProviderConfig L) (p : P) :
  NewProvider slog_Default DefaultEncoding NewOpenAIProvider
              NewAnthropicProvider cfg = inl p
  <-> Model cfg <> "" /\ routed cfg p.
Proof.
  split; [apply NewProvider_inl|].
  intros [Hm Hr]. unfold NewProvider, newOpenAICompatibleProvider,
    newAnthropicProvider, newOllamaProvider.
  destruct Hr as [(Hty & Hk & Hc)|[(Hty & Hk & Hc)|(Hty & Hb & Hc)]].
  - destruct (decide (Type_ cfg = "")) as [E|_].
    { destruct Hty as [H|H]; rewrite E in H; discriminate. }
    destruct (decide (Model cfg = "")); [contradiction|].
    destruct (decide (_ \/ _)); [|contradiction].
    destruct (decide (APIKey cfg = "")); [contradiction|]. exact Hc.
  - rewrite Hty in *.
    destruct (decide (ProviderTypeAnthropic = "")); [discriminate|].
    destruct (decide (Model cfg = "")); [contradiction|].
    destruct (decide (_ \/ _)) as [[H|H]|_]; [discriminate..|].
    destruct (decide (ProviderTypeAnthropic = ProviderTypeAnthropic));
      [|contradiction].
    destruct (decide (APIKey cfg = "")); [contradiction|].
    exact Hc.
  - rewrite Hty in *.
    destruct (decide (ProviderTypeOllama = "")); [discriminate|].
    destruct (decide (Model cfg = "")); [contradiction|].
    destruct (decide (_ \/ _)) as [[H|H]|_]; [discriminate..|].
    destruct (decide (ProviderTypeOllama = ProviderTypeAnthropic));
      [discriminate|].
    destruct (decide (ProviderTypeOllama = ProviderTypeGoogle));
      [discriminate|].
    destruct (decide (ProviderTypeOllama = ProviderTypeOllama));
      [|contradiction].
    destruct (decide (BaseURL cfg = "")); [contradiction|]. exact Hc.
Qed.

End Requirements.

End FactoryRequirements.

Module ComparisonSetup.
Import GoInt GoIntFacts Selector SelectorFacts Factory FactoryFacts
       FactoryRequirements Compare CompareFacts.

Section Setup.
Context {L P : Type}.
Variable slog_Default : L.
Variable DefaultEncoding : string.
Variable NewOpenAIProvider : OpenAIConfig L -> result P.
Variable NewAnthropicProvider : AnthropicConfig L -> result P.
Variable strings_TrimSpace : string -> string.
Variable os_Getenv : string -> string.

(** The model specs a comparison string names: its comma-separated
    parts, trimmed, without the empty ones. *)
Definition named_specs (compareModels : string) : list string :=
  filter (fun s => s <> "")
         (map strings_TrimSpace (split_comma compareModels)).

(** A spec that made it into the rotation: "provider:model" with a
    model, for a provider that is implemented. *)
Definition usable (spec : string) : Prop :=
  exists providerType model,
    split_colon spec = Some (providerType, model) /\ model <> "" /\
    (providerType = ProviderTypeOpenAI \/
     providerType = ProviderTypeOpenRouter \/
     providerType = ProviderTypeOllama \/
     providerType = ProviderTypeAnthropic).

Lemma credentials_inl providerType apiKey baseURL :
  credentials os_Getenv providerType = inl (apiKey, baseURL) ->
  providerType = ProviderTypeOpenAI \/
  providerType = ProviderTypeOpenRouter \/
  providerType = ProviderTypeOllama \/
  providerType = ProviderTypeAnthropic.
Proof.
  unfold credentials. intros H.
  destruct (decide (providerType = ProviderTypeOpenAI)); [auto|].
  destruct (decide (providerType = ProviderTypeOpenRouter)); [auto|].
  destruct (decide (providerType = ProviderTypeOllama)); [auto|].
  destruct (decide (providerType = ProviderTypeAnthropic)); [auto|].
  destruct (decide (providerType = ProviderTypeGoogle)); discriminate.
Qed.

Lemma build_sequence logger modelSpecs : forall providers sequence ps sq,
  build slog_Default DefaultEncoding NewOpenAIProvider
        NewAnthropicProvider strings_TrimSpace os_Getenv
        logger modelSpecs providers sequence = inl (ps, sq) ->
  sq = sequence
         ++ filter (fun s => s <> "") (map strings_TrimSpace modelSpecs) /\
  (Forall usable sequence -> Forall usable sq).
Proof.
  induction modelSpecs as [|spec0 rest IH];
    intros providers sequence ps sq Hb.
  - simpl in Hb. injection Hb as <- <-.
    split; [rewrite app_nil_r; reflexivity | auto].
  - cbn [build] in Hb. cbn [map].
    destruct (decide (strings_TrimSpace spec0 = "")) as [He|He].
    { rewrite filter_cons_False by (intros H; apply H, He).
      eapply IH, Hb. }
    rewrite filter_cons_True by exact He.
    destruct (split_colon (strings_TrimSpace spec0)) as [[ty model]|]
      eqn:Hsplit; [|discriminate].
    destruct (credentials os_Getenv ty) as [[apiKey baseURL]|] eqn:Hcred;
      [|discriminate].
    destruct (NewProvider _ _ _ _ _) as [provider|] eqn:Hnew;
      [|discriminate].
    destruct (IH _ _ _ _ Hb) as [Hsq Hus].
    split.
    + rewrite Hsq, <- app_assoc. reflexivity.
    + intros Hall. apply Hus. apply Forall_app. split; [exact Hall|].
      constructor; [|constructor].
      exists ty, model. split; [exact Hsplit|].
      apply NewProvider_inl in Hnew as [Hm _]. cbn [Model] in Hm.
      split; [exact Hm|]. eapply credentials_inl, Hcred.
Qed.

(** X12: the rotation [NewEvalProvider] sets up. When it succeeds,
    the rotation is the list of specs the comparison string names
    (the comma-separated parts, trimmed, the empty ones left out), in
    order and with repetitions; every one of them is of the form
    provider:model with a model and an implemented provider; the
    provider map has an entry exactly for the specs of the rotation;
    the counter is at zero and the collector is new. *)
Theorem NewEvalProvider_rotation compareModels logger h sel st :
  NewEvalProvider slog_Default DefaultEncoding NewOpenAIProvider
    NewAnthropicProvider strings_TrimSpace os_Getenv
    compareModels logger h = inl (sel, st) ->
  sequence sel = named_specs compareModels /\
  Forall usable (sequence sel) /\
  (forall id, id ∈ sequence sel <-> is_Some (providers sel !! id)) /\
  rr_index sel = 0 /\
  st = Collector.NewMetricsCollector h.
Proof.
  unfold NewEvalProvider. intros H.
  destruct (decide (compareModels = "")); [discriminate|].
  destruct (len (split_comma compareModels) =? 0); [discriminate|].
  destruct (build _ _ _ _ _ _ _ _ _ _) as [[ps sq]|] eqn:Hb;
    [|discriminate].
  destruct (Z.of_nat (size ps) =? 0); [discriminate|].
  injection H as <- <-. cbn [sequence providers rr_index].
  destruct (build_sequence _ _ _ _ _ _ Hb) as [Hsq Hus].
  split; [exact Hsq|]. split; [apply Hus; constructor|].
  split; [|split; reflexivity].
  eapply build_in_step; [|exact Hb]. intros id.
  rewrite lookup_empty. split; [intros ?%elem_of_nil; contradiction|].
  intros [? ?]; discriminate.
Qed.

(** X13: a selector set up by [NewEvalProvider] does not fail: each of
    its first [2^63] calls to [SelectProvider] returns a provider and
    a model id of the rotation. *)
Theorem comparison_selects compareModels logger h sel st (n : nat) :
  NewEvalProvider slog_Default DefaultEncoding NewOpenAIProvider
    NewAnthropicProvider strings_TrimSpace os_Getenv
    compareModels logger h = inl (sel, st) ->
  Z.of_nat n <= 2 ^ 63 ->
  exists ids rr',
    select_n n sel = Ret (ids, rr') /\
    length ids = n /\
    Forall (fun o => exists id, o = Some id /\ id ∈ sequence sel) ids.
Proof.
  intros Hnew Hn.
  destruct (NewEvalProvider_selector _ _ _ _ _ _ _ _ _ _ _ Hnew)
    as (Hne & Hcov & Hidx).
  eexists _, _. split.
  { apply (select_n_from n sel 0%nat Hne Hcov);
      [rewrite Hidx; reflexivity | simpl; exact Hn]. }
  split; [rewrite length_map, length_seq; reflexivity|].
  apply Forall_forall. intros o (j & -> & _)%list_elem_of_fmap.
  destruct (nth_model_is_Some (sequence sel) j Hne) as [id Hid].
  exists id. split; [exact Hid|].
  eapply list_elem_of_lookup_2, Hid.
Qed.

End Setup.

Definition spaced_models : string :=
  " openai:gpt-4o-mini, ollama:qwen2.5-coder:32b,,".

(** [strings.TrimSpace] on strings whose only white space is one
    leading blank. *)
Definition trim_blank (s : string) : string :=
  match s with
  | String c rest => if Ascii.eqb c " "%char then rest else s
  | EmptyString => s
  end.

Lemma NewEvalProvider_rotation_witness :
  exists sel st,
    NewEvalProvider tt "o200k_base" record_openai record_anthropic
      trim_blank (fun _ => "secret") spaced_models None ∅ = inl (sel, st) /\
    sequence sel = ["openai:gpt-4o-mini"; "ollama:qwen2.5-coder:32b"].
Proof.
  destruct (NewEvalProvider tt "o200k_base" record_openai record_anthropic
              trim_blank (fun _ => "secret") spaced_models None ∅)
    as [[sel st]|err] eqn:Hnew; [|vm_compute in Hnew; discriminate].
  exists sel, st. split; [reflexivity|].
  destruct (NewEvalProvider_rotation _ _ _ _ _ _ _ _ _ _ _ Hnew)
    as (Hseq & _).
  rewrite Hseq. vm_compute. reflexivity.
Defined.

Lemma comparison_selects_witness :
  exists sel st ids rr',
    NewEvalProvider tt "o200k_base" record_openai record_anthropic
      trim_blank (fun _ => "secret") spaced_models None ∅ = inl (sel, st) /\
    select_n 3 sel = Ret (ids, rr') /\ length ids = 3%nat.
Proof.
  destruct (NewEvalProvider tt "o200k_base" record_openai record_anthropic
              trim_blank (fun _ => "secret") spaced_models None ∅)
    as [[sel st]|err] eqn:Hnew; [|vm_compute in Hnew; discriminate].
  destruct (comparison_selects _ _ _ _ _ _ _ _ _ _ _ 3 Hnew ltac:(lia))
    as (ids & rr' & Hsel & Hlen & _).
  exists sel, st, ids, rr'. split; [reflexivity|].
  split; [exact Hsel | exact Hlen].
Defined.

End ComparisonSetup.

(** ** Further properties of the command line *)

Module CliOutputs.
Import F64 Cli CliFacts.
Local Existing Instances M_mbind M_mret.

Definition is_print (ev : event) : bool :=
  match ev with EvPrintln _ => true | _ => false end.
Definition is_write (ev : event) : bool :=
  match ev with EvWriteFile _ => true | _ => false end.
Definition is_log_file (ev : event) : bool :=
  match ev with EvOpenFile _ | EvCloseFile _ => true | _ => false end.

(** No call of a computation is of the kind [kind]. *)
Definition without {A} (kind : event -> bool) (m : M A) : Prop :=
  Forall (fun ev => kind ev = false) (calls m).

(** A computation that writes the output file ends well or in the error
    of that write. *)
Definition writes_last {A} (m : M A) : Prop :=
  forall p, EvWriteFile p ∈ calls m ->
    (exists a, value m = inl a) \/
    (exists err, value m = inr ("failed to write output file: " +:+ err)).

Lemma without_bind {A B} kind (m : M A) (k : A -> M B) :
  without kind m -> (forall a, without kind (k a)) ->
  without kind (m ≫= k).
Proof.
  unfold without, mbind, M_mbind, M_bind. intros Hm Hk.
  destruct (value m) as [a|err]; simpl; [|exact Hm].
  apply Forall_app. split; [exact Hm | apply Hk].
Qed.

Lemma without_ret {A} kind (a : A) : without kind (mret a : M A).
Proof. constructor. Qed.

Lemma without_call {A} kind prefix ev (r : A + string) :
  kind ev = false -> without kind (wrapping prefix (call ev r)).
Proof. intros H. repeat constructor. exact H. Qed.

Lemma without_log kind msg : kind (EvLog msg) = false -> without kind (log msg).
Proof. intros H. repeat constructor. exact H. Qed.

Lemma without_deferring {A} kind ev (m : M A) :
  kind ev = false -> without kind m -> without kind (deferring ev m).
Proof.
  intros Hev Hm. unfold without, deferring. simpl.
  apply Forall_app. split; [exact Hm | repeat constructor; exact Hev].
Qed.

Lemma without_writes_last {A} (m : M A) : without is_write m -> writes_last m.
Proof.
  intros Hm p Hin. exfalso. unfold without in Hm.
  rewrite Forall_forall in Hm. specialize (Hm _ Hin). discriminate.
Qed.

Lemma writes_last_bind {A B} (m : M A) (k : A -> M B) :
  without is_write m -> (forall a, writes_last (k a)) ->
  writes_last (m ≫= k).
Proof.
  unfold writes_last, mbind, M_mbind, M_bind. intros Hm Hk p.
  destruct (value m) as [a|err]; simpl.
  - intros [Hin|Hin]%elem_of_app; [|exact (Hk a p Hin)].
    exfalso. unfold without in Hm. rewrite Forall_forall in Hm.
    specialize (Hm _ Hin). discriminate.
  - intros Hin. exfalso. unfold without in Hm.
    rewrite Forall_forall in Hm. specialize (Hm _ Hin). discriminate.
Qed.

Lemma writes_last_deferring {A} ev (m : M A) :
  is_write ev = false -> writes_last m -> writes_last (deferring ev m).
Proof.
  intros Hev Hm p. unfold deferring. simpl.
  intros [Hin|Hin]%elem_of_app; [exact (Hm p Hin)|].
  apply list_elem_of_singleton in Hin. subst ev. discriminate.
Qed.

Ltac without_step :=
  first
    [ apply without_ret
    | apply without_log; reflexivity
    | apply without_call; reflexivity
    | apply without_bind; [|intros ?] ].

Section Run.
Context {R Res : Type}.
Implicit Types (f : flags) (e : env R Res).

(** Up to the marshalled results, [run] makes no call of a kind that
    none of its steps there is of. *)
Lemma run_validated_without kind f e logOutput logLevel :
  (forall p, kind (EvValidatePath p) = false) ->
  (forall p, kind (EvReadFile p) = false) ->
  (forall c, kind (EvNewRanker c) = false) ->
  (forall p, kind (EvValidateInputPath p) = false) ->
  (forall d p, kind (EvEnumerateFiles d p) = false) ->
  (forall ps, kind (EvRankFromFiles ps) = false) ->
  (forall p, kind (EvRankFromFile p) = false) ->
  kind EvMarshal = false ->
  (forall msg, kind (EvLog msg) = false) ->
  (forall t, dryRun f = false -> kind (EvPrintln t) = false) ->
  (forall p, outputFile f <> "" -> kind (EvWriteFile p) = false) ->
  without kind (run_validated f e logOutput logLevel).
Proof.
  intros Hv Hread Hnew Hin Henum Hfiles Hfile Hmar Hlog Hprint Hwrite.
  unfold run_validated.
  destruct (ratio_rejected (refinementRatio f)); [constructor|].
  apply without_bind.
  { destruct (at_file _); [|apply without_ret].
    apply without_bind; [apply without_call, Hv|]. intros ?.
    apply without_call, Hread. }
  intros userPrompt.
  apply without_bind; [apply without_call, Hnew|]. intros ranker.
  apply without_bind; [apply without_call, Hin|].
  intros [validPath isDir].
  apply without_bind.
  { destruct isDir; [|apply without_call, Hfile].
    apply without_bind; [apply without_log, Hlog|]. intros _.
    apply without_bind; [apply without_call, Henum|]. intros ?.
    apply without_bind; [apply without_log, Hlog|]. intros _.
    apply without_call, Hfiles. }
  intros finalResults.
  apply without_bind; [apply without_call, Hmar|]. intros jsonResults.
  apply without_bind.
  { destruct (dryRun f) eqn:Hd; [apply without_ret|].
    repeat constructor. apply Hprint. reflexivity. }
  intros _. case_decide as Hout; [apply without_ret|].
  apply without_bind; [apply without_call, Hv|]. intros ?.
  apply without_bind; [apply without_call, Hwrite, Hout|]. intros _.
  apply without_log, Hlog.
Qed.

Lemma run_without kind f e :
  (forall logOutput logLevel,
     without kind (run_validated f e logOutput logLevel)) ->
  (forall p, kind (EvValidatePath p) = false) ->
  (forall p, logFile f <> "" -> kind (EvOpenFile p) = false) ->
  (forall p, logFile f <> "" -> kind (EvCloseFile p) = false) ->
  without kind (run f e).
Proof.
  intros Hrun Hv Hopen Hclose. unfold run.
  case_decide as Hlog; [apply Hrun|].
  apply without_bind; [apply without_call, Hv|]. intros validLogPath.
  apply without_bind; [apply without_call, Hopen, Hlog|]. intros _.
  apply without_deferring; [apply Hclose, Hlog | apply Hrun].
Qed.

Lemma run_validated_writes_last f e logOutput logLevel :
  writes_last (run_validated f e logOutput logLevel).
Proof.
  unfold run_validated.
  destruct (ratio_rejected (refinementRatio f)).
  { apply without_writes_last. constructor. }
  apply writes_last_bind.
  { destruct (at_file _); repeat without_step. }
  intros userPrompt.
  apply writes_last_bind; [without_step|]. intros ranker.
  apply writes_last_bind; [without_step|]. intros [validPath isDir].
  apply writes_last_bind; [destruct isDir; repeat without_step|].
  intros finalResults.
  apply writes_last_bind; [without_step|]. intros jsonResults.
  apply writes_last_bind.
  { destruct (dryRun f); [apply without_ret | repeat constructor]. }
  intros _. case_decide as Hout.
  { apply without_writes_last, without_ret. }
  apply writes_last_bind; [without_step|]. intros validOutputPath.
  intros p _. unfold mbind, M_mbind, M_bind, wrapping, call, log. simpl.
  destruct (os_WriteFile e validOutputPath jsonResults) as [[]|err];
    simpl; [left | right]; eexists; reflexivity.
Qed.

(** X14: the log file. A run without [--log] opens and closes no file
    for logging. A run that validates and opens the log file closes
    it as its very last call, exactly once, whether it goes on to
    succeed or to fail, and returns what the rest of the run returned.
    When the log file cannot be opened the run stops there with
    "failed to open log file: " and closes nothing. *)
Theorem run_closes_log_file f e :
  (logFile f = "" -> without is_log_file (run f e)) /\
  (forall path,
     logFile f <> "" -> validatePath e (logFile f) = inl path ->
     os_OpenFile e path = inl tt ->
     let rest :=
       run_validated f e (LogFile path)
         (if debug f then LevelDebug else LevelInfo) in
     calls (run f e)
       = EvValidatePath (logFile f) :: EvOpenFile path
         :: calls rest ++ [EvCloseFile path] /\
     without is_log_file rest /\
     value (run f e) = value rest) /\
  (forall path err,
     logFile f <> "" -> validatePath e (logFile f) = inl path ->
     os_OpenFile e path = inr err ->
     run f e = mkM [EvValidatePath (logFile f); EvOpenFile path]
                   (inr ("failed to open log file: " +:+ err))).
Proof.
  assert (Hrest : forall logOutput logLevel,
            without is_log_file (run_validated f e logOutput logLevel)).
  { intros. apply run_validated_without; reflexivity. }
  split; [|split].
  - intros Hlog. unfold run. case_decide; [apply Hrest | contradiction].
  - intros path Hlog Hv Hopen rest.
    unfold run. case_decide; [contradiction|].
    unfold mbind, M_mbind, M_bind, wrapping, call, deferring. simpl.
    rewrite Hv. simpl. rewrite Hopen. simpl.
    split; [reflexivity|]. split; [apply Hrest | reflexivity].
  - intros path err Hlog Hv Hopen.
    unfold run. case_decide; [contradiction|].
    unfold mbind, M_mbind, M_bind, wrapping, call, deferring. simpl.
    rewrite Hv. simpl. rewrite Hopen. reflexivity.
Qed.

(** X15: what a run puts out. With [--dry-run] nothing is printed to
    standard output. Without [--output] no file is written. The
    output file is written last: a run that got as far as writing it
    returns no error, or the error of that write, so that a run
    failing anywhere before has written nothing. *)
Theorem run_outputs f e :
  (dryRun f = true -> without is_print (run f e)) /\
  (outputFile f = "" -> without is_write (run f e)) /\
  writes_last (run f e).
Proof.
  split; [|split].
  - intros Hdry. apply run_without; try reflexivity.
    intros. apply run_validated_without; try reflexivity.
    intros t Hd. rewrite Hdry in Hd. discriminate.
  - intros Hout. apply run_without; try reflexivity.
    intros. apply run_validated_without; try reflexivity.
    intros p Hne. contradiction.
  - unfold run. case_decide; [apply run_validated_writes_last|].
    apply writes_last_bind; [without_step|]. intros validLogPath.
    apply writes_last_bind; [without_step|]. intros _.
    apply writes_last_deferring; [reflexivity|].
    apply run_validated_writes_last.
Qed.

End Run.

(** The flags of [siftrank -f docs.txt -p rank --log run.log -o out.json
    --dry-run] and an environment in which the output file cannot be
    written. *)
Definition logged_flags : flags :=
  mkFlags "docs.txt" false "out.json" "*" "rank" "{{.Data}}" 10 50 50
          128000 one_half "gpt-4o-mini" "" "o200k_base" "" "" false
          (S754_finite false 7205759403792794 (-57)) 5 5 "curvature"
          true false false "" false false "run.log".

Definition read_only : env unit unit :=
  mkEnv (fun p => inl p) (fun _ => inl tt) (fun _ => inl "") (fun _ => "")
        (fun _ => inl tt) (fun p => inl (p, false)) (fun _ _ => inl [])
        (fun _ _ _ _ => inl tt) (fun _ _ _ _ => inl tt) (fun _ => inl "[]")
        (fun _ _ => inr "read-only file system").

Lemma run_closes_log_file_witness :
  logFile logged_flags <> "" /\
  validatePath read_only (logFile logged_flags) = inl "run.log" /\
  os_OpenFile read_only "run.log" = inl tt /\
  last (calls (run logged_flags read_only)) = Some (EvCloseFile "run.log") /\
  value (run logged_flags read_only)
    = inr "failed to write output file: read-only file system".
Proof.
  assert (Hlog : logFile logged_flags <> "") by discriminate.
  assert (Hv : validatePath read_only (logFile logged_flags)
               = inl "run.log") by reflexivity.
  assert (Hopen : os_OpenFile read_only "run.log" = inl tt) by reflexivity.
  destruct (run_closes_log_file logged_flags read_only) as (_ & Hclosed & _).
  destruct (Hclosed "run.log" Hlog Hv Hopen) as (Hcalls & _ & Hvalue).
  split; [exact Hlog|]. split; [exact Hv|]. split; [exact Hopen|].
  split.
  - rewrite Hcalls.
    rewrite (app_comm_cons _ _ (EvOpenFile "run.log")).
    rewrite (app_comm_cons _ _ (EvValidatePath (logFile logged_flags))).
    apply last_snoc.
  - rewrite Hvalue. vm_compute. reflexivity.
Defined.

Lemma run_outputs_witness :
  dryRun logged_flags = true /\
  without is_print (run logged_flags read_only) /\
  EvWriteFile "out.json" ∈ calls (run logged_flags read_only).
Proof.
  assert (Hdry : dryRun logged_flags = true) by reflexivity.
  destruct (run_outputs logged_flags read_only) as (Hquiet & _ & _).
  split; [exact Hdry|]. split; [exact (Hquiet Hdry)|].
  vm_compute. do 7 apply list_elem_of_further. apply list_elem_of_here.
Defined.

End CliOutputs.

(** ** Path validation and file enumeration *)

Module PathsFacts.
Import GoInt GoIntFacts Paths.

(** A regular file of the directory that the pattern matches. *)
Definition selected (fs : filesystem) (pattern : string)
    (entry : string * bool) : bool :=
  negb entry.2
  && match filepath_Match fs pattern entry.1 with
     | inl matched => matched
     | inr _ => false
     end.

Lemma match_entries_inl fs dirPath pattern entries :
  forall matchedFiles files,
    match_entries fs dirPath pattern entries matchedFiles = inl files ->
    files = matchedFiles
            ++ map (fun entry => filepath_Join fs dirPath entry.1)
                   (List.filter (selected fs pattern) entries).
Proof.
  induction entries as [|[name isDir] rest IH]; intros matchedFiles files H.
  - simpl in H. injection H as <-. simpl. rewrite app_nil_r. reflexivity.
  - cbn [match_entries] in H. unfold selected at 1. cbn [List.filter fst snd].
    destruct isDir; cbn [negb andb]; [exact (IH _ _ H)|].
    destruct (filepath_Match fs pattern name) as [[|]|err]; [| |discriminate].
    + rewrite (IH _ _ H), <- app_assoc. reflexivity.
    + exact (IH _ _ H).
Qed.

Lemma match_entries_directories fs dirPath pattern entries :
  forall matchedFiles,
    Forall (fun entry : string * bool => entry.2 = true) entries ->
    match_entries fs dirPath pattern entries matchedFiles = inl matchedFiles.
Proof.
  induction entries as [|[name isDir] rest IH]; intros matchedFiles Hall;
    [reflexivity|].
  inversion Hall as [|? ? Hd Hrest]; subst. simpl in Hd. subst isDir.
  cbn [match_entries]. apply IH, Hrest.
Qed.

Definition listing : list (string * bool) :=
  [("b.txt", false); ("notes", true); ("a.txt", false); ("c.md", false)].

(** A name that ends in "txt". *)
Definition ends_in_txt (name : string) : bool :=
  match String.rev name with
  | String c1 (String c2 (String c3 _)) =>
      Ascii.eqb c1 "t"%char && Ascii.eqb c2 "x"%char && Ascii.eqb c3 "t"%char
  | _ => false
  end.

(** A file system with one directory, in which the pattern matches the
    names that end in "txt". *)
Definition one_directory : filesystem :=
  mkFilesystem
    (fun p => inl p) (fun p => p) (fun p => inl p)
    (fun p => inl (bool_decide (p = "/data")))
    (fun d => if decide (d = "/data") then inl listing
              else inr "no such directory")
    (fun _ name => inl (ends_in_txt name))
    (fun d name => d +:+ "/" +:+ name)
    (fun s => s).

(** X16: what [enumerateFiles] returns. A list it returns is sorted,
    not empty and of at most 1000 paths, and holds exactly the joined
    paths of the entries of the directory that are not directories and
    that the pattern matches, each once per entry. *)
Theorem enumerateFiles_result fs dirPath pattern files :
  enumerateFiles fs dirPath pattern = inl files ->
  Sorted String.le files /\ files <> [] /\ (length files <= 1000)%nat /\
  exists entries,
    os_ReadDir fs dirPath = inl entries /\
    files ≡ₚ map (fun entry => filepath_Join fs dirPath entry.1)
                 (List.filter (selected fs pattern) entries).
Proof.
  unfold enumerateFiles. intros H.
  destruct (os_ReadDir fs dirPath) as [entries|err]; [|discriminate].
  destruct (match_entries fs dirPath pattern entries [])
    as [matchedFiles|err] eqn:Hm; [|discriminate].
  destruct (len matchedFiles >? MaxFilesPerDirectory) eqn:Hmax;
    [discriminate|].
  destruct (len (merge_sort String.le matchedFiles) =? 0) eqn:Hzero;
    [discriminate|].
  injection H as <-.
  pose proof (merge_sort_Permutation String.le matchedFiles) as Hperm.
  split; [apply Sorted_merge_sort, _|].
  split.
  { intros Hnil. rewrite Hnil in Hzero. discriminate. }
  split.
  { rewrite (Permutation_length Hperm).
    rewrite Z.gtb_ltb in Hmax. apply Z.ltb_ge in Hmax.
    unfold len, MaxFilesPerDirectory in Hmax. lia. }
  exists entries. split; [reflexivity|].
  rewrite Hperm. apply match_entries_inl in Hm. rewrite Hm. reflexivity.
Qed.

Lemma enumerateFiles_result_witness :
  enumerateFiles one_directory "/data" "*.txt"
    = inl ["/data/a.txt"; "/data/b.txt"] /\
  Sorted String.le ["/data/a.txt"; "/data/b.txt"].
Proof.
  assert (H : enumerateFiles one_directory "/data" "*.txt"
              = inl ["/data/a.txt"; "/data/b.txt"])
    by (vm_compute; reflexivity).
  split; [exact H|].
  exact (proj1 (enumerateFiles_result one_directory "/data" "*.txt" _ H)).
Defined.

(** X17: a directory without regular files. When every entry of the
    directory is a subdirectory (or there is none), the pattern is
    never tried, so that also a malformed pattern gives the error
    "no files matched pattern ...", not "invalid glob pattern". *)
Theorem enumerateFiles_directories_only fs dirPath pattern entries :
  os_ReadDir fs dirPath = inl entries ->
  Forall (fun entry : string * bool => entry.2 = true) entries ->
  enumerateFiles fs dirPath pattern
  = inr ("no files matched pattern " +:+ strconv_Quote fs pattern
         +:+ " in directory " +:+ dirPath).
Proof.
  intros Hread Hall. unfold enumerateFiles. rewrite Hread.
  rewrite (match_entries_directories _ _ _ _ _ Hall). reflexivity.
Qed.

Definition malformed_everywhere : filesystem :=
  mkFilesystem
    (fun p => inl p) (fun p => p) (fun p => inl p) (fun _ => inl true)
    (fun _ => inl [("notes", true)])
    (fun _ _ => inr "syntax error in pattern")
    (fun d name => d +:+ "/" +:+ name)
    (fun s => s).

Lemma enumerateFiles_directories_only_witness :
  enumerateFiles malformed_everywhere "/data" "[a"
  = inr "no files matched pattern [a in directory /data".
Proof.
  exact (enumerateFiles_directories_only malformed_everywhere "/data" "[a"
           [("notes", true)] eq_refl
           ltac:(repeat constructor)).
Defined.

(** X18: the two validations agree on what exists. A path that
    [validateInputPath] accepts as a file is accepted by [validatePath]
    with the same resolved path; one it accepts as a directory is
    refused by [validatePath] as a directory. A path whose symlinks
    resolve to nothing is refused by [validateInputPath] and accepted
    by [validatePath], which returns the cleaned absolute path: it is
    meant for files yet to be written. Whatever [validatePath] returns
    without resolving symlinks holds no "..". *)
Theorem validations_agree fs path :
  (forall realPath,
     validateInputPath fs path = inl (realPath, false) ->
     validatePath fs path = inl realPath) /\
  (forall realPath,
     validateInputPath fs path = inl (realPath, true) ->
     validatePath fs path
     = inr ("path is a directory, not a file: " +:+ path)) /\
  (forall absPath msg,
     filepath_Abs fs path = inl absPath ->
     contains_dotdot (filepath_Clean fs absPath) = false ->
     filepath_EvalSymlinks fs (filepath_Clean fs absPath)
       = inr (NotExist msg) ->
     validateInputPath fs path = inr ("path does not exist: " +:+ path) /\
     validatePath fs path = inl (filepath_Clean fs absPath)) /\
  (forall valid,
     validatePath fs path = inl valid ->
     exists absPath,
       filepath_Abs fs path = inl absPath /\
       contains_dotdot (filepath_Clean fs absPath) = false /\
       (valid = filepath_Clean fs absPath \/
        filepath_EvalSymlinks fs (filepath_Clean fs absPath) = inl valid)).
Proof.
  unfold validateInputPath, validatePath.
  destruct (filepath_Abs fs path) as [absPath|err].
  2:{ split; [|split; [|split]]; intros; discriminate. }
  destruct (contains_dotdot (filepath_Clean fs absPath)) eqn:Hdots.
  { split; [|split; [|split]]; try (intros; discriminate).
    intros a m [= <-] Hd _. rewrite Hdots in Hd. discriminate. }
  destruct (filepath_EvalSymlinks fs (filepath_Clean fs absPath))
    as [realPath|[msg|msg]] eqn:Hlinks.
  - assert (Hthird : forall a m,
              @inl string string absPath = inl a ->
              filepath_EvalSymlinks fs (filepath_Clean fs a)
                = inr (NotExist m) -> False).
    { intros a m [= <-] H. rewrite Hlinks in H. discriminate. }
    destruct (os_Stat fs realPath) as [[|]|[msg|msg]];
      (split; [|split; [|split]]);
      try (intros; discriminate);
      try (intros a m Ha _ H; destruct (Hthird a m Ha H)).
    + intros r _. reflexivity.
    + intros r [= <-]. reflexivity.
    + intros valid [= <-]. exists absPath. auto.
    + intros valid [= <-]. exists absPath. auto.
  - split; [|split; [|split]]; try (intros; discriminate).
    + intros a m [= <-] _ _. split; reflexivity.
    + intros valid [= <-]. exists absPath. auto.
  - split; [|split; [|split]]; try (intros; discriminate).
    intros a m [= <-] _ H. rewrite Hlinks in H. discriminate.
Qed.

Definition nothing_yet : filesystem :=
  mkFilesystem
    (fun p => inl ("/work/" +:+ p)) (fun p => p)
    (fun _ => inr (NotExist "no such file or directory"))
    (fun _ => inr (NotExist "no such file or directory"))
    (fun _ => inr "no such directory")
    (fun _ _ => inl false)
    (fun d name => d +:+ "/" +:+ name)
    (fun s => s).

Lemma validations_agree_witness :
  validateInputPath nothing_yet "out.json"
    = inr "path does not exist: out.json" /\
  validatePath nothing_yet "out.json" = inl "/work/out.json".
Proof.
  destruct (validations_agree nothing_yet "out.json") as (_ & _ & Hnew & _).
  exact (Hnew "/work/out.json" "no such file or directory"
           eq_refl eq_refl eq_refl).
Defined.

End PathsFacts.

(** ** The comparison provider, end to end *)

Module WrapperFacts.
Import Metrics TokenUsage Anthropic Compare Collector CollectorFacts
       Selector EvalProvider Wrapper.

Section Adapters.
Context `{rt : GoRuntime}.
Context {P PS : Type}.
Context `{sift : !SiftProvider P PS} `{clock : !Clock PS}.

(** X19: a call through the comparison provider with options. The
    provider that was selected is handed new, empty options, whatever
    the caller's options hold: their temperature and token limit do
    not reach it. What the provider stores in the options it was
    given reaches neither the caller's options, which are left as
    they were, nor the collector: the token counts of the record are
    those the caller's options held before the call. The call
    returns what the provider returned. *)
Theorem wrapper_Complete_usage (prompt : string) (l : addr)
    (o : CompletionOptions) (w : world (state P PS))
    provider modelID rr t0 ps1 response callErr content ps2 t1 ps3 :
  Collector.wf (coll w) ->
  options (ext w) !! l = Some o ->
  Selector.SelectProvider (selector (ext w))
    = Ret (Selected provider modelID, rr) ->
  time_Now (providers_state (ext w)) = (t0, ps1) ->
  sift_Complete (adapted provider) prompt (Some emptyOptions) ps1
    = Ret (response, callErr, content, ps2) ->
  time_Now ps2 = (t1, ps3) ->
  exists w',
    wrapper_Complete prompt (Some l) w = Ret (response, callErr, w') /\
    options (ext w') !! l = Some o /\
    selector (ext w') = rr /\ providers_state (ext w') = ps3 /\
    elems (hp (coll w')) (metrics (coll w'))
      = elems (hp (coll w)) (metrics (coll w))
        ++ [mkCallMetrics modelID (Milliseconds (time_Sub t1 t0))
              (InputTokens (OptUsage o)) (OutputTokens (OptUsage o))
              (InputTokens (OptUsage o))
              (bool_decide (callErr = None)) (default "" callErr) t0].
Proof.
  intros Hwf Hl Hsel Ht0 Hcall Ht1.
  assert (Hfresh : fresh (dom (options (ext w))) <> l).
  { intros E. pose proof (is_fresh (dom (options (ext w)))) as Hf.
    rewrite E in Hf. apply Hf. apply elem_of_dom. eauto. }
  eexists. unfold wrapper_Complete, Complete.
  unfold SelectProvider, state_SelectProvider.
  rewrite Hsel, !bind_Ret.
  unfold time_Now at 1. unfold state_Now at 1.
  cbn [providers_state options selector]. rewrite Ht0.
  unfold provider_Complete, adapter_Complete.
  cbn [providers_state options selector]. rewrite Hcall, !bind_Ret.
  unfold time_Now at 1. unfold state_Now at 1.
  cbn [providers_state options selector]. rewrite Ht1.
  unfold read_usage, GetUsage, adapter_GetUsage.
  cbn [adapted_opts options].
  rewrite lookup_insert_ne by exact Hfresh. rewrite Hl, !bind_Ret.
  split; [reflexivity|]. cbn [ext coll options selector providers_state].
  split; [rewrite lookup_insert_ne by exact Hfresh; exact Hl|].
  split; [reflexivity|]. split; [reflexivity|].
  apply RecordCall_elems, Hwf.
Qed.

End Adapters.

(** A provider that answers after 40 ms and reports 100 input and 20
    output tokens; the state is the time. *)
Definition reporting : SiftProvider unit Z :=
  fun _ _ opts now =>
    Ret ("[1,2]", None,
         mkOptions None None (mkUsage 100 20 0) "gpt-4o-mini" "stop" "req-1",
         now + 40000000).

Definition ticking : Clock Z := fun now => (now, now).

Definition one_provider : roundRobinSelector (llmProviderAdapter unit) :=
  mkSelector (<["openai:gpt-4o-mini" := mkAdapter tt]> ∅)
             ["openai:gpt-4o-mini"] 0.

Definition callers_options : CompletionOptions :=
  mkOptions None (Some 256) zero "" "" "".

Definition before_call : world (state unit Z) :=
  mkWorld (mkState (<[1%positive := callers_options]> ∅) one_provider 0)
          (NewMetricsCollector ∅).

Lemma wrapper_Complete_usage_witness :
  exists w',
    wrapper_Complete (rt := doubling) (sift := reporting) (clock := ticking)
      "rank these" (Some 1%positive) before_call
      = Ret ("[1,2]", None, w') /\
    options (ext w') !! 1%positive = Some callers_options /\
    elems (hp (coll w')) (metrics (coll w'))
      = [mkCallMetrics "openai:gpt-4o-mini" 40 0 0 0 true "" 0].
Proof.
  destruct (wrapper_Complete_usage (rt := doubling) (sift := reporting)
              (clock := ticking) "rank these" 1%positive callers_options
              before_call (mkAdapter tt) "openai:gpt-4o-mini"
              (mkSelector (providers one_provider) (sequence one_provider) 1)
              0 0 "[1,2]" None
              (mkOptions None None (mkUsage 100 20 0) "gpt-4o-mini" "stop"
                         "req-1")
              40000000 40000000 40000000
              (NewMetricsCollector_wf ∅) eq_refl eq_refl eq_refl eq_refl
              eq_refl)
    as (w' & Hret & Hopts & _ & _ & Hrec).
  exists w'. split; [exact Hret|]. split; [exact Hopts|].
  rewrite Hrec. reflexivity.
Defined.

End WrapperFacts.
